(** * Inventory projection: aggregation, metrics and forecasting

    A shallow embedding of [src/lib/aggregator.ts], [src/lib/metrics.ts] and
    [src/lib/forecasting.ts], followed by the properties of the
    specification that concern them.

    Modelling conventions.
    - A JavaScript [Date] is its local-time millisecond timestamp, an integer.
      The host time zone is taken to have a constant UTC offset, so that the
      local calendar functions are the ECMAScript ones ([Day], [YearFromTime],
      [MonthFromTime], [DateFromTime], [WeekDay], [MakeDay]) applied to that
      timestamp.  The invalid date and the range limit of [TimeClip] are not
      modelled.
    - An ISO string produced by [toISOString] is used by the code only as a
      map key and as the argument of [new Date(...)]; since the rendering is
      injective, the string is identified with the timestamp it renders.
    - A JavaScript [number] is an exact rational, [NaN], or a signed infinity.
      Arithmetic is IEEE arithmetic without rounding error, overflow and
      signed zeros; a division by zero gives an infinity or [NaN].
    - [Math.sqrt] is a parameter [sqrtQ] of the definitions that take square
      roots; each property states what it needs of it.
    - A JavaScript [Map] is an association list in insertion order.
    - The text of a period label is not modelled. *)

From Stdlib Require Import ZArith QArith Qround Qabs Lia Lqa List Bool String.
Import ListNotations.

Local Open Scope Z_scope.

(* ================================================================== *)
(** * The ECMAScript calendar *)
(* ================================================================== *)

Module Calendar.

Definition msPerDay : Z := 86400000.

Definition Day (t : Z) : Z := t / msPerDay.
Definition TimeWithinDay (t : Z) : Z := t mod msPerDay.

Definition DayFromYear (y : Z) : Z :=
  365 * (y - 1970) + (y - 1969) / 4 - (y - 1901) / 100 + (y - 1601) / 400.

Definition isLeapYear (y : Z) : bool :=
  (y mod 4 =? 0) && (negb (y mod 100 =? 0) || (y mod 400 =? 0)).

Definition DaysInYear (y : Z) : Z := if isLeapYear y then 366 else 365.

(** The largest [y] with [DayFromYear y <= day]: an estimate from the mean
    length of a Gregorian year, corrected by at most one year. *)
Definition YearFromDay (day : Z) : Z :=
  let y0 := 1970 + (day * 400) / 146097 in
  if day <? DayFromYear y0 then y0 - 1
  else if DayFromYear (y0 + 1) <=? day then y0 + 1
  else y0.

Definition DayWithinYear (day : Z) : Z := day - DayFromYear (YearFromDay day).

(** Number of days of the year before month [m] (0 = January). *)
Definition daysBeforeMonth (leap : bool) (m : Z) : Z :=
  let l := if leap then 1 else 0 in
  if m <=? 0 then 0
  else if m =? 1 then 31
  else if m =? 2 then 59 + l
  else if m =? 3 then 90 + l
  else if m =? 4 then 120 + l
  else if m =? 5 then 151 + l
  else if m =? 6 then 181 + l
  else if m =? 7 then 212 + l
  else if m =? 8 then 243 + l
  else if m =? 9 then 273 + l
  else if m =? 10 then 304 + l
  else if m =? 11 then 334 + l
  else 365 + l.

Definition MonthFromDay (day : Z) : Z :=
  let leap := isLeapYear (YearFromDay day) in
  let d := DayWithinYear day in
  if d <? daysBeforeMonth leap 1 then 0
  else if d <? daysBeforeMonth leap 2 then 1
  else if d <? daysBeforeMonth leap 3 then 2
  else if d <? daysBeforeMonth leap 4 then 3
  else if d <? daysBeforeMonth leap 5 then 4
  else if d <? daysBeforeMonth leap 6 then 5
  else if d <? daysBeforeMonth leap 7 then 6
  else if d <? daysBeforeMonth leap 8 then 7
  else if d <? daysBeforeMonth leap 9 then 8
  else if d <? daysBeforeMonth leap 10 then 9
  else if d <? daysBeforeMonth leap 11 then 10
  else 11.

Definition DateFromDay (day : Z) : Z :=
  DayWithinYear day
  - daysBeforeMonth (isLeapYear (YearFromDay day)) (MonthFromDay day) + 1.

Definition WeekDay (t : Z) : Z := (Day t + 4) mod 7.

(** [MakeDay year month date]: the day number of the given calendar day,
    months and dates outside their range carrying over. *)
Definition MakeDay (year month date : Z) : Z :=
  let ym := year + month / 12 in
  let mn := month mod 12 in
  DayFromYear ym + daysBeforeMonth (isLeapYear ym) mn + date - 1.

Definition MakeDate (day time : Z) : Z := day * msPerDay + time.

(** ** The [Date] methods used by the aggregator *)

Definition getFullYear (t : Z) : Z := YearFromDay (Day t).
Definition getMonth (t : Z) : Z := MonthFromDay (Day t).
Definition getDate (t : Z) : Z := DateFromDay (Day t).
Definition getDay (t : Z) : Z := WeekDay t.

(** [new Date(year, month, date)]: a year from 0 to 99 stands for
    1900 + year. *)
Definition newDate (year month date : Z) : Z :=
  let yr := if (0 <=? year) && (year <=? 99) then 1900 + year else year in
  MakeDate (MakeDay yr month date) 0.

Definition setDate (t date : Z) : Z :=
  MakeDate (MakeDay (getFullYear t) (getMonth t) date) (TimeWithinDay t).

Definition setMonth (t month : Z) : Z :=
  MakeDate (MakeDay (getFullYear t) month (getDate t)) (TimeWithinDay t).

End Calendar.

(* ================================================================== *)
(** * JavaScript numbers *)
(* ================================================================== *)

Module JsNumber.

Local Open Scope Q_scope.

Inductive number : Type :=
| Fin (q : Q)
| Inf (positive : bool)
| NaN.

(** Finite results are kept in lowest terms, so that a number has one
    representation. *)
Definition norm (q : Q) : number := Fin (Qred q).

Definition of_Z (z : Z) : number := Fin (inject_Z z).

Definition Qltb (a b : Q) : bool := negb (Qle_bool b a).

Definition is_finite (x : number) : bool :=
  match x with Fin _ => true | _ => false end.

Definition num_add (x y : number) : number :=
  match x, y with
  | Fin a, Fin b => norm (a + b)
  | Fin _, Inf s => Inf s
  | Inf s, Fin _ => Inf s
  | Inf s, Inf s' => if Bool.eqb s s' then Inf s else NaN
  | _, _ => NaN
  end.

Definition num_sub (x y : number) : number :=
  match x, y with
  | Fin a, Fin b => norm (a - b)
  | Fin _, Inf s => Inf (negb s)
  | Inf s, Fin _ => Inf s
  | Inf s, Inf s' => if Bool.eqb s s' then NaN else Inf s
  | _, _ => NaN
  end.

Definition num_mul (x y : number) : number :=
  match x, y with
  | Fin a, Fin b => norm (a * b)
  | Fin a, Inf s
  | Inf s, Fin a =>
      if Qeq_bool a 0 then NaN else Inf (if Qltb 0 a then s else negb s)
  | Inf s, Inf s' => Inf (Bool.eqb s s')
  | _, _ => NaN
  end.

Definition num_div (x y : number) : number :=
  match x, y with
  | Fin a, Fin b =>
      if Qeq_bool b 0
      then (if Qeq_bool a 0 then NaN else Inf (Qltb 0 a))
      else norm (a / b)
  | Fin _, Inf _ => Fin 0
  | Inf s, Fin b => Inf (if Qle_bool 0 b then s else negb s)
  | _, _ => NaN
  end.

(** The comparison operators; every comparison with [NaN] is false. *)
Definition num_ltb (x y : number) : bool :=
  match x, y with
  | Fin a, Fin b => Qltb a b
  | Fin _, Inf s => s
  | Inf s, Fin _ => negb s
  | Inf s, Inf s' => negb s && s'
  | _, _ => false
  end.

Definition num_gtb (x y : number) : bool := num_ltb y x.

Definition num_leb (x y : number) : bool :=
  match x, y with
  | Fin a, Fin b => Qle_bool a b
  | Fin _, Inf s => s
  | Inf s, Fin _ => negb s
  | Inf s, Inf s' => negb s || s'
  | _, _ => false
  end.

(** [x === y] on numbers. *)
Definition num_eqb (x y : number) : bool :=
  match x, y with
  | Fin a, Fin b => Qeq_bool a b
  | Inf s, Inf s' => Bool.eqb s s'
  | _, _ => false
  end.

(** [x !== y]. *)
Definition num_neqb (x y : number) : bool := negb (num_eqb x y).

Definition Math_max (x y : number) : number :=
  match x, y with
  | NaN, _ | _, NaN => NaN
  | _, _ => if num_ltb x y then y else x
  end.

Definition Math_abs (x : number) : number :=
  match x with
  | Fin a => norm (Qabs a)
  | Inf _ => Inf true
  | NaN => NaN
  end.

(** [Math.round]: the nearest integer, halves going up. *)
Definition Math_round (x : number) : number :=
  match x with
  | Fin a => of_Z (Qfloor (a + (1 # 2)))
  | _ => x
  end.

Definition Math_ceil (x : number) : number :=
  match x with
  | Fin a => of_Z (Qceiling a)
  | _ => x
  end.

(** [Math.pow(x, 2)]. *)
Definition Math_pow2 (x : number) : number := num_mul x x.

(** [x || 0] for an array element [x] that may be missing: [undefined],
    [NaN] and [0] are falsy. *)
Definition or_zero (x : option number) : number :=
  match x with
  | Some (Fin a) => if Qeq_bool a 0 then Fin 0 else Fin a
  | Some (Inf s) => Inf s
  | Some NaN | None => Fin 0
  end.

(** [values.reduce((sum, v) => sum + v, 0)]. *)
Definition sum (values : list number) : number :=
  fold_left num_add values (Fin 0).

End JsNumber.

(* ================================================================== *)
(** * JavaScript maps *)
(* ================================================================== *)

Module JsMap.
Section Defs.
Context {K V : Type} (eqb : K -> K -> bool).

Definition t := list (K * V).

Fixpoint get (k : K) (m : t) : option V :=
  match m with
  | [] => None
  | (k', v) :: m' => if eqb k k' then Some v else get k m'
  end.

(** [m.set(k, v)]: an existing key keeps its place. *)
Fixpoint set (k : K) (v : V) (m : t) : t :=
  match m with
  | [] => [(k, v)]
  | (k', v') :: m' =>
      if eqb k k' then (k', v) :: m' else (k', v') :: set k v m'
  end.

Definition keys (m : t) : list K := map fst m.
Definition values (m : t) : list V := map snd m.
End Defs.
End JsMap.

(* ================================================================== *)
(** * Data types ([src/types]) *)
(* ================================================================== *)

Import JsNumber.

Inductive AggregationPeriod : Type := daily | weekly | monthly.

(** The text of a period label is produced by [toLocaleDateString]; it is
    kept as the period kind and the date it was formatted from. *)
Definition PeriodLabel : Type := (AggregationPeriod * Z)%type.

Module OrderRecord.
Record t : Type := mk {
  date : Z;
  productId : string;
  productName : string;
  quantity : number;
  category : option string;
  unitPrice : option number;
  supplier : option string;
}.
End OrderRecord.

Module AggregatedData.
Record t : Type := mk {
  period : Z;
  periodLabel : PeriodLabel;
  productId : string;
  productName : string;
  totalQuantity : number;
  orderCount : Z;
  avgQuantityPerOrder : number;
}.
End AggregatedData.

Module ProductAggregation.
Record t : Type := mk {
  productId : string;
  productName : string;
  category : option string;
  data : list AggregatedData.t;
  totalOrders : Z;
  totalQuantity : number;
  firstOrderDate : Z;
  lastOrderDate : Z;
}.
End ProductAggregation.

(** [Map<string, ProductAggregation>] and [Map<string, AggregatedData>];
    the keys of the latter are the ISO strings of period starts. *)
Definition ProductMap : Type := @JsMap.t string ProductAggregation.t.
Definition PeriodMap : Type := @JsMap.t Z AggregatedData.t.

(* ================================================================== *)
(** * The aggregator ([src/lib/aggregator.ts]) *)
(* ================================================================== *)

Module Aggregator.
Import Calendar.

Definition getPeriodStart (date : Z) (period : AggregationPeriod) : Z :=
  let d := date in
  match period with
  | daily => newDate (getFullYear d) (getMonth d) (getDate d)
  | weekly =>
      let day := getDay d in
      let diff := getDate d - day + (if day =? 0 then -6 else 1) in
      newDate (getFullYear d) (getMonth d) diff
  | monthly => newDate (getFullYear d) (getMonth d) 1
  end.

Definition formatPeriodLabel (date : Z) (period : AggregationPeriod)
  : PeriodLabel := (period, date).

(** The body of the [switch] that moves [current] to the next period. *)
Definition advance (current : Z) (period : AggregationPeriod) : Z :=
  match period with
  | daily => setDate current (getDate current + 1)
  | weekly => setDate current (getDate current + 7)
  | monthly => setMonth current (getMonth current + 1)
  end.

(** The [while (current <= end)] loop, with a bound on its iterations. *)
Fixpoint generatePeriods_loop (fuel : nat) (current end_ : Z)
    (period : AggregationPeriod) : list Z :=
  match fuel with
  | O => []
  | S fuel' =>
      if current <=? end_
      then current :: generatePeriods_loop fuel' (advance current period)
                        end_ period
      else []
  end.

(** Every iteration moves [current] forward by a day at least, so the
    number of days from [current] to [end], plus one, bounds the number of
    iterations ([generatePeriods_loop_fuel] below). *)
Definition generatePeriods (startDate endDate : Z)
    (period : AggregationPeriod) : list Z :=
  let current := getPeriodStart startDate period in
  let end_ := getPeriodStart endDate period in
  generatePeriods_loop (Z.to_nat ((end_ - current) / msPerDay + 1))
    current end_ period.

(** ** [aggregateOrderData] *)

(** First loop: one [ProductAggregation] per product id. *)
Definition groupOrder (productMap : ProductMap) (order : OrderRecord.t)
  : ProductMap :=
  let productAgg :=
    match JsMap.get String.eqb (OrderRecord.productId order) productMap with
    | Some productAgg => productAgg
    | None =>
        ProductAggregation.mk
          (OrderRecord.productId order)
          (OrderRecord.productName order)
          (OrderRecord.category order)
          []
          0
          (Fin 0)
          (OrderRecord.date order)
          (OrderRecord.date order)
    end in
  let totalOrders := ProductAggregation.totalOrders productAgg + 1 in
  let totalQuantity :=
    num_add (ProductAggregation.totalQuantity productAgg)
            (OrderRecord.quantity order) in
  let firstOrderDate :=
    if OrderRecord.date order <? ProductAggregation.firstOrderDate productAgg
    then OrderRecord.date order
    else ProductAggregation.firstOrderDate productAgg in
  let lastOrderDate :=
    if OrderRecord.date order >? ProductAggregation.lastOrderDate productAgg
    then OrderRecord.date order
    else ProductAggregation.lastOrderDate productAgg in
  JsMap.set String.eqb (OrderRecord.productId order)
    (ProductAggregation.mk
       (ProductAggregation.productId productAgg)
       (ProductAggregation.productName productAgg)
       (ProductAggregation.category productAgg)
       (ProductAggregation.data productAgg)
       totalOrders totalQuantity firstOrderDate lastOrderDate)
    productMap.

Definition groupOrders (orders : list OrderRecord.t) : ProductMap :=
  fold_left groupOrder orders [].

(** Second loop, "Initialize all periods with zero". *)
Definition initPeriod (productId productName : string)
    (period : AggregationPeriod)
    (periodData : PeriodMap) (periodDate : Z) : PeriodMap :=
  let periodKey := periodDate in
  JsMap.set Z.eqb periodKey
    (AggregatedData.mk periodKey (formatPeriodLabel periodDate period)
       productId productName (Fin 0) 0 (Fin 0))
    periodData.

(** Second loop, "Aggregate actual orders". *)
Definition addOrder (period : AggregationPeriod) (periodData : PeriodMap)
    (order : OrderRecord.t) : PeriodMap :=
  let periodStart := getPeriodStart (OrderRecord.date order) period in
  let periodKey := periodStart in
  match JsMap.get Z.eqb periodKey periodData with
  | Some data =>
      JsMap.set Z.eqb periodKey
        (AggregatedData.mk
           (AggregatedData.period data)
           (AggregatedData.periodLabel data)
           (AggregatedData.productId data)
           (AggregatedData.productName data)
           (num_add (AggregatedData.totalQuantity data)
                    (OrderRecord.quantity order))
           (AggregatedData.orderCount data + 1)
           (AggregatedData.avgQuantityPerOrder data))
        periodData
  | None => periodData
  end.

(** Second loop, "Calculate averages". *)
Definition withAverage (d : AggregatedData.t) : AggregatedData.t :=
  AggregatedData.mk
    (AggregatedData.period d)
    (AggregatedData.periodLabel d)
    (AggregatedData.productId d)
    (AggregatedData.productName d)
    (AggregatedData.totalQuantity d)
    (AggregatedData.orderCount d)
    (if AggregatedData.orderCount d >? 0
     then num_div (AggregatedData.totalQuantity d)
                  (of_Z (AggregatedData.orderCount d))
     else Fin 0).

(** [Array.prototype.sort] with the comparator
    [new Date(a.period).getTime() - new Date(b.period).getTime()]; the sort
    is stable. *)
Fixpoint insertByPeriod (x : AggregatedData.t) (l : list AggregatedData.t)
  : list AggregatedData.t :=
  match l with
  | [] => [x]
  | y :: l' =>
      if AggregatedData.period x <=? AggregatedData.period y
      then x :: y :: l'
      else y :: insertByPeriod x l'
  end.

Definition sortByPeriod (l : list AggregatedData.t) : list AggregatedData.t :=
  fold_right insertByPeriod [] l.

Definition aggregateProduct (orders : list OrderRecord.t)
    (period : AggregationPeriod) (productId : string)
    (productAgg : ProductAggregation.t) : list AggregatedData.t :=
  let productOrders :=
    filter (fun o => String.eqb (OrderRecord.productId o) productId) orders in
  let allPeriods :=
    generatePeriods (ProductAggregation.firstOrderDate productAgg)
                    (ProductAggregation.lastOrderDate productAgg) period in
  let periodData :=
    fold_left
      (initPeriod productId (ProductAggregation.productName productAgg) period)
      allPeriods [] in
  let periodData := fold_left (addOrder period) productOrders periodData in
  sortByPeriod (map withAverage (JsMap.values periodData)).

Definition aggregateOrderData (orders : list OrderRecord.t)
    (period : AggregationPeriod) : ProductMap :=
  let productMap := groupOrders orders in
  map (fun '(productId, productAgg) =>
         (productId,
          ProductAggregation.mk
            (ProductAggregation.productId productAgg)
            (ProductAggregation.productName productAgg)
            (ProductAggregation.category productAgg)
            (aggregateProduct orders period productId productAgg)
            (ProductAggregation.totalOrders productAgg)
            (ProductAggregation.totalQuantity productAgg)
            (ProductAggregation.firstOrderDate productAgg)
            (ProductAggregation.lastOrderDate productAgg)))
      productMap.

Definition getPeriodsPerWeek (period : AggregationPeriod) : Q :=
  match period with
  | daily => 7
  | weekly => 1
  | monthly => 1 # 4
  end.

Definition getPeriodsPerMonth (period : AggregationPeriod) : Q :=
  match period with
  | daily => 30
  | weekly => 433 # 100
  | monthly => 1
  end.

End Aggregator.

(* ================================================================== *)
(** * Metrics ([src/lib/metrics.ts]) *)
(* ================================================================== *)

Inductive TrendDirection : Type := increasing | decreasing | stable.

Inductive OutlierType : Type := spike | drop.

Module OutlierData.
Record t : Type := mk {
  date : Z;
  period : Z;
  quantity : number;
  zScore : number;
  type : OutlierType;
}.
End OutlierData.

(** The fields [seasonalityIndex], [minDemand], [maxDemand] and
    [medianDemand] are not read by the forecaster and are left out. *)
Module ProductMetrics.
Record t : Type := mk {
  productId : string;
  productName : string;
  avgDailyDemand : number;
  avgWeeklyDemand : number;
  avgMonthlyDemand : number;
  variance : number;
  stdDeviation : number;
  coefficientOfVariation : number;
  trend : TrendDirection;
  trendSlope : number;
  trendStrength : number;
  outliers : list OutlierData.t;
}.
End ProductMetrics.

Module RegressionResult.
Record t : Type := mk {
  slope : number;
  intercept : number;
  rSquared : number;
  predict : number -> number;
}.
End RegressionResult.

Module Metrics.
Import Aggregator.

Section WithSqrt.

(** The square root of a non-negative rational, given in lowest terms.
    [Math.sqrt] is not exact on the rationals; what the properties below
    need of it is stated where it is needed. *)
Variable sqrtQ : Q -> Q.

Definition Math_sqrt (x : number) : number :=
  match x with
  | Fin a => if Qltb a 0 then NaN else norm (sqrtQ (Qred a))
  | Inf true => Inf true
  | _ => NaN
  end.

(** [values.length] as a number. *)
Definition len {A} (values : list A) : number :=
  of_Z (Z.of_nat (List.length values)).

Definition mean (values : list number) : number :=
  if (List.length values =? 0)%nat then Fin 0
  else num_div (fold_left (fun sum v => num_add sum v) values (Fin 0))
               (len values).

Definition variance (values : list number) : number :=
  if (List.length values <? 2)%nat then Fin 0
  else
    let avg := mean values in
    let squaredDiffs := map (fun v => Math_pow2 (num_sub v avg)) values in
    num_div (fold_left (fun sum v => num_add sum v) squaredDiffs (Fin 0))
            (num_sub (len values) (Fin 1)).

Definition stdDeviation (values : list number) : number :=
  Math_sqrt (variance values).

Definition coefficientOfVariation (values : list number) : number :=
  let avg := mean values in
  if num_eqb avg (Fin 0) then Fin 0
  else num_div (stdDeviation values) avg.

Definition zScore (value avg std : number) : number :=
  if num_eqb std (Fin 0) then Fin 0
  else num_div (num_sub value avg) std.

(** [values.map((_, i) => i)]. *)
Definition indices {A} (values : list A) : list number :=
  map (fun i => of_Z (Z.of_nat i)) (seq 0 (List.length values)).

Definition linearRegression (values : list number) : RegressionResult.t :=
  let n := List.length values in
  if (n <? 2)%nat then
    RegressionResult.mk (Fin 0) (or_zero (nth_error values 0)) (Fin 0)
      (fun _ => or_zero (nth_error values 0))
  else
    let xValues := indices values in
    let xMean := mean xValues in
    let yMean := mean values in
    let '(numerator, denominator) :=
      fold_left
        (fun '(numerator, denominator) '(x, y) =>
           let xDiff := num_sub x xMean in
           let yDiff := num_sub y yMean in
           (num_add numerator (num_mul xDiff yDiff),
            num_add denominator (num_mul xDiff xDiff)))
        (combine xValues values) (Fin 0, Fin 0) in
    let slope :=
      if num_neqb denominator (Fin 0) then num_div numerator denominator
      else Fin 0 in
    let intercept := num_sub yMean (num_mul slope xMean) in
    let predictions :=
      map (fun x => num_add (num_mul slope x) intercept) xValues in
    let ssRes :=
      fold_left (fun sum '(y, p) => num_add sum (Math_pow2 (num_sub y p)))
                (combine values predictions) (Fin 0) in
    let ssTot :=
      fold_left (fun sum y => num_add sum (Math_pow2 (num_sub y yMean)))
                values (Fin 0) in
    let rSquared :=
      if num_neqb ssTot (Fin 0) then num_sub (Fin 1) (num_div ssRes ssTot)
      else Fin 0 in
    RegressionResult.mk slope intercept (Math_max (Fin 0) rSquared)
      (fun x => num_add (num_mul slope x) intercept).

Definition determineTrend (slope rSquared avgValue : number)
  : TrendDirection :=
  let normalizedSlope :=
    if num_neqb avgValue (Fin 0) then num_div slope avgValue else Fin 0 in
  let significantRSquared := num_gtb rSquared (Fin 0.1) in
  let significantSlope := num_gtb (Math_abs normalizedSlope) (Fin 0.02) in
  if negb significantRSquared || negb significantSlope then stable
  else if num_gtb slope (Fin 0) then increasing else decreasing.

(** [data] holds the [period] and the [quantity] of each item. *)
Definition detectOutliers (data : list (Z * number))
    (zScoreThreshold : number) : list OutlierData.t :=
  let quantities := map snd data in
  let avg := mean quantities in
  let std := stdDeviation quantities in
  if num_eqb std (Fin 0) then []
  else
    fold_left
      (fun outliers '(period, quantity) =>
         let z := zScore quantity avg std in
         if num_gtb (Math_abs z) zScoreThreshold
         then outliers ++
              [OutlierData.mk period period quantity z
                 (if num_gtb z (Fin 0) then spike else drop)]
         else outliers)
      data [].

Definition defaultZScoreThreshold : number := Fin 2.5.

Definition calculateProductMetrics (aggregation : ProductAggregation.t)
    (period : AggregationPeriod) : ProductMetrics.t :=
  let quantities :=
    map AggregatedData.totalQuantity (ProductAggregation.data aggregation) in
  let avgQuantity := mean quantities in
  let varianceValue := variance quantities in
  let stdDev := stdDeviation quantities in
  let cv := coefficientOfVariation quantities in
  let periodsPerWeek := Fin (getPeriodsPerWeek period) in
  let periodsPerMonth := Fin (getPeriodsPerMonth period) in
  let avgDailyDemand := num_div avgQuantity (num_div (Fin 7) periodsPerWeek) in
  let avgWeeklyDemand := num_mul avgQuantity periodsPerWeek in
  let avgMonthlyDemand := num_mul avgQuantity periodsPerMonth in
  let regression := linearRegression quantities in
  let trend :=
    determineTrend (RegressionResult.slope regression)
                   (RegressionResult.rSquared regression) avgQuantity in
  let dataForOutliers :=
    map (fun d => (AggregatedData.period d, AggregatedData.totalQuantity d))
        (ProductAggregation.data aggregation) in
  let outliers := detectOutliers dataForOutliers defaultZScoreThreshold in
  ProductMetrics.mk
    (ProductAggregation.productId aggregation)
    (ProductAggregation.productName aggregation)
    avgDailyDemand avgWeeklyDemand avgMonthlyDemand
    varianceValue stdDev cv trend
    (RegressionResult.slope regression)
    (RegressionResult.rSquared regression)
    outliers.

End WithSqrt.
End Metrics.

(* ================================================================== *)
(** * Forecasting ([src/lib/forecasting.ts]) *)
(* ================================================================== *)

Inductive ForecastMethod : Type := sma | wma | linear_regression.

(** The nine timeframes of [ProjectionTimeframe]. *)
Inductive ProjectionTimeframe : Type :=
| tf_1_week | tf_2_weeks | tf_4_weeks | tf_8_weeks | tf_12_weeks
| tf_1_month | tf_2_months | tf_3_months | tf_6_months.

Module ForecastSettings.
Record t : Type := mk {
  method : ForecastMethod;
  timeframe : ProjectionTimeframe;
  periods : Z;
  safetyStockPercent : number;
  leadTimeDays : number;
  confidenceLevel : number;
}.
End ForecastSettings.

Module ProjectionPoint.
Record t : Type := mk {
  period : Z;
  periodLabel : PeriodLabel;
  projectedDemand : number;
  confidenceLow : number;
  confidenceHigh : number;
  isForecast : bool;
}.
End ProjectionPoint.

Module ProductProjection.
Record t : Type := mk {
  productId : string;
  productName : string;
  category : option string;
  historicalData : list ProjectionPoint.t;
  projectedData : list ProjectionPoint.t;
  totalProjectedDemand : number;
  avgProjectedDemand : number;
  suggestedReorderQty : number;
  reorderPoint : number;
  safetyStock : number;
  confidenceLevel : number;
  method : ForecastMethod;
  metrics : ProductMetrics.t;
}.
End ProductProjection.

Module LinearForecast.
Record t : Type := mk {
  forecasts : list number;
  standardErrors : list number;
  rSquared : number;
}.
End LinearForecast.

Module Forecasting.
Import Calendar Aggregator Metrics.

(** ** From the aggregator: [timeframeToPeriods], [generateFuturePeriods] *)

(** The capture of [/(\d+)_week/] on each timeframe. *)
Definition weekMatches (timeframe : ProjectionTimeframe) : option Z :=
  match timeframe with
  | tf_1_week => Some 1
  | tf_2_weeks => Some 2
  | tf_4_weeks => Some 4
  | tf_8_weeks => Some 8
  | tf_12_weeks => Some 12
  | _ => None
  end.

(** The capture of [/(\d+)_month/] on each timeframe. *)
Definition monthMatches (timeframe : ProjectionTimeframe) : option Z :=
  match timeframe with
  | tf_1_month => Some 1
  | tf_2_months => Some 2
  | tf_3_months => Some 3
  | tf_6_months => Some 6
  | _ => None
  end.

Definition timeframeToPeriods (timeframe : ProjectionTimeframe)
    (period : AggregationPeriod) : nat :=
  match weekMatches timeframe with
  | Some weeks =>
      Z.to_nat (Qceiling (inject_Z weeks * getPeriodsPerWeek period))
  | None =>
      match monthMatches timeframe with
      | Some months =>
          Z.to_nat (Qceiling (inject_Z months * getPeriodsPerMonth period))
      | None => 4%nat
      end
  end.

Fixpoint generateFuturePeriods_loop (numPeriods : nat) (current : Z)
    (period : AggregationPeriod) : list (Z * PeriodLabel) :=
  match numPeriods with
  | O => []
  | S n =>
      let current := advance current period in
      (current, formatPeriodLabel current period)
        :: generateFuturePeriods_loop n current period
  end.

Definition generateFuturePeriods (lastDate : Z) (numPeriods : nat)
    (period : AggregationPeriod) : list (Z * PeriodLabel) :=
  generateFuturePeriods_loop numPeriods (getPeriodStart lastDate period)
    period.

(** ** t-distribution critical values *)

(** A table of [T_CRITICAL]: the numeric value of each property name, in
    the order of [Object.keys], with its critical value. *)
Definition TTable : Type := list (number * number).

Definition T_CRITICAL : list (Q * TTable) :=
  [ (0.90%Q, [ (Fin 5, Fin 2.015); (Fin 10, Fin 1.812); (Fin 20, Fin 1.725);
             (Fin 30, Fin 1.697); (Fin 50, Fin 1.676); (Fin 100, Fin 1.660);
             (Inf true, Fin 1.645) ]);
    (0.95%Q, [ (Fin 5, Fin 2.571); (Fin 10, Fin 2.228); (Fin 20, Fin 2.086);
             (Fin 30, Fin 2.042); (Fin 50, Fin 2.009); (Fin 100, Fin 1.984);
             (Inf true, Fin 1.960) ]);
    (0.99%Q, [ (Fin 5, Fin 4.032); (Fin 10, Fin 3.169); (Fin 20, Fin 2.845);
             (Fin 30, Fin 2.750); (Fin 50, Fin 2.678); (Fin 100, Fin 2.626);
             (Inf true, Fin 2.576) ]) ].

(** [T_CRITICAL[confidence]]: the table whose property name is the text of
    the number [confidence], if there is one. *)
Definition T_CRITICAL_get (confidence : number) : option TTable :=
  match confidence with
  | Fin c =>
      match find (fun entry => Qeq_bool c (fst entry)) T_CRITICAL with
      | Some entry => Some (snd entry)
      | None => None
      end
  | _ => None
  end.

(** [confidenceTable[key]]; a missing property reads as [undefined], which
    behaves as [NaN] in arithmetic. *)
Definition TTable_get (confidenceTable : TTable) (key : number) : number :=
  match find (fun entry => num_eqb key (fst entry)) confidenceTable with
  | Some entry => snd entry
  | None => NaN
  end.

Fixpoint getTCritical_loop (confidenceTable : TTable) (df : number)
    (dfs : list number) : option number :=
  match dfs with
  | [] => None
  | dfs_i :: rest =>
      if num_leb df dfs_i then Some (TTable_get confidenceTable dfs_i)
      else getTCritical_loop confidenceTable df rest
  end.

Definition getTCritical (confidence df : number) : number :=
  let confidenceTable :=
    match T_CRITICAL_get confidence with
    | Some table => table
    | None =>
        match T_CRITICAL_get (Fin 0.95) with
        | Some table => table
        | None => []
        end
    end in
  let dfs := map fst confidenceTable in
  match getTCritical_loop confidenceTable df dfs with
  | Some t => t
  | None => TTable_get confidenceTable (Inf true)
  end.

Section WithSqrt.
Variable sqrtQ : Q -> Q.

(** ** Forecasting methods *)

(** [values.slice(-n)]. *)
Definition slice_last {A} (values : list A) (n : Z) : list A :=
  let length := Z.of_nat (List.length values) in
  let start := - n in
  let k := if start <? 0 then Z.max (length + start) 0
           else Z.min start length in
  skipn (Z.to_nat k) values.

Definition simpleMovingAverage (values : list number) (periods : Z)
  : number * number :=
  if (List.length values =? 0)%nat then (Fin 0, Fin 0)
  else
    let n := Z.min periods (Z.of_nat (List.length values)) in
    let recentValues := slice_last values n in
    let forecast := mean recentValues in
    let standardError :=
      num_div (stdDeviation sqrtQ recentValues) (Math_sqrt sqrtQ (of_Z n)) in
    (forecast, standardError).

Definition weightedMovingAverage (values : list number) (periods : Z)
  : number * number :=
  if (List.length values =? 0)%nat then (Fin 0, Fin 0)
  else
    let n := Z.min periods (Z.of_nat (List.length values)) in
    let recentValues := slice_last values n in
    let weights :=
      map (fun i => of_Z (Z.of_nat i + 1))
          (seq 0 (List.length recentValues)) in
    let totalWeight := fold_left (fun sum w => num_add sum w) weights (Fin 0) in
    let weightedSum :=
      fold_left (fun weightedSum '(v, w) => num_add weightedSum (num_mul v w))
                (combine recentValues weights) (Fin 0) in
    let forecast := num_div weightedSum totalWeight in
    let weightedVariance :=
      fold_left
        (fun weightedVariance '(v, w) =>
           num_add weightedVariance
                   (num_mul w (Math_pow2 (num_sub v forecast))))
        (combine recentValues weights) (Fin 0) in
    let weightedVariance := num_div weightedVariance totalWeight in
    let standardError :=
      num_div (Math_sqrt sqrtQ weightedVariance) (Math_sqrt sqrtQ (of_Z n)) in
    (forecast, standardError).

Definition linearRegressionForecast (values : list number)
    (periodsAhead : nat) : LinearForecast.t :=
  if (List.length values <? 2)%nat then
    LinearForecast.mk
      (repeat (or_zero (nth_error values 0)) periodsAhead)
      (repeat (Fin 0) periodsAhead)
      (Fin 0)
  else
    let regression := linearRegression values in
    let n := len values in
    let predictions :=
      map (fun i => RegressionResult.predict regression i) (indices values) in
    let residuals :=
      map (fun '(v, p) => num_sub v p) (combine values predictions) in
    let residualSS :=
      fold_left (fun sum r => num_add sum (num_mul r r)) residuals (Fin 0) in
    let standardErrorEstimate :=
      Math_sqrt sqrtQ (num_div residualSS (num_sub n (Fin 2))) in
    let xMean := num_div (num_sub n (Fin 1)) (Fin 2) in
    let xVariance :=
      fold_left (fun sum i => num_add sum (Math_pow2 (num_sub i xMean)))
                (indices values) (Fin 0) in
    let step (i : nat) : number * number :=
      let x := num_add n (of_Z (Z.of_nat i)) in
      let forecast := RegressionResult.predict regression x in
      let distanceFromMean := Math_pow2 (num_sub x xMean) in
      let se :=
        num_mul standardErrorEstimate
          (Math_sqrt sqrtQ
             (num_add (num_add (Fin 1) (num_div (Fin 1) n))
                      (num_div distanceFromMean xVariance))) in
      (Math_max (Fin 0) forecast, se) in
    let points := map step (seq 0 periodsAhead) in
    LinearForecast.mk (map fst points) (map snd points)
      (RegressionResult.rSquared regression).

(** ** Confidence intervals *)

Definition calculateConfidenceInterval (forecast standardError : number)
    (sampleSize : nat) (confidenceLevel : number) : number * number :=
  let df := Math_max (Fin 1)
              (num_sub (of_Z (Z.of_nat sampleSize)) (Fin 1)) in
  let tCritical := getTCritical confidenceLevel df in
  let margin := num_mul tCritical standardError in
  (Math_max (Fin 0) (num_sub forecast margin), num_add forecast margin).

(** ** The projection *)

(** [Math.round(x * 100) / 100]. *)
Definition round2 (x : number) : number :=
  num_div (Math_round (num_mul x (Fin 100))) (Fin 100).

Definition generateProductProjection (aggregation : ProductAggregation.t)
    (metrics : ProductMetrics.t) (settings : ForecastSettings.t)
    (period : AggregationPeriod) : ProductProjection.t :=
  let historicalQuantities :=
    map AggregatedData.totalQuantity (ProductAggregation.data aggregation) in
  let numFuturePeriods :=
    timeframeToPeriods (ForecastSettings.timeframe settings) period in
  let historicalData :=
    map (fun d =>
           ProjectionPoint.mk
             (AggregatedData.period d) (AggregatedData.periodLabel d)
             (AggregatedData.totalQuantity d)
             (AggregatedData.totalQuantity d)
             (AggregatedData.totalQuantity d)
             false)
        (ProductAggregation.data aggregation) in
  let lastDate := ProductAggregation.lastOrderDate aggregation in
  let futurePeriods := generateFuturePeriods lastDate numFuturePeriods period in
  let projectedData :=
    match ForecastSettings.method settings with
    | sma =>
        let '(forecast, standardError) :=
          simpleMovingAverage historicalQuantities
                              (ForecastSettings.periods settings) in
        map (fun p =>
               let '(low, high) :=
                 calculateConfidenceInterval forecast standardError
                   (List.length historicalQuantities)
                   (ForecastSettings.confidenceLevel settings) in
               ProjectionPoint.mk (fst p) (snd p)
                 (round2 forecast) (round2 low) (round2 high) true)
            futurePeriods
    | wma =>
        let '(forecast, standardError) :=
          weightedMovingAverage historicalQuantities
                                (ForecastSettings.periods settings) in
        map (fun p =>
               let '(low, high) :=
                 calculateConfidenceInterval forecast standardError
                   (List.length historicalQuantities)
                   (ForecastSettings.confidenceLevel settings) in
               ProjectionPoint.mk (fst p) (snd p)
                 (round2 forecast) (round2 low) (round2 high) true)
            futurePeriods
    | linear_regression =>
        let lr := linearRegressionForecast historicalQuantities
                                           numFuturePeriods in
        let forecasts := LinearForecast.forecasts lr in
        let standardErrors := LinearForecast.standardErrors lr in
        map (fun '(i, p) =>
               let '(low, high) :=
                 calculateConfidenceInterval
                   (nth i forecasts NaN) (nth i standardErrors NaN)
                   (List.length historicalQuantities)
                   (ForecastSettings.confidenceLevel settings) in
               ProjectionPoint.mk (fst p) (snd p)
                 (round2 (nth i forecasts NaN)) (round2 low) (round2 high)
                 true)
            (combine (seq 0 (List.length futurePeriods)) futurePeriods)
    end in
  let totalProjectedDemand :=
    fold_left (fun sum p => num_add sum (ProjectionPoint.projectedDemand p))
              projectedData (Fin 0) in
  let avgProjectedDemand :=
    if (0 <? List.length projectedData)%nat
    then num_div totalProjectedDemand (len projectedData)
    else Fin 0 in
  let safetyStock :=
    Math_ceil (num_mul avgProjectedDemand
                 (num_div (ForecastSettings.safetyStockPercent settings)
                          (Fin 100))) in
  let dailyDemand := ProductMetrics.avgDailyDemand metrics in
  let leadTimeDemand :=
    num_mul dailyDemand (ForecastSettings.leadTimeDays settings) in
  let reorderPoint := Math_ceil (num_add leadTimeDemand safetyStock) in
  let suggestedReorderQty :=
    Math_ceil (num_add totalProjectedDemand safetyStock) in
  ProductProjection.mk
    (ProductAggregation.productId aggregation)
    (ProductAggregation.productName aggregation)
    (ProductAggregation.category aggregation)
    historicalData
    projectedData
    (round2 totalProjectedDemand)
    (round2 avgProjectedDemand)
    suggestedReorderQty
    reorderPoint
    safetyStock
    (num_mul (ForecastSettings.confidenceLevel settings) (Fin 100))
    (ForecastSettings.method settings)
    metrics.

End WithSqrt.
End Forecasting.

(* ================================================================== *)
(** * Facts about the calendar *)
(* ================================================================== *)

Module CalendarFacts.
Import Calendar.

Ltac zdiv := Z.to_euclidean_division_equations; lia.

Lemma DayFromYear_succ y : DayFromYear (y + 1) = DayFromYear y + DaysInYear y.
Proof.
  unfold DayFromYear, DaysInYear, isLeapYear.
  destruct (y mod 4 =? 0) eqn:E4; destruct (y mod 100 =? 0) eqn:E100;
    destruct (y mod 400 =? 0) eqn:E400; cbn [andb orb negb];
    rewrite ?Z.eqb_eq, ?Z.eqb_neq in *; zdiv.
Qed.

Lemma YearFromDay_spec day :
  DayFromYear (YearFromDay day) <= day < DayFromYear (YearFromDay day + 1).
Proof.
  unfold YearFromDay.
  set (y0 := 1970 + day * 400 / 146097).
  assert (Hlo : DayFromYear (y0 - 1) <= day).
  { unfold DayFromYear, y0. zdiv. }
  assert (Hhi : day < DayFromYear (y0 + 2)).
  { unfold DayFromYear, y0. zdiv. }
  destruct (day <? DayFromYear y0) eqn:E1.
  - apply Z.ltb_lt in E1. replace (y0 - 1 + 1) with y0 by lia. lia.
  - apply Z.ltb_ge in E1.
    destruct (DayFromYear (y0 + 1) <=? day) eqn:E2.
    + apply Z.leb_le in E2. replace (y0 + 1 + 1) with (y0 + 2) by lia. lia.
    + apply Z.leb_gt in E2. lia.
Qed.

Lemma daysBeforeMonth_0 leap : daysBeforeMonth leap 0 = 0.
Proof. reflexivity. Qed.

Lemma daysBeforeMonth_12 y :
  daysBeforeMonth (isLeapYear y) 12 = DaysInYear y.
Proof. unfold DaysInYear. destruct (isLeapYear y); reflexivity. Qed.

Lemma month_cases m :
  0 <= m <= 11 ->
  m = 0 \/ m = 1 \/ m = 2 \/ m = 3 \/ m = 4 \/ m = 5 \/
  m = 6 \/ m = 7 \/ m = 8 \/ m = 9 \/ m = 10 \/ m = 11.
Proof. lia. Qed.

Lemma daysBeforeMonth_step leap m :
  0 <= m <= 11 ->
  28 <= daysBeforeMonth leap (m + 1) - daysBeforeMonth leap m <= 31.
Proof.
  intros H. apply month_cases in H.
  destruct leap; repeat (destruct H as [H | H]; [subst m | ]); try subst m;
    vm_compute; split; discriminate.
Qed.

Lemma MonthFromDay_range day : 0 <= MonthFromDay day <= 11.
Proof.
  unfold MonthFromDay.
  repeat match goal with
         | |- context [if ?c then _ else _] => destruct c
         end; lia.
Qed.

Lemma MonthFromDay_bounds day :
  let leap := isLeapYear (YearFromDay day) in
  daysBeforeMonth leap (MonthFromDay day) <= DayWithinYear day
  < daysBeforeMonth leap (MonthFromDay day + 1).
Proof.
  intros leap.
  assert (Hy := YearFromDay_spec day).
  rewrite DayFromYear_succ in Hy.
  assert (H12 := daysBeforeMonth_12 (YearFromDay day)).
  fold leap in H12.
  assert (Hd : 0 <= DayWithinYear day < daysBeforeMonth leap 12).
  { unfold DayWithinYear. lia. }
  unfold MonthFromDay. fold leap.
  generalize dependent (DayWithinYear day). intros d Hd.
  clear Hy H12.
  repeat match goal with
         | |- context [if ?a <? ?b then _ else _] =>
             destruct (Z.ltb_spec a b)
         end;
    match goal with
    | |- daysBeforeMonth _ ?m <= _ < daysBeforeMonth _ (?m + 1) =>
        let k := eval vm_compute in (m + 1) in change (m + 1) with k
    end;
    try rewrite daysBeforeMonth_0; lia.
Qed.

(** ** Months counted from year 0 *)

Definition monthIndexDay (day : Z) : Z := 12 * YearFromDay day + MonthFromDay day.

Definition monthStartDay (i : Z) : Z :=
  DayFromYear (i / 12) + daysBeforeMonth (isLeapYear (i / 12)) (i mod 12).

Lemma monthStartDay_lt i : monthStartDay i < monthStartDay (i + 1).
Proof.
  unfold monthStartDay.
  assert (Hm : 0 <= i mod 12 <= 11) by zdiv.
  assert (Hs := daysBeforeMonth_step (isLeapYear (i / 12)) (i mod 12) Hm).
  destruct (Z.eq_dec (i mod 12) 11) as [E | E].
  - assert (E1 : (i + 1) / 12 = i / 12 + 1) by zdiv.
    assert (E2 : (i + 1) mod 12 = 0) by zdiv.
    rewrite E1, E2, daysBeforeMonth_0, DayFromYear_succ.
    rewrite E in *. change (11 + 1) with 12 in Hs.
    rewrite daysBeforeMonth_12 in Hs. lia.
  - assert (E1 : (i + 1) / 12 = i / 12) by zdiv.
    assert (E2 : (i + 1) mod 12 = i mod 12 + 1) by zdiv.
    rewrite E1, E2. lia.
Qed.

Lemma monthStartDay_index day :
  monthStartDay (monthIndexDay day) <= day
  < monthStartDay (monthIndexDay day + 1).
Proof.
  assert (Hr := MonthFromDay_range day).
  assert (Hb := MonthFromDay_bounds day). cbv zeta in Hb.
  assert (Hy := YearFromDay_spec day).
  unfold monthStartDay, monthIndexDay, DayWithinYear in *.
  set (y := YearFromDay day) in *. set (m := MonthFromDay day) in *.
  assert (E1 : (12 * y + m) / 12 = y) by zdiv.
  assert (E2 : (12 * y + m) mod 12 = m) by zdiv.
  rewrite E1, E2. split; [lia | ].
  destruct (Z.eq_dec m 11) as [E | E].
  - assert (E3 : (12 * y + m + 1) / 12 = y + 1) by zdiv.
    assert (E4 : (12 * y + m + 1) mod 12 = 0) by zdiv.
    rewrite E3, E4, daysBeforeMonth_0. lia.
  - assert (E3 : (12 * y + m + 1) / 12 = y) by zdiv.
    assert (E4 : (12 * y + m + 1) mod 12 = m + 1) by zdiv.
    rewrite E3, E4. lia.
Qed.

(** A calendar day is recovered from its year, month and date, also when
    the date is shifted. *)
Lemma MakeDay_shift day k :
  MakeDay (YearFromDay day) (MonthFromDay day) (DateFromDay day + k) = day + k.
Proof.
  assert (Hr := MonthFromDay_range day).
  unfold MakeDay, DateFromDay, DayWithinYear.
  assert (E1 : MonthFromDay day / 12 = 0) by zdiv.
  assert (E2 : MonthFromDay day mod 12 = MonthFromDay day) by zdiv.
  rewrite E1, E2, Z.add_0_r. lia.
Qed.

End CalendarFacts.

(* ================================================================== *)
(** * Periods as consecutive integers *)
(* ================================================================== *)

(** Days, Monday-based weeks and calendar months are numbered consecutively;
    [periodStartOf p i] is the first instant of period number [i] and
    [periodIndex p t] the number of the period that contains [t]. *)
Module PeriodFacts.
Import Calendar CalendarFacts Aggregator.

Definition periodIndex (p : AggregationPeriod) (t : Z) : Z :=
  match p with
  | daily => Day t
  | weekly => (Day t + 3) / 7
  | monthly => monthIndexDay (Day t)
  end.

Definition periodStartOf (p : AggregationPeriod) (i : Z) : Z :=
  match p with
  | daily => i * msPerDay
  | weekly => (7 * i - 3) * msPerDay
  | monthly => monthStartDay i * msPerDay
  end.

Lemma periodStartOf_step p i :
  periodStartOf p i + msPerDay <= periodStartOf p (i + 1).
Proof.
  destruct p; unfold periodStartOf, msPerDay; try lia.
  assert (H := monthStartDay_lt i). lia.
Qed.

Lemma periodStartOf_bounds p t :
  periodStartOf p (periodIndex p t) <= t
  < periodStartOf p (periodIndex p t + 1).
Proof.
  destruct p; unfold periodStartOf, periodIndex, Day, msPerDay.
  - zdiv.
  - zdiv.
  - assert (H := monthStartDay_index (t / 86400000)).
    revert H. generalize (monthStartDay (monthIndexDay (t / 86400000))).
    generalize (monthStartDay (monthIndexDay (t / 86400000) + 1)).
    intros a b H. zdiv.
Qed.

Lemma periodStartOf_lt p i j : i < j -> periodStartOf p i < periodStartOf p j.
Proof.
  intros H. replace j with (i + 1 + Z.of_nat (Z.to_nat (j - i - 1))) by lia.
  induction (Z.to_nat (j - i - 1)) as [ | n IH].
  - rewrite Z.add_0_r. assert (Hs := periodStartOf_step p i).
    unfold msPerDay in Hs. lia.
  - replace (i + 1 + Z.of_nat (S n)) with (i + 1 + Z.of_nat n + 1) by lia.
    assert (Hs := periodStartOf_step p (i + 1 + Z.of_nat n)).
    unfold msPerDay in Hs. lia.
Qed.

Lemma periodStartOf_le p i j : i <= j -> periodStartOf p i <= periodStartOf p j.
Proof.
  intros H. destruct (Z.eq_dec i j) as [-> | E]; [lia | ].
  assert (Hlt := periodStartOf_lt p i j). lia.
Qed.

Lemma periodStartOf_span p i j :
  i <= j -> (j - i) * msPerDay <= periodStartOf p j - periodStartOf p i.
Proof.
  intros H. replace j with (i + Z.of_nat (Z.to_nat (j - i))) by lia.
  induction (Z.to_nat (j - i)) as [ | n IH].
  - rewrite Z.add_0_r. lia.
  - replace (i + Z.of_nat (S n)) with (i + Z.of_nat n + 1) by lia.
    assert (Hs := periodStartOf_step p (i + Z.of_nat n)).
    unfold msPerDay in *. lia.
Qed.

Lemma periodIndex_unique p t i :
  periodStartOf p i <= t < periodStartOf p (i + 1) -> periodIndex p t = i.
Proof.
  intros H. assert (Hb := periodStartOf_bounds p t).
  destruct (Z.lt_trichotomy (periodIndex p t) i) as [L | [E | L]]; [ | exact E | ].
  - assert (H1 := periodStartOf_le p (periodIndex p t + 1) i). lia.
  - assert (H1 := periodStartOf_le p (i + 1) (periodIndex p t)). lia.
Qed.

Lemma periodIndex_start p i : periodIndex p (periodStartOf p i) = i.
Proof.
  apply periodIndex_unique.
  assert (Hs := periodStartOf_step p i). unfold msPerDay in Hs. lia.
Qed.

Lemma periodIndex_mono p t1 t2 :
  t1 <= t2 -> periodIndex p t1 <= periodIndex p t2.
Proof.
  intros H. assert (H1 := periodStartOf_bounds p t1).
  assert (H2 := periodStartOf_bounds p t2).
  destruct (Z.le_gt_cases (periodIndex p t1) (periodIndex p t2)) as [L | L];
    [exact L | ].
  assert (H3 := periodStartOf_le p (periodIndex p t2 + 1) (periodIndex p t1)).
  lia.
Qed.

(** The date fields of the first instant of a month. *)
Lemma monthStart_fields i :
  let t := monthStartDay i * msPerDay in
  getFullYear t = i / 12 /\ getMonth t = i mod 12 /\ getDate t = 1
  /\ TimeWithinDay t = 0.
Proof.
  intros t.
  assert (Hi := periodIndex_start monthly i).
  cbn [periodIndex periodStartOf] in Hi. fold t in Hi.
  assert (Hr := MonthFromDay_range (Day t)).
  unfold monthIndexDay in Hi.
  assert (Hd : Day t = monthStartDay i).
  { unfold Day, t, msPerDay. zdiv. }
  assert (Ey : getFullYear t = i / 12) by (unfold getFullYear; zdiv).
  assert (Em : getMonth t = i mod 12) by (unfold getMonth; zdiv).
  repeat split; trivial.
  - unfold getDate, DateFromDay, DayWithinYear.
    unfold getFullYear in Ey. unfold getMonth in Em. rewrite Ey, Em, Hd.
    unfold monthStartDay. lia.
  - unfold TimeWithinDay, t, msPerDay. zdiv.
Qed.

(** A year outside 0..99 is taken as it is by [new Date(y, m, d)]. *)
Lemma newDate_plain y m d :
  100 <= y -> newDate y m d = MakeDay y m d * msPerDay.
Proof.
  intros H. unfold newDate, MakeDate.
  destruct (Z.leb_spec y 99); [lia | ].
  rewrite andb_false_r. lia.
Qed.

Lemma getPeriodStart_index p t :
  100 <= getFullYear t ->
  getPeriodStart t p = periodStartOf p (periodIndex p t).
Proof.
  intros Hy. unfold getPeriodStart.
  destruct p; rewrite (newDate_plain _ _ _ Hy);
    unfold getFullYear, getMonth, getDate, getDay, WeekDay.
  - rewrite <- (Z.add_0_r (DateFromDay (Day t))), MakeDay_shift.
    cbn [periodStartOf periodIndex]. lia.
  - replace (DateFromDay (Day t) - (Day t + 4) mod 7
             + (if (Day t + 4) mod 7 =? 0 then -6 else 1))
      with (DateFromDay (Day t)
            + (- ((Day t + 4) mod 7)
               + (if (Day t + 4) mod 7 =? 0 then -6 else 1))) by lia.
    rewrite MakeDay_shift. cbn [periodStartOf periodIndex].
    f_equal. destruct (Z.eqb_spec ((Day t + 4) mod 7) 0); zdiv.
  - cbn [periodStartOf periodIndex]. f_equal.
    assert (Hr := MonthFromDay_range (Day t)).
    unfold MakeDay, monthStartDay, monthIndexDay.
    assert (E1 : MonthFromDay (Day t) / 12 = 0) by zdiv.
    assert (E2 : MonthFromDay (Day t) mod 12 = MonthFromDay (Day t)) by zdiv.
    assert (E3 : (12 * YearFromDay (Day t) + MonthFromDay (Day t)) / 12
                 = YearFromDay (Day t)) by zdiv.
    assert (E4 : (12 * YearFromDay (Day t) + MonthFromDay (Day t)) mod 12
                 = MonthFromDay (Day t)) by zdiv.
    rewrite E1, E2, E3, E4, Z.add_0_r. lia.
Qed.

Lemma setDate_shift t k : setDate t (getDate t + k) = t + k * msPerDay.
Proof.
  unfold setDate, getFullYear, getMonth, getDate, MakeDate.
  rewrite MakeDay_shift. unfold Day, TimeWithinDay, msPerDay. zdiv.
Qed.

Lemma advance_start p i :
  advance (periodStartOf p i) p = periodStartOf p (i + 1).
Proof.
  destruct p; cbn [advance periodStartOf].
  - rewrite setDate_shift. lia.
  - rewrite setDate_shift. lia.
  - destruct (monthStart_fields i) as (Ey & Em & Ed & Et).
    unfold setMonth, MakeDate. rewrite Ey, Em, Ed, Et, Z.add_0_r.
    f_equal. unfold MakeDay, monthStartDay.
    assert (E1 : i / 12 + (i mod 12 + 1) / 12 = (i + 1) / 12) by zdiv.
    assert (E2 : (i mod 12 + 1) mod 12 = (i + 1) mod 12) by zdiv.
    rewrite E1, E2. lia.
Qed.

(** [n] consecutive integers from [i]. *)
Fixpoint zrange (i : Z) (n : nat) : list Z :=
  match n with
  | O => []
  | S n' => i :: zrange (i + 1) n'
  end.

Lemma zrange_In i n k : In k (zrange i n) <-> i <= k < i + Z.of_nat n.
Proof.
  revert i. induction n as [ | n IH]; intros i; cbn [zrange In].
  - lia.
  - rewrite IH. lia.
Qed.

Lemma zrange_length i n : List.length (zrange i n) = n.
Proof. revert i. induction n; intros; cbn; auto. Qed.

Lemma zrange_nth i n k :
  (k < n)%nat -> nth_error (zrange i n) k = Some (i + Z.of_nat k).
Proof.
  revert i k. induction n as [ | n IH]; intros i k H; [lia | ].
  destruct k as [ | k]; cbn [zrange nth_error].
  - f_equal. lia.
  - rewrite IH by lia. f_equal. lia.
Qed.

(** The loop of [generatePeriods] between two period starts, given enough
    iterations: it stops because [current] has passed [end]. *)
Lemma generatePeriods_loop_range p fuel i j :
  j - i + 1 <= Z.of_nat fuel ->
  generatePeriods_loop fuel (periodStartOf p i) (periodStartOf p j) p
  = map (periodStartOf p) (zrange i (Z.to_nat (j - i + 1))).
Proof.
  revert i. induction fuel as [ | fuel IH]; intros i H.
  - replace (Z.to_nat (j - i + 1)) with O by lia. reflexivity.
  - cbn [generatePeriods_loop].
    destruct (Z.leb_spec (periodStartOf p i) (periodStartOf p j)) as [L | L].
    + assert (Hij : i <= j).
      { destruct (Z.le_gt_cases i j) as [? | G]; [assumption | ].
        assert (H1 := periodStartOf_lt p j i). lia. }
      replace (Z.to_nat (j - i + 1)) with (S (Z.to_nat (j - (i + 1) + 1))) by lia.
      cbn [zrange map]. rewrite advance_start, IH by lia. reflexivity.
    + assert (Hij : j < i).
      { destruct (Z.le_gt_cases i j) as [G | ?]; [ | lia].
        assert (H1 := periodStartOf_le p i j). lia. }
      replace (Z.to_nat (j - i + 1)) with O by lia. reflexivity.
Qed.

Lemma generatePeriods_range p a b :
  100 <= getFullYear a -> 100 <= getFullYear b ->
  generatePeriods a b p
  = map (periodStartOf p)
      (zrange (periodIndex p a)
         (Z.to_nat (periodIndex p b - periodIndex p a + 1))).
Proof.
  intros Ha Hb. unfold generatePeriods.
  rewrite !getPeriodStart_index by assumption.
  apply generatePeriods_loop_range.
  set (i := periodIndex p a). set (j := periodIndex p b).
  destruct (Z.le_gt_cases i j) as [L | G].
  - assert (Hs := periodStartOf_span p i j L).
    assert (j - i <= (periodStartOf p j - periodStartOf p i) / msPerDay).
    { apply Z.div_le_lower_bound; unfold msPerDay in *; lia. }
    lia.
  - lia.
Qed.

(** The bound on the iterations used by [generatePeriods] is never what
    ends the loop: one more iteration would add nothing. *)
Lemma generatePeriods_loop_fuel p a b :
  100 <= getFullYear a -> 100 <= getFullYear b ->
  let current := getPeriodStart a p in
  let end_ := getPeriodStart b p in
  forall extra : nat,
    generatePeriods_loop
      (Z.to_nat ((end_ - current) / msPerDay + 1) + extra) current end_ p
    = generatePeriods a b p.
Proof.
  intros Ha Hb current end_ extra.
  rewrite (generatePeriods_range p a b Ha Hb).
  unfold current, end_. rewrite !getPeriodStart_index by assumption.
  apply generatePeriods_loop_range.
  set (i := periodIndex p a). set (j := periodIndex p b).
  destruct (Z.le_gt_cases i j) as [L | G].
  - assert (Hs := periodStartOf_span p i j L).
    assert (j - i <= (periodStartOf p j - periodStartOf p i) / msPerDay).
    { apply Z.div_le_lower_bound; unfold msPerDay in *; lia. }
    lia.
  - lia.
Qed.

End PeriodFacts.

(* ================================================================== *)
(** * Facts about maps and sums *)
(* ================================================================== *)

Module JsMapFacts.
Section Facts.
Context {K V : Type} (eqb : K -> K -> bool).
Hypothesis eqb_spec : forall a b, eqb a b = true <-> a = b.

Lemma eqb_refl a : eqb a a = true.
Proof. apply eqb_spec. reflexivity. Qed.

Lemma eqb_neq a b : a <> b -> eqb a b = false.
Proof.
  intros H. destruct (eqb a b) eqn:E; [ | reflexivity].
  apply eqb_spec in E. contradiction.
Qed.

Lemma get_set_same k (v : V) m : JsMap.get eqb k (JsMap.set eqb k v m) = Some v.
Proof.
  induction m as [ | [k' v'] m IH]; cbn.
  - rewrite eqb_refl. reflexivity.
  - destruct (eqb k k') eqn:E; cbn; rewrite E; auto.
Qed.

Lemma get_set_other k k' (v : V) m :
  k' <> k -> JsMap.get eqb k' (JsMap.set eqb k v m) = JsMap.get eqb k' m.
Proof.
  intros H. induction m as [ | [k0 v0] m IH]; cbn.
  - rewrite (eqb_neq _ _ H). reflexivity.
  - destruct (eqb k k0) eqn:E; cbn.
    + apply eqb_spec in E. subst k0.
      rewrite (eqb_neq _ _ H). reflexivity.
    + rewrite IH. reflexivity.
Qed.

Lemma get_none_notin k (m : JsMap.t (V := V)) :
  JsMap.get eqb k m = None <-> ~ In k (JsMap.keys m).
Proof.
  induction m as [ | [k0 v0] m IH]; cbn.
  - tauto.
  - destruct (eqb k k0) eqn:E.
    + apply eqb_spec in E. subst. split; [discriminate | tauto].
    + rewrite IH. split; [ | tauto].
      intros H [H1 | H1]; [ | tauto].
      subst. rewrite eqb_refl in E. discriminate.
Qed.

Lemma set_absent k (v : V) m :
  JsMap.get eqb k m = None -> JsMap.set eqb k v m = m ++ [(k, v)].
Proof.
  induction m as [ | [k0 v0] m IH]; cbn; [reflexivity | ].
  destruct (eqb k k0); [discriminate | ].
  intros H. rewrite IH by assumption. reflexivity.
Qed.

(** Updating the value of a key that is present. *)
Lemma set_present k (v v' : V) m :
  JsMap.get eqb k m = Some v ->
  exists l1 l2,
    m = l1 ++ (k, v) :: l2 /\ JsMap.set eqb k v' m = l1 ++ (k, v') :: l2.
Proof.
  induction m as [ | [k0 v0] m IH]; cbn; [discriminate | ].
  destruct (eqb k k0) eqn:E.
  - intros [= ->]. apply eqb_spec in E. subst k0.
    exists [], m. split; reflexivity.
  - intros H. destruct (IH H) as (l1 & l2 & E1 & E2).
    exists ((k0, v0) :: l1), l2. cbn. rewrite <- E1, E2. split; reflexivity.
Qed.

Lemma get_map k (f : K -> V -> V) m :
  JsMap.get eqb k (map (fun '(k0, v0) => (k0, f k0 v0)) m)
  = option_map (f k) (JsMap.get eqb k m).
Proof.
  induction m as [ | [k0 v0] m IH]; cbn; [reflexivity | ].
  destruct (eqb k k0) eqn:E; [ | exact IH].
  apply eqb_spec in E. subst. reflexivity.
Qed.
End Facts.
End JsMapFacts.

Module JsNumberFacts.
Import JsNumber.
Local Open Scope Q_scope.

Lemma norm_eq a b : a == b -> norm a = norm b.
Proof. intros H. unfold norm. f_equal. apply Qred_complete. exact H. Qed.

Lemma Fin_Qred_eq a b : a == b -> Fin (Qred a) = Fin (Qred b).
Proof. exact (norm_eq a b). Qed.

Lemma num_add_comm x y : num_add x y = num_add y x.
Proof.
  destruct x as [a | s | ], y as [b | s' | ]; cbn [num_add]; trivial.
  - apply norm_eq. ring.
  - destruct s, s'; reflexivity.
Qed.

Lemma num_add_assoc x y z :
  num_add (num_add x y) z = num_add x (num_add y z).
Proof.
  destruct x as [a | s | ], y as [b | s' | ], z as [c | s'' | ];
    cbn [num_add norm]; trivial;
    try (destruct s; try destruct s'; try destruct s''; reflexivity);
    try (destruct s'; try destruct s''; reflexivity);
    try (destruct s''; reflexivity).
  apply Fin_Qred_eq. rewrite !Qred_correct. ring.
Qed.

Lemma fold_add_shift l acc q :
  fold_left num_add l (num_add acc q) = num_add (fold_left num_add l acc) q.
Proof.
  revert acc. induction l as [ | x l IH]; intros acc; cbn; [reflexivity | ].
  rewrite <- IH. f_equal.
  rewrite !num_add_assoc. f_equal. apply num_add_comm.
Qed.

(** Adding [q] to one summand adds [q] to the sum. *)
Lemma sum_update l1 x q l2 :
  sum (l1 ++ num_add x q :: l2) = num_add (sum (l1 ++ x :: l2)) q.
Proof.
  unfold sum. rewrite !fold_left_app. cbn.
  rewrite <- num_add_assoc. apply fold_add_shift.
Qed.

End JsNumberFacts.

(* ================================================================== *)
(** * Properties of the aggregator *)
(* ================================================================== *)

Module AggregatorFacts.
Import Calendar CalendarFacts Aggregator PeriodFacts JsNumberFacts.

(** [orders.filter(o => o.productId === productId)]. *)
Definition ordersOf (productId : string) (orders : list OrderRecord.t)
  : list OrderRecord.t :=
  filter (fun o => String.eqb (OrderRecord.productId o) productId) orders.

Definition quantities (orders : list OrderRecord.t) : list number :=
  map OrderRecord.quantity orders.

(** The order dates lie in the years that [new Date(year, month, date)]
    takes as they are, that is, from the year 100 on. *)
Definition datesInRange (orders : list OrderRecord.t) : Prop :=
  Forall (fun o => 100 <= getFullYear (OrderRecord.date o)) orders.

Lemma ordersOf_app pid l1 l2 :
  ordersOf pid (l1 ++ l2) = ordersOf pid l1 ++ ordersOf pid l2.
Proof. apply filter_app. Qed.

Lemma ordersOf_In pid o l :
  In o (ordersOf pid l) <-> In o l /\ OrderRecord.productId o = pid.
Proof. unfold ordersOf. rewrite filter_In, String.eqb_eq. tauto. Qed.

(** ** The first loop *)

(** What the first loop has recorded for a product of which [o :: rest]
    are the orders seen so far. *)
Record grouped (pid : string) (o : OrderRecord.t) (rest : list OrderRecord.t)
    (agg : ProductAggregation.t) : Prop := {
  g_productId : ProductAggregation.productId agg = pid;
  g_productName : ProductAggregation.productName agg = OrderRecord.productName o;
  g_category : ProductAggregation.category agg = OrderRecord.category o;
  g_data : ProductAggregation.data agg = [];
  g_totalOrders :
    ProductAggregation.totalOrders agg = Z.of_nat (List.length (o :: rest));
  g_totalQuantity :
    ProductAggregation.totalQuantity agg = sum (quantities (o :: rest));
  g_first_in :
    In (ProductAggregation.firstOrderDate agg)
       (map OrderRecord.date (o :: rest));
  g_last_in :
    In (ProductAggregation.lastOrderDate agg)
       (map OrderRecord.date (o :: rest));
  g_bounds :
    Forall (fun o' => ProductAggregation.firstOrderDate agg
                      <= OrderRecord.date o'
                      <= ProductAggregation.lastOrderDate agg) (o :: rest);
}.

Definition groupInv (l : list OrderRecord.t)
    (m : ProductMap) : Prop :=
  forall pid,
    match JsMap.get String.eqb pid m with
    | None => ordersOf pid l = []
    | Some agg => exists o rest, ordersOf pid l = o :: rest /\ grouped pid o rest agg
    end.

Lemma sum_snoc l q : sum (l ++ [q]) = num_add (sum l) q.
Proof. unfold sum. rewrite fold_left_app. reflexivity. Qed.

Lemma groupOrder_inv l m order :
  groupInv l m -> groupInv (l ++ [order]) (groupOrder m order).
Proof.
  intros Hinv pid. unfold groupOrder.
  rewrite ordersOf_app. cbn [ordersOf filter].
  destruct (String.eqb_spec (OrderRecord.productId order) pid) as [E | E].
  - subst pid. rewrite (JsMapFacts.get_set_same _ String.eqb_eq).
    specialize (Hinv (OrderRecord.productId order)).
    destruct (JsMap.get String.eqb (OrderRecord.productId order) m) as [agg | ].
    + destruct Hinv as (o & rest & Ho & G). destruct G.
      exists o, (rest ++ [order]). fold (ordersOf (OrderRecord.productId order) l).
      rewrite Ho. split; [reflexivity | ].
      constructor; cbn [ProductAggregation.productId
        ProductAggregation.productName ProductAggregation.category
        ProductAggregation.data ProductAggregation.totalOrders
        ProductAggregation.totalQuantity ProductAggregation.firstOrderDate
        ProductAggregation.lastOrderDate]; trivial.
      * rewrite g_totalOrders0. cbn [List.length]. rewrite length_app.
        cbn [List.length]. lia.
      * rewrite g_totalQuantity0. unfold quantities.
        change (o :: rest ++ [order]) with ((o :: rest) ++ [order]).
        rewrite map_app.
        change (map OrderRecord.quantity [order])
          with [OrderRecord.quantity order].
        rewrite sum_snoc. reflexivity.
      * change (o :: rest ++ [order]) with ((o :: rest) ++ [order]).
        rewrite map_app, in_app_iff. cbn [map In].
        destruct (Z.ltb_spec (OrderRecord.date order)
                    (ProductAggregation.firstOrderDate agg)); auto.
      * change (o :: rest ++ [order]) with ((o :: rest) ++ [order]).
        rewrite map_app, in_app_iff. cbn [map In].
        destruct (Z.gtb_spec (OrderRecord.date order)
                    (ProductAggregation.lastOrderDate agg)); auto.
      * change (o :: rest ++ [order]) with ((o :: rest) ++ [order]).
        apply Forall_app. split.
        -- eapply Forall_impl; [ | exact g_bounds0]. cbn beta. intros o' Ho'.
           destruct (Z.ltb_spec (OrderRecord.date order)
                       (ProductAggregation.firstOrderDate agg));
           destruct (Z.gtb_spec (OrderRecord.date order)
                       (ProductAggregation.lastOrderDate agg)); lia.
        -- constructor; [ | constructor].
           destruct (Z.ltb_spec (OrderRecord.date order)
                       (ProductAggregation.firstOrderDate agg));
           destruct (Z.gtb_spec (OrderRecord.date order)
                       (ProductAggregation.lastOrderDate agg)); lia.
    + exists order, []. fold (ordersOf (OrderRecord.productId order) l).
      rewrite Hinv. split; [reflexivity | ].
      constructor; cbn [ProductAggregation.productId
        ProductAggregation.productName ProductAggregation.category
        ProductAggregation.data ProductAggregation.totalOrders
        ProductAggregation.totalQuantity ProductAggregation.firstOrderDate
        ProductAggregation.lastOrderDate]; trivial.
      * rewrite Z.ltb_irrefl. cbn. auto.
      * rewrite Z.gtb_ltb, Z.ltb_irrefl. cbn. auto.
      * rewrite Z.gtb_ltb, Z.ltb_irrefl. constructor; [lia | constructor].
  - rewrite app_nil_r.
    rewrite (JsMapFacts.get_set_other _ String.eqb_eq) by congruence.
    apply Hinv.
Qed.

Lemma groupOrders_inv_gen orders :
  forall l m, groupInv l m ->
              groupInv (l ++ orders) (fold_left groupOrder orders m).
Proof.
  induction orders as [ | o orders IH]; intros l m H; cbn [fold_left].
  - rewrite app_nil_r. exact H.
  - replace (l ++ o :: orders) with ((l ++ [o]) ++ orders)
      by (rewrite <- app_assoc; reflexivity).
    apply IH, groupOrder_inv, H.
Qed.

Lemma groupOrders_inv orders : groupInv orders (groupOrders orders).
Proof.
  apply (groupOrders_inv_gen orders [] []). intros pid. reflexivity.
Qed.

(** The products of the result and what the first loop recorded for
    them. *)
Lemma aggregateOrderData_get orders period pid agg :
  JsMap.get String.eqb pid (aggregateOrderData orders period) = Some agg ->
  exists agg0 o rest,
    JsMap.get String.eqb pid (groupOrders orders) = Some agg0 /\
    ordersOf pid orders = o :: rest /\
    grouped pid o rest agg0 /\
    ProductAggregation.productId agg = ProductAggregation.productId agg0 /\
    ProductAggregation.productName agg = ProductAggregation.productName agg0 /\
    ProductAggregation.category agg = ProductAggregation.category agg0 /\
    ProductAggregation.totalOrders agg = ProductAggregation.totalOrders agg0 /\
    ProductAggregation.totalQuantity agg
      = ProductAggregation.totalQuantity agg0 /\
    ProductAggregation.firstOrderDate agg
      = ProductAggregation.firstOrderDate agg0 /\
    ProductAggregation.lastOrderDate agg
      = ProductAggregation.lastOrderDate agg0 /\
    ProductAggregation.data agg = aggregateProduct orders period pid agg0.
Proof.
  unfold aggregateOrderData.
  rewrite (JsMapFacts.get_map String.eqb String.eqb_eq pid
             (fun productId productAgg =>
                ProductAggregation.mk
                  (ProductAggregation.productId productAgg)
                  (ProductAggregation.productName productAgg)
                  (ProductAggregation.category productAgg)
                  (aggregateProduct orders period productId productAgg)
                  (ProductAggregation.totalOrders productAgg)
                  (ProductAggregation.totalQuantity productAgg)
                  (ProductAggregation.firstOrderDate productAgg)
                  (ProductAggregation.lastOrderDate productAgg))).
  assert (Hinv := groupOrders_inv orders pid).
  destruct (JsMap.get String.eqb pid (groupOrders orders)) as [agg0 | ];
    cbn [option_map]; [ | discriminate].
  intros [= <-]. destruct Hinv as (o & rest & Ho & G).
  exists agg0, o, rest.
  split; [reflexivity | ]. split; [exact Ho | ]. split; [exact G | ].
  cbn. repeat split; reflexivity.
Qed.

(** ** The second loop *)

Definition zeroData (pid pname : string) (p : AggregationPeriod) (k : Z)
  : AggregatedData.t :=
  AggregatedData.mk k (formatPeriodLabel k p) pid pname (Fin 0) 0 (Fin 0).

Lemma initPeriods_eq pid pname p l :
  forall acc : PeriodMap,
    NoDup (JsMap.keys acc ++ l) ->
    fold_left (initPeriod pid pname p) l acc
    = acc ++ map (fun k => (k, zeroData pid pname p k)) l.
Proof.
  induction l as [ | k l IH]; intros acc H; cbn [fold_left map].
  - rewrite app_nil_r. reflexivity.
  - assert (Hk : ~ In k (JsMap.keys acc)).
    { apply NoDup_remove_2 in H. rewrite in_app_iff in H. tauto. }
    unfold initPeriod at 2.
    rewrite (JsMapFacts.set_absent Z.eqb)
      by (apply (JsMapFacts.get_none_notin Z.eqb Z.eqb_eq); exact Hk).
    rewrite IH.
    + rewrite <- app_assoc. reflexivity.
    + unfold JsMap.keys in *. rewrite map_app, <- app_assoc. exact H.
Qed.

Definition wellKeyed (pd : PeriodMap) : Prop :=
  Forall (fun kd => AggregatedData.period (snd kd) = fst kd) pd.

Definition sumTotals (pd : PeriodMap) : number :=
  sum (map AggregatedData.totalQuantity (JsMap.values pd)).

Lemma addOrder_present p pd o :
  In (getPeriodStart (OrderRecord.date o) p) (JsMap.keys pd) ->
  wellKeyed pd ->
  JsMap.keys (addOrder p pd o) = JsMap.keys pd
  /\ wellKeyed (addOrder p pd o)
  /\ sumTotals (addOrder p pd o)
     = num_add (sumTotals pd) (OrderRecord.quantity o).
Proof.
  intros Hin Hwk. unfold addOrder.
  set (k := getPeriodStart (OrderRecord.date o) p) in *.
  destruct (JsMap.get Z.eqb k pd) as [d | ] eqn:G.
  - match goal with
    | |- context [JsMap.set Z.eqb k ?v pd] => set (d' := v)
    end.
    destruct (JsMapFacts.set_present Z.eqb Z.eqb_eq k d d' pd G)
      as (l1 & l2 & E1 & E2).
    rewrite E2. subst pd. unfold JsMap.keys, sumTotals, JsMap.values, wellKeyed in *.
    rewrite !map_app in *. cbn [map fst snd] in *.
    repeat split.
    + apply Forall_app in Hwk. destruct Hwk as [H1 H2].
      apply Forall_app. split; [exact H1 | ].
      inversion H2; subst. constructor; assumption.
    + apply sum_update.
  - apply (JsMapFacts.get_none_notin Z.eqb Z.eqb_eq) in G. contradiction.
Qed.

Lemma addOrders_sum p os :
  forall pd,
    (forall o, In o os ->
               In (getPeriodStart (OrderRecord.date o) p) (JsMap.keys pd)) ->
    wellKeyed pd ->
    JsMap.keys (fold_left (addOrder p) os pd) = JsMap.keys pd
    /\ wellKeyed (fold_left (addOrder p) os pd)
    /\ sumTotals (fold_left (addOrder p) os pd)
       = fold_left num_add (quantities os) (sumTotals pd).
Proof.
  induction os as [ | o os IH]; intros pd Hin Hwk; cbn [fold_left quantities map].
  - auto.
  - destruct (addOrder_present p pd o (Hin o (or_introl eq_refl)) Hwk)
      as (Hk & Hw & Hs).
    destruct (IH (addOrder p pd o)) as (Hk' & Hw' & Hs').
    + intros o' Ho'. rewrite Hk. apply Hin. right. exact Ho'.
    + exact Hw.
    + rewrite Hk', Hk, Hs', Hs. auto.
Qed.

Lemma insertByPeriod_le x y l :
  AggregatedData.period x <= AggregatedData.period y ->
  insertByPeriod x (y :: l) = x :: y :: l.
Proof.
  intros H. cbn [insertByPeriod].
  destruct (Z.leb_spec (AggregatedData.period x) (AggregatedData.period y));
    [reflexivity | lia].
Qed.

(** Increasing consecutive keys: the list is in the order the sort leaves
    it in. *)
Fixpoint ascending (l : list Z) : Prop :=
  match l with
  | [] => True
  | x :: l' => match l' with
               | [] => True
               | y :: _ => x < y
               end /\ ascending l'
  end.

Lemma sortByPeriod_ascending l :
  ascending (map AggregatedData.period l) -> sortByPeriod l = l.
Proof.
  induction l as [ | x l IH]; [reflexivity | ].
  cbn [map ascending sortByPeriod fold_right]. intros [Hx Hl].
  fold (sortByPeriod l). rewrite (IH Hl).
  destruct l as [ | y l]; [reflexivity | ].
  apply insertByPeriod_le. cbn [map] in Hx. lia.
Qed.

Lemma starts_ascending p n : forall i,
  ascending (map (periodStartOf p) (zrange i n)).
Proof.
  induction n as [ | n IH]; intros i; cbn [zrange map ascending]; [exact I | ].
  split; [ | apply IH].
  destruct n; cbn [zrange map]; [exact I | ].
  apply periodStartOf_lt. lia.
Qed.

Lemma starts_NoDup p n : forall i, NoDup (map (periodStartOf p) (zrange i n)).
Proof.
  induction n as [ | n IH]; intros i; cbn [zrange map]; constructor.
  - rewrite in_map_iff. intros (k & Ek & Hk). apply zrange_In in Hk.
    assert (Hlt := periodStartOf_lt p i k). lia.
  - apply IH.
Qed.

Lemma sum_map_zero {A} (l : list A) : sum (map (fun _ => Fin 0) l) = Fin 0.
Proof. unfold sum. induction l; cbn; auto. Qed.

(** What [aggregateProduct] returns for a product with orders
    [o :: rest]: one bucket for each period from that of the first order
    date to that of the last, in this order, holding all the quantity
    ordered. *)
Lemma aggregateProduct_spec orders p pid agg0 o rest :
  datesInRange orders ->
  ordersOf pid orders = o :: rest ->
  grouped pid o rest agg0 ->
  let i := periodIndex p (ProductAggregation.firstOrderDate agg0) in
  let j := periodIndex p (ProductAggregation.lastOrderDate agg0) in
  let data := aggregateProduct orders p pid agg0 in
  i <= j
  /\ 100 <= getFullYear (ProductAggregation.firstOrderDate agg0)
  /\ 100 <= getFullYear (ProductAggregation.lastOrderDate agg0)
  /\ map AggregatedData.period data
     = map (periodStartOf p) (zrange i (Z.to_nat (j - i + 1)))
  /\ sum (map AggregatedData.totalQuantity data) = sum (quantities (o :: rest)).
Proof.
  intros Hrange Ho G i j data. destruct G.
  assert (Hyear : forall o', In o' (o :: rest) ->
                             100 <= getFullYear (OrderRecord.date o')).
  { intros o' Ho'. rewrite <- Ho in Ho'. apply ordersOf_In in Ho'.
    unfold datesInRange in Hrange. rewrite Forall_forall in Hrange.
    apply Hrange. tauto. }
  assert (Hfy : 100 <= getFullYear (ProductAggregation.firstOrderDate agg0)).
  { apply in_map_iff in g_first_in0. destruct g_first_in0 as (o' & <- & Ho').
    auto. }
  assert (Hly : 100 <= getFullYear (ProductAggregation.lastOrderDate agg0)).
  { apply in_map_iff in g_last_in0. destruct g_last_in0 as (o' & <- & Ho').
    auto. }
  assert (Hij : i <= j).
  { apply periodIndex_mono. rewrite Forall_forall in g_bounds0.
    specialize (g_bounds0 o (or_introl eq_refl)). lia. }
  split; [exact Hij | ]. split; [exact Hfy | ]. split; [exact Hly | ].
  unfold data, aggregateProduct. fold (ordersOf pid orders). rewrite Ho.
  rewrite (generatePeriods_range p _ _ Hfy Hly). fold i j.
  set (n := Z.to_nat (j - i + 1)).
  rewrite initPeriods_eq by (cbn; apply starts_NoDup). cbn [app].
  set (pd0 := map (fun k => (k, zeroData pid (ProductAggregation.productName agg0) p k))
                  (map (periodStartOf p) (zrange i n))).
  assert (Hk0 : JsMap.keys pd0 = map (periodStartOf p) (zrange i n)).
  { unfold JsMap.keys, pd0. rewrite map_map. cbn [fst]. apply map_id. }
  assert (Hw0 : wellKeyed pd0).
  { unfold wellKeyed, pd0. apply Forall_forall. intros kd Hkd.
    apply in_map_iff in Hkd. destruct Hkd as (k & <- & _). reflexivity. }
  assert (Hs0 : sumTotals pd0 = Fin 0).
  { unfold sumTotals, JsMap.values, pd0. rewrite !map_map. cbn.
    apply sum_map_zero. }
  destruct (addOrders_sum p (o :: rest) pd0) as (Hk & Hw & Hs).
  { intros o' Ho'. rewrite Hk0, (getPeriodStart_index p _ (Hyear o' Ho')).
    apply in_map, zrange_In.
    rewrite Forall_forall in g_bounds0. specialize (g_bounds0 o' Ho').
    assert (H1 := periodIndex_mono p _ _ (proj1 g_bounds0)).
    assert (H2 := periodIndex_mono p _ _ (proj2 g_bounds0)).
    fold i in H1. fold j in H2. unfold n. lia. }
  { exact Hw0. }
  set (pd := fold_left (addOrder p) (o :: rest) pd0) in *.
  assert (Hper : map AggregatedData.period (map withAverage (JsMap.values pd))
                 = map (periodStartOf p) (zrange i n)).
  { rewrite <- Hk0, <- Hk. unfold JsMap.values, JsMap.keys.
    rewrite !map_map. apply map_ext_in. intros kd Hkd.
    unfold wellKeyed in Hw. rewrite Forall_forall in Hw. apply (Hw kd Hkd). }
  rewrite sortByPeriod_ascending
    by (rewrite Hper; apply starts_ascending).
  split; [exact Hper | ].
  rewrite map_map.
  rewrite (map_ext _ AggregatedData.totalQuantity) by reflexivity.
  fold (sumTotals pd). rewrite Hs, Hs0. reflexivity.
Qed.

Lemma last_nth_error {A} (l : list A) :
  forall m x d,
    List.length l = S m -> nth_error l m = Some x -> last l d = x.
Proof.
  induction l as [ | y l IH]; intros m x d Hlen Hn; [discriminate | ].
  destruct m as [ | m].
  - destruct l; [ | discriminate]. cbn in *. congruence.
  - cbn in Hlen, Hn. destruct l as [ | z l]; [discriminate | ].
    change (last (y :: z :: l) d) with (last (z :: l) d).
    apply (IH m); [lia | exact Hn].
Qed.

End AggregatorFacts.

(* ================================================================== *)
(** * Aggregation: conservation, density, category *)
(* ================================================================== *)

Import Calendar Aggregator PeriodFacts AggregatorFacts.

(** An order list used to run the aggregator: three orders of SKU-1
    (3 and 17 January and 5 March 2024, the first without a category) and
    one of SKU-2 (10 February 2024). *)
Definition sampleOrders : list OrderRecord.t :=
  [ OrderRecord.mk (19725 * msPerDay + 36000000) "SKU-1" "Widget" (Fin 5)
      None None None;
    OrderRecord.mk (19763 * msPerDay) "SKU-2" "Gadget" (Fin 4)
      (Some "Toys") None None;
    OrderRecord.mk (19739 * msPerDay + 100) "SKU-1" "Widget" (Fin (7 # 2))
      (Some "Tools") None None;
    OrderRecord.mk (19787 * msPerDay) "SKU-1" "Widget" (Fin 2)
      (Some "Hardware") None None ]%string.

Definition lookupProduct (pid : string) (m : ProductMap)
  : ProductAggregation.t :=
  match JsMap.get String.eqb pid m with
  | Some agg => agg
  | None => ProductAggregation.mk pid "" None [] 0 (Fin 0) 0 0
  end.

Lemma sampleOrders_inRange : datesInRange sampleOrders.
Proof. repeat constructor; vm_compute; discriminate. Qed.



(** [b] starts the bucket that follows the bucket starting at [a]: one day
    later, seven days later, or at the first instant of the next calendar
    month. *)
Definition oneWidthLater (period : AggregationPeriod) (a b : Z) : Prop :=
  match period with
  | daily => b = a + msPerDay
  | weekly => b = a + 7 * msPerDay
  | monthly =>
      12 * getFullYear b + getMonth b = 12 * getFullYear a + getMonth a + 1
      /\ getDate b = 1 /\ TimeWithinDay b = 0
  end.

Lemma oneWidthLater_starts p i :
  oneWidthLater p (periodStartOf p i) (periodStartOf p (i + 1)).
Proof.
  destruct p; cbn [oneWidthLater periodStartOf]; try lia.
  destruct (monthStart_fields i) as (Ey & Em & _ & _).
  destruct (monthStart_fields (i + 1)) as (Ey' & Em' & Ed' & Et').
  cbv zeta in *. rewrite Ey, Em, Ey', Em', Ed', Et'.
  repeat split. CalendarFacts.zdiv.
Qed.




(** The category of the first order of the list that has one. *)
Fixpoint firstNonNullCategory (orders : list OrderRecord.t) : option string :=
  match orders with
  | [] => None
  | o :: rest =>
      match OrderRecord.category o with
      | Some c => Some c
      | None => firstNonNullCategory rest
      end
  end.

(** C9 as stated fails: the first order of SKU-1 has no category, a later
    one has, and the series is left without a category. *)
Lemma category_first_non_null_fails :
  ~ (forall orders period pid agg,
        JsMap.get String.eqb pid (aggregateOrderData orders period) = Some agg ->
        ProductAggregation.category agg
        = firstNonNullCategory (ordersOf pid orders)).
Proof.
  intros H.
  assert (Hget : JsMap.get String.eqb "SKU-1"%string
                   (aggregateOrderData sampleOrders weekly)
                 = Some (lookupProduct "SKU-1"
                           (aggregateOrderData sampleOrders weekly)))
    by (vm_compute; reflexivity).
  apply H in Hget. vm_compute in Hget. discriminate Hget.
Qed.

(** C9, amended.  For every order list, the optional category of each
    series is the category field of the first order of that product, be it
    absent; the categories of the later orders are not looked at. *)
Theorem category_of_first_order orders period pid agg :
  JsMap.get String.eqb pid (aggregateOrderData orders period) = Some agg ->
  exists o rest,
    ordersOf pid orders = o :: rest
    /\ ProductAggregation.category agg = OrderRecord.category o.
Proof.
  intros Hget.
  destruct (aggregateOrderData_get _ _ _ _ Hget)
    as (agg0 & o & rest & _ & Ho & G & _ & _ & Ec & _).
  exists o, rest. split; [exact Ho | ].
  rewrite Ec. destruct G. assumption.
Qed.

Lemma category_of_first_order_witness :
  exists o rest,
    ordersOf "SKU-1" sampleOrders = o :: rest
    /\ ProductAggregation.category
         (lookupProduct "SKU-1" (aggregateOrderData sampleOrders weekly))
       = OrderRecord.category o.
Proof.
  apply (category_of_first_order sampleOrders weekly "SKU-1").
  vm_compute. reflexivity.
Defined.

(* ================================================================== *)
(** * A square root on the rationals *)
(* ================================================================== *)

(** The square root cut off after nine decimals of the scaled numerator;
    it is exact on the squares of rationals in lowest terms. *)
Module SqrtModel.
Local Open Scope Q_scope.

Definition scale : Z := 1000000000.

Definition sqrtQ (q : Q) : Q :=
  Z.sqrt (Qnum q * Z.pos (Qden q) * scale * scale)
  # (Qden q * Z.to_pos scale).

Lemma sqrtQ_nonneg x : 0 <= x -> 0 <= sqrtQ x.
Proof.
  intros _. unfold sqrtQ, Qle. cbn [Qnum Qden].
  assert (H := Z.sqrt_nonneg (Qnum x * Z.pos (Qden x) * scale * scale)).
  lia.
Qed.

Lemma sqrtQ_zero x : x == 0 -> sqrtQ x == 0.
Proof.
  unfold Qeq, sqrtQ. cbn [Qnum Qden]. intros H.
  assert (E : Qnum x = 0%Z) by lia. rewrite E. reflexivity.
Qed.

Lemma sqrtQ_pos x : 0 < x -> 0 < sqrtQ x.
Proof.
  unfold Qlt, sqrtQ. cbn [Qnum Qden]. intros H.
  assert (Hn : (0 < Qnum x)%Z) by lia.
  assert (Hs : (0 < Z.sqrt (Qnum x * Z.pos (Qden x) * scale * scale))%Z).
  { apply Z.sqrt_pos. unfold scale. nia. }
  lia.
Qed.

End SqrtModel.

(* ================================================================== *)
(** * Facts about numbers *)
(* ================================================================== *)

Module CompareFacts.
Import JsNumber JsNumberFacts.
Local Open Scope Q_scope.

Lemma Qltb_lt a b : Qltb a b = true <-> a < b.
Proof.
  unfold Qltb. rewrite negb_true_iff.
  destruct (Qle_bool b a) eqn:E.
  - apply Qle_bool_iff in E. split; [discriminate | ].
    intros H. exfalso. apply (Qlt_not_le _ _ H E).
  - split; [intros _ | reflexivity].
    apply Qnot_le_lt. intros H. apply Qle_bool_iff in H. congruence.
Qed.

Lemma Qltb_ge a b : Qltb a b = false <-> b <= a.
Proof.
  unfold Qltb. rewrite negb_false_iff. apply Qle_bool_iff.
Qed.

Lemma Qle_bool_false a b : Qle_bool a b = false <-> b < a.
Proof.
  rewrite <- Qltb_lt. unfold Qltb. rewrite negb_true_iff. reflexivity.
Qed.

Lemma Qeq_bool_false a b : Qeq_bool a b = false <-> ~ a == b.
Proof.
  split.
  - intros E H. apply Qeq_bool_iff in H. congruence.
  - intros H. destruct (Qeq_bool a b) eqn:E; [ | reflexivity].
    apply Qeq_bool_iff in E. contradiction.
Qed.

Lemma Qle_bool_compat a a' b b' :
  a == a' -> b == b' -> Qle_bool a b = Qle_bool a' b'.
Proof. intros Ha Hb. rewrite Ha, Hb. reflexivity. Qed.

Lemma Qltb_compat a a' b b' : a == a' -> b == b' -> Qltb a b = Qltb a' b'.
Proof.
  intros Ha Hb. unfold Qltb. rewrite (Qle_bool_compat b b' a a'); auto.
Qed.

Lemma Qeq_bool_compat a a' b b' :
  a == a' -> b == b' -> Qeq_bool a b = Qeq_bool a' b'.
Proof.
  intros Ha Hb.
  destruct (Qeq_bool a b) eqn:E1, (Qeq_bool a' b') eqn:E2; trivial.
  - apply Qeq_bool_iff in E1. apply Qeq_bool_false in E2.
    exfalso. apply E2. rewrite <- Ha, <- Hb. exact E1.
  - apply Qeq_bool_iff in E2. apply Qeq_bool_false in E1.
    exfalso. apply E1. rewrite Ha, Hb. exact E2.
Qed.

Lemma Qred_zero a : a == 0 -> Qred a = 0.
Proof. intros H. apply (Qred_complete a 0 H). Qed.

Lemma norm_zero a : a == 0 -> norm a = Fin 0.
Proof. intros H. unfold norm. rewrite (Qred_zero a H). reflexivity. Qed.

End CompareFacts.

(* ================================================================== *)
(** * Trend classification *)
(* ================================================================== *)

Import JsNumberFacts CompareFacts Metrics Forecasting.

Local Open Scope Q_scope.

Lemma determineTrend_finite (slope rSquared avgValue : Q) :
  ~ avgValue == 0 ->
  determineTrend (Fin slope) (Fin rSquared) (Fin avgValue)
  = if Qltb 0.1 rSquared && Qltb 0.02 (Qabs (slope / avgValue))
    then (if Qltb 0 slope then increasing else decreasing)
    else stable.
Proof.
  intros Havg. unfold determineTrend, num_neqb, num_gtb.
  cbn [num_eqb num_ltb].
  apply Qeq_bool_false in Havg. rewrite Havg. cbn [negb num_div].
  rewrite Havg. cbn [norm Math_abs num_ltb].
  rewrite (Qltb_compat 0.02 0.02 (Qred (Qabs (Qred (slope / avgValue))))
             (Qabs (slope / avgValue)))
    by (try reflexivity; rewrite !Qred_correct; reflexivity).
  destruct (Qltb 0.1 rSquared), (Qltb 0.02 (Qabs (slope / avgValue)));
    reflexivity.
Qed.

(** A series whose mean is 0 is classified stable. *)
Lemma determineTrend_zero_mean slope rSquared :
  determineTrend slope rSquared (Fin 0) = stable.
Proof.
  unfold determineTrend. cbn. rewrite orb_true_r. reflexivity.
Qed.

(* ================================================================== *)
(** * Critical values and confidence intervals *)
(* ================================================================== *)

(** The degrees-of-freedom breakpoints and the confidence levels of the
    table. *)
Definition breakpoints : list Z := [5; 10; 20; 30; 50; 100]%Z.
Definition levels : list Q := [0.90; 0.95; 0.99].

Definition isLevel (level : Q) : Prop :=
  level == 0.90 \/ level == 0.95 \/ level == 0.99.

(** The row of the first breakpoint that is at least [df], the row of
    infinity when there is none. *)
Definition rowFor (df : Z) : number :=
  match find (fun b => (df <=? b)%Z) breakpoints with
  | Some b => of_Z b
  | None => Inf true
  end.

Definition tableFor (level : Q) : TTable :=
  match T_CRITICAL_get (Fin level) with
  | Some table => table
  | None => []
  end.

Lemma T_CRITICAL_get_compat a b :
  a == b -> T_CRITICAL_get (Fin a) = T_CRITICAL_get (Fin b).
Proof.
  intros H. unfold T_CRITICAL_get, T_CRITICAL. cbn [find fst].
  rewrite !(Qeq_bool_compat a b _ _ H (Qeq_refl _)). reflexivity.
Qed.

Lemma Qle_bool_inject d z b :
  d == inject_Z z -> Qle_bool d (inject_Z b) = (z <=? b)%Z.
Proof.
  intros H. rewrite (Qle_bool_compat d (inject_Z z) _ _ H (Qeq_refl _)).
  destruct (Z.leb_spec z b) as [L | L].
  - apply Qle_bool_iff. rewrite <- Zle_Qle. exact L.
  - apply Qle_bool_false. rewrite <- Zlt_Qlt. exact L.
Qed.

(** The loop of [getTCritical] on a table with the keys of [T_CRITICAL]. *)
Lemma getTCritical_loop_row (v1 v2 v3 v4 v5 v6 v7 : number) d z :
  d == inject_Z (Z.max 1 z) ->
  let table := [ (Fin 5, v1); (Fin 10, v2); (Fin 20, v3); (Fin 30, v4);
                 (Fin 50, v5); (Fin 100, v6); (Inf true, v7) ] in
  getTCritical_loop table (Fin d) (map fst table)
  = Some (TTable_get table (rowFor z)).
Proof.
  intros Hd table. unfold table, rowFor, breakpoints.
  cbn [map fst getTCritical_loop num_leb find].
  change 5 with (inject_Z 5). change 10 with (inject_Z 10).
  change 20 with (inject_Z 20). change 30 with (inject_Z 30).
  change 50 with (inject_Z 50). change 100 with (inject_Z 100).
  rewrite !(Qle_bool_inject d _ _ Hd).
  repeat match goal with
         | |- context [(Z.max 1 z <=? ?b)%Z] =>
             destruct (Z.leb_spec (Z.max 1 z) b);
             destruct (Z.leb_spec z b); try lia
         end; reflexivity.
Qed.

Lemma df_value (sampleSize : nat) :
  exists d,
    Math_max (Fin 1) (num_sub (of_Z (Z.of_nat sampleSize)) (Fin 1)) = Fin d
    /\ d == inject_Z (Z.max 1 (Z.of_nat sampleSize - 1)).
Proof.
  unfold of_Z. cbn [num_sub norm Math_max num_ltb].
  set (q := Qred (inject_Z (Z.of_nat sampleSize) - 1)).
  assert (Hq : q == inject_Z (Z.of_nat sampleSize - 1)).
  { unfold q. rewrite Qred_correct. unfold Zminus.
    rewrite inject_Z_plus, inject_Z_opp. reflexivity. }
  destruct (Qltb 1 q) eqn:E.
  - exists q. split; [reflexivity | ]. rewrite Hq.
    apply Qltb_lt in E. rewrite Hq in E.
    change 1 with (inject_Z 1) in E. rewrite <- Zlt_Qlt in E.
    rewrite Z.max_r by lia. reflexivity.
  - exists 1. split; [reflexivity | ].
    apply Qltb_ge in E. rewrite Hq in E.
    change 1 with (inject_Z 1) in E. rewrite <- Zle_Qle in E.
    rewrite Z.max_l by lia. reflexivity.
Qed.

Lemma getTCritical_level level d z :
  isLevel level ->
  d == inject_Z (Z.max 1 z) ->
  getTCritical (Fin level) (Fin d) = TTable_get (tableFor level) (rowFor z).
Proof.
  intros Hl Hd. unfold getTCritical, tableFor.
  destruct Hl as [H | [H | H]]; rewrite (T_CRITICAL_get_compat _ _ H);
    match goal with
    | |- context [T_CRITICAL_get (Fin ?l)] =>
        let t := eval cbv in (T_CRITICAL_get (Fin l)) in
        change (T_CRITICAL_get (Fin l)) with t
    end;
    cbv beta iota; rewrite (getTCritical_loop_row _ _ _ _ _ _ _ d z Hd);
    reflexivity.
Qed.



(** ** The fallback to the 0.95 table *)

Definition withConfidence (settings : ForecastSettings.t)
    (confidenceLevel : number) : ForecastSettings.t :=
  ForecastSettings.mk
    (ForecastSettings.method settings)
    (ForecastSettings.timeframe settings)
    (ForecastSettings.periods settings)
    (ForecastSettings.safetyStockPercent settings)
    (ForecastSettings.leadTimeDays settings)
    confidenceLevel.

Definition notALevel (confidence : number) : Prop :=
  forall level, In level levels -> num_eqb confidence (Fin level) = false.

Lemma getTCritical_fallback confidence df :
  notALevel confidence ->
  getTCritical confidence df = getTCritical (Fin 0.95) df.
Proof.
  intros H. unfold getTCritical.
  assert (E : T_CRITICAL_get confidence = None).
  { destruct confidence as [c | s | ]; try reflexivity.
    unfold T_CRITICAL_get, T_CRITICAL. cbn [find fst].
    assert (H1 := H 0.90 (or_introl eq_refl)).
    assert (H2 := H 0.95 (or_intror (or_introl eq_refl))).
    assert (H3 := H 0.99 (or_intror (or_intror (or_introl eq_refl)))).
    cbn [num_eqb] in H1, H2, H3. rewrite H1, H2, H3. reflexivity. }
  rewrite E. reflexivity.
Qed.

Lemma calculateConfidenceInterval_fallback forecast se n confidence :
  notALevel confidence ->
  calculateConfidenceInterval forecast se n confidence
  = calculateConfidenceInterval forecast se n (Fin 0.95).
Proof.
  intros H. unfold calculateConfidenceInterval.
  rewrite (getTCritical_fallback _ _ H). reflexivity.
Qed.


(* ================================================================== *)
(** * Finite numbers and their values *)
(* ================================================================== *)

Module FiniteFacts.
Import JsNumber JsNumberFacts CompareFacts.
Local Open Scope Q_scope.

(** [V x q]: the number [x] is finite and its value is [q]. *)
Definition V (x : number) (q : Q) : Prop := exists a, x = Fin a /\ a == q.

Lemma V_Fin a : V (Fin a) a.
Proof. exists a. split; reflexivity. Qed.

Lemma V_norm a : V (norm a) a.
Proof. exists (Qred a). split; [reflexivity | apply Qred_correct]. Qed.

Lemma V_compat x a b : V x a -> a == b -> V x b.
Proof. intros (c & -> & Hc) H. exists c. split; [reflexivity | ]. rewrite Hc. exact H. Qed.

Lemma V_of_Z z : V (of_Z z) (inject_Z z).
Proof. apply V_Fin. Qed.

Lemma V_finite x a : V x a -> is_finite x = true.
Proof. intros (c & -> & _). reflexivity. Qed.

Lemma num_add_V x y a b : V x a -> V y b -> num_add x y = norm (a + b).
Proof.
  intros (a' & -> & Ha) (b' & -> & Hb). cbn [num_add].
  apply norm_eq. rewrite Ha, Hb. reflexivity.
Qed.

Lemma num_sub_V x y a b : V x a -> V y b -> num_sub x y = norm (a - b).
Proof.
  intros (a' & -> & Ha) (b' & -> & Hb). cbn [num_sub].
  apply norm_eq. rewrite Ha, Hb. reflexivity.
Qed.

Lemma num_mul_V x y a b : V x a -> V y b -> num_mul x y = norm (a * b).
Proof.
  intros (a' & -> & Ha) (b' & -> & Hb). cbn [num_mul].
  apply norm_eq. rewrite Ha, Hb. reflexivity.
Qed.

Lemma num_div_V x y a b :
  V x a -> V y b -> ~ b == 0 -> num_div x y = norm (a / b).
Proof.
  intros (a' & -> & Ha) (b' & -> & Hb) Hnz. cbn [num_div].
  assert (E : Qeq_bool b' 0 = false).
  { apply Qeq_bool_false. rewrite Hb. exact Hnz. }
  rewrite E. apply norm_eq. rewrite Ha, Hb. reflexivity.
Qed.

Lemma V_add x y a b : V x a -> V y b -> V (num_add x y) (a + b).
Proof. intros Hx Hy. rewrite (num_add_V _ _ _ _ Hx Hy). apply V_norm. Qed.

Lemma V_sub x y a b : V x a -> V y b -> V (num_sub x y) (a - b).
Proof. intros Hx Hy. rewrite (num_sub_V _ _ _ _ Hx Hy). apply V_norm. Qed.

Lemma V_mul x y a b : V x a -> V y b -> V (num_mul x y) (a * b).
Proof. intros Hx Hy. rewrite (num_mul_V _ _ _ _ Hx Hy). apply V_norm. Qed.

Lemma V_div x y a b :
  V x a -> V y b -> ~ b == 0 -> V (num_div x y) (a / b).
Proof. intros Hx Hy H. rewrite (num_div_V _ _ _ _ Hx Hy H). apply V_norm. Qed.

Lemma V_pow2 x a : V x a -> V (Math_pow2 x) (a * a).
Proof. intros H. apply V_mul; exact H. Qed.

(** The sum of a list of rationals. *)
Definition Qsum (l : list Q) : Q := fold_right Qplus 0 l.

Lemma Qsum_nil : Qsum [] = 0.
Proof. reflexivity. Qed.

Lemma Qsum_cons x l : Qsum (x :: l) = x + Qsum l.
Proof. reflexivity. Qed.

(** The accumulating loops of the code, on finite summands. *)
Lemma V_fold {A} (F : A -> number) (G : A -> Q) (l : list A) :
  (forall x, In x l -> V (F x) (G x)) ->
  forall acc a,
    V acc a ->
    V (fold_left (fun s x => num_add s (F x)) l acc) (a + Qsum (map G l)).
Proof.
  induction l as [ | x l IH]; intros HF acc a Hacc; cbn [fold_left map].
  - rewrite Qsum_nil. apply (V_compat _ _ _ Hacc). ring.
  - rewrite Qsum_cons. eapply V_compat.
    + apply IH.
      * intros y Hy. apply HF. right. exact Hy.
      * apply V_add; [exact Hacc | apply HF; left; reflexivity].
    + ring.
Qed.

Lemma fold_left_ext {A B} (f g : A -> B -> A) l :
  (forall a x, f a x = g a x) ->
  forall a, fold_left f l a = fold_left g l a.
Proof.
  intros H. induction l as [ | x l IH]; intros a; cbn [fold_left].
  - reflexivity.
  - rewrite H. apply IH.
Qed.

Lemma Qsquare_nonneg a : 0 <= a * a.
Proof.
  destruct (Qlt_le_dec a 0) as [L | L].
  - setoid_replace (a * a) with ((- a) * (- a)) by ring.
    apply Qmult_le_0_compat; lra.
  - apply Qmult_le_0_compat; assumption.
Qed.

Lemma Qsum_nonneg (l : list Q) : (forall x, In x l -> 0 <= x) -> 0 <= Qsum l.
Proof.
  induction l as [ | y l IH]; intros H.
  - rewrite Qsum_nil. apply Qle_refl.
  - rewrite Qsum_cons.
    assert (H1 := H y (or_introl eq_refl)).
    assert (H2 : 0 <= Qsum l) by (apply IH; intros x Hx; apply H; right; exact Hx).
    lra.
Qed.

(** A sum of non-negative terms that is 0 has all its terms 0. *)
Lemma Qsum_zero_terms (l : list Q) :
  (forall x, In x l -> 0 <= x) -> Qsum l == 0 ->
  forall x, In x l -> x == 0.
Proof.
  induction l as [ | y l IH]; intros Hnn Hs x Hx; [destruct Hx | ].
  rewrite Qsum_cons in Hs.
  assert (H1 := Hnn y (or_introl eq_refl)).
  assert (H2 : 0 <= Qsum l).
  { apply Qsum_nonneg. intros z Hz. apply Hnn. right. exact Hz. }
  destruct Hx as [<- | Hx].
  - lra.
  - apply IH; trivial.
    + intros z Hz. apply Hnn. right. exact Hz.
    + lra.
Qed.

End FiniteFacts.

(* ================================================================== *)
(** * Sample projections *)
(* ================================================================== *)

Import FiniteFacts.

(** Monthly history of SKU-1 in [sampleOrders]: 8.5, 0, 2. *)
Definition sampleAggregation : ProductAggregation.t :=
  lookupProduct "SKU-1" (aggregateOrderData sampleOrders monthly).

Definition sampleMetrics : ProductMetrics.t :=
  calculateProductMetrics SqrtModel.sqrtQ sampleAggregation monthly.

Definition sampleSettings (method : ForecastMethod) (confidenceLevel : Q)
  : ForecastSettings.t :=
  ForecastSettings.mk method tf_2_months 3 (Fin 20) (Fin 7)
    (Fin confidenceLevel).

Lemma notALevel_080 : notALevel (Fin 0.80).
Proof.
  intros level [<- | [<- | [<- | []]]]; reflexivity.
Qed.


(* ================================================================== *)
(** * Rounding *)
(* ================================================================== *)

(** The forecast of each future period before any rounding. *)
Definition pointForecasts (sqrtQ : Q -> Q) (values : list number)
    (settings : ForecastSettings.t) (numFuturePeriods : nat) : list number :=
  match ForecastSettings.method settings with
  | sma =>
      repeat (fst (simpleMovingAverage sqrtQ values
                     (ForecastSettings.periods settings)))
             numFuturePeriods
  | wma =>
      repeat (fst (weightedMovingAverage sqrtQ values
                     (ForecastSettings.periods settings)))
             numFuturePeriods
  | linear_regression =>
      LinearForecast.forecasts
        (linearRegressionForecast sqrtQ values numFuturePeriods)
  end.

(** The total that rounding at the boundary only would report: the sum of
    the unrounded forecasts, rounded once. *)
Definition boundaryRoundedTotal (sqrtQ : Q -> Q)
    (aggregation : ProductAggregation.t) (settings : ForecastSettings.t)
    (period : AggregationPeriod) : number :=
  round2
    (sum (pointForecasts sqrtQ
            (map AggregatedData.totalQuantity
                 (ProductAggregation.data aggregation))
            settings
            (timeframeToPeriods (ForecastSettings.timeframe settings)
                                period))).

(** Two orders of one product, two weeks apart: the weekly history is
    1, 0, 0. *)
Definition roundingOrders : list OrderRecord.t :=
  [ OrderRecord.mk (19723 * msPerDay)%Z "SKU-3" "Bolt" (Fin 1)
      None None None;
    OrderRecord.mk (19737 * msPerDay)%Z "SKU-3" "Bolt" (Fin 0)
      None None None ]%string.

Definition roundingAggregation : ProductAggregation.t :=
  lookupProduct "SKU-3" (aggregateOrderData roundingOrders weekly).

Definition roundingSettings : ForecastSettings.t :=
  ForecastSettings.mk sma tf_4_weeks 3 (Fin 20) (Fin 7) (Fin 0.95).

(** C7 as stated fails.  The simple moving average of the history
    1, 0, 0 is 1/3; each of the four forecast points is rounded to 0.33
    when it is built, and the total is the sum 1.32 of the rounded points,
    whereas the four unrounded forecasts add up to 4/3, which rounds to
    1.33. *)
Lemma boundary_only_rounding_fails :
  ~ (forall sqrtQ aggregation metrics settings period,
        ProductProjection.totalProjectedDemand
          (generateProductProjection sqrtQ aggregation metrics settings
             period)
        = boundaryRoundedTotal sqrtQ aggregation settings period).
Proof.
  intros H.
  specialize (H SqrtModel.sqrtQ roundingAggregation
                (calculateProductMetrics SqrtModel.sqrtQ roundingAggregation
                   weekly)
                roundingSettings weekly).
  vm_compute in H. discriminate H.
Qed.

Lemma fold_left_map {A B C} (f : A -> B -> A) (g : C -> B) l :
  forall a, fold_left (fun s x => f s (g x)) l a = fold_left f (map g l) a.
Proof.
  induction l as [ | x l IH]; intros a; cbn [fold_left map]; auto.
Qed.

Lemma generateFuturePeriods_length lastDate n period :
  List.length (generateFuturePeriods lastDate n period) = n.
Proof.
  unfold generateFuturePeriods.
  generalize (getPeriodStart lastDate period) as current.
  induction n as [ | n IH]; intros current; cbn [generateFuturePeriods_loop List.length].
  - reflexivity.
  - rewrite IH. reflexivity.
Qed.

Lemma linearRegressionForecast_lengths sqrtQ values n :
  List.length (LinearForecast.forecasts
                 (linearRegressionForecast sqrtQ values n)) = n
  /\ List.length (LinearForecast.standardErrors
                    (linearRegressionForecast sqrtQ values n)) = n.
Proof.
  unfold linearRegressionForecast.
  destruct (List.length values <? 2)%nat;
    cbn [LinearForecast.forecasts LinearForecast.standardErrors];
    rewrite ?repeat_length, ?length_map, ?length_seq; auto.
Qed.

(** Reading a list by the indices of a list of the same length. *)
Lemma map_indexed {A B} (g : nat -> A -> B) (l : list A) :
  forall k,
    map (fun '(i, p) => g i p) (combine (seq k (List.length l)) l)
    = map (fun '(i, p) => g (k + i)%nat p)
          (combine (seq 0 (List.length l)) l).
Proof.
  revert g.
  induction l as [ | x l IH]; intros g k; cbn [List.length seq combine map].
  - reflexivity.
  - rewrite Nat.add_0_r. f_equal.
    rewrite (IH g (S k)), (IH (fun i p => g (k + i)%nat p) 1%nat).
    apply map_ext. intros [i p]. f_equal. lia.
Qed.

Lemma map_nth_indexed {A B} (g : number -> A -> B) (fs : list number) :
  forall l : list A,
    List.length fs = List.length l ->
    map (fun '(i, p) => g (nth i fs NaN) p)
        (combine (seq 0 (List.length l)) l)
    = map (fun '(f, p) => g f p) (combine fs l).
Proof.
  induction fs as [ | f fs IH]; intros [ | x l] Hlen; try discriminate.
  - reflexivity.
  - cbn [List.length seq combine map].
    rewrite (map_indexed (fun i p => g (nth i (f :: fs) NaN) p) l 1).
    cbn [Nat.add nth]. f_equal. apply IH. cbn in Hlen. lia.
Qed.

Lemma map_const_repeat {A B} (c : B) (l : list A) :
  map (fun _ => c) l = repeat c (List.length l).
Proof.
  induction l as [ | x l IH]; cbn [map List.length repeat]; congruence.
Qed.

(** The demands of the forecast points are the rounded forecasts. *)
Lemma projectedData_demands sqrtQ aggregation metrics settings period :
  map ProjectionPoint.projectedDemand
      (ProductProjection.projectedData
         (generateProductProjection sqrtQ aggregation metrics settings
            period))
  = map round2
      (pointForecasts sqrtQ
         (map AggregatedData.totalQuantity
              (ProductAggregation.data aggregation))
         settings
         (timeframeToPeriods (ForecastSettings.timeframe settings) period)).
Proof.
  unfold generateProductProjection, pointForecasts.
  cbn [ProductProjection.projectedData].
  set (values := map AggregatedData.totalQuantity
                     (ProductAggregation.data aggregation)).
  set (n := timeframeToPeriods (ForecastSettings.timeframe settings) period).
  set (futurePeriods :=
         generateFuturePeriods (ProductAggregation.lastOrderDate aggregation)
           n period).
  assert (Hlen : List.length futurePeriods = n)
    by apply generateFuturePeriods_length.
  destruct (ForecastSettings.method settings).
  - destruct (simpleMovingAverage sqrtQ values _) as [forecast se].
    cbn [fst]. rewrite map_map.
    rewrite (map_ext _ (fun _ => round2 forecast)).
    + rewrite map_const_repeat, map_repeat, Hlen. reflexivity.
    + intros p. destruct (calculateConfidenceInterval _ _ _ _). reflexivity.
  - destruct (weightedMovingAverage sqrtQ values _) as [forecast se].
    cbn [fst]. rewrite map_map.
    rewrite (map_ext _ (fun _ => round2 forecast)).
    + rewrite map_const_repeat, map_repeat, Hlen. reflexivity.
    + intros p. destruct (calculateConfidenceInterval _ _ _ _). reflexivity.
  - destruct (linearRegressionForecast_lengths sqrtQ values n) as [Hf _].
    set (lr := linearRegressionForecast sqrtQ values n) in *.
    rewrite map_map.
    assert (Hl : List.length (LinearForecast.forecasts lr)
                 = List.length futurePeriods) by congruence.
    transitivity
      (map (fun '(f, p) => (fun f (_ : Z * PeriodLabel) => round2 f) f p)
           (combine (LinearForecast.forecasts lr) futurePeriods)).
    + etransitivity;
        [ | apply (map_nth_indexed (fun f (_ : Z * PeriodLabel) => round2 f)
                     (LinearForecast.forecasts lr) futurePeriods Hl)].
      apply map_ext. intros [i p].
      destruct (calculateConfidenceInterval _ _ _ _). reflexivity.
    + revert Hl. generalize (LinearForecast.forecasts lr) as fs.
      generalize futurePeriods as l. clear.
      induction l as [ | x l IH]; intros [ | f fs] H; try discriminate.
      * reflexivity.
      * cbn [combine map]. f_equal. apply IH. cbn in H. lia.
Qed.

Lemma projectedData_bounds_rounded sqrtQ aggregation metrics settings period :
  Forall (fun p => exists low high,
              ProjectionPoint.confidenceLow p = round2 low
              /\ ProjectionPoint.confidenceHigh p = round2 high)
    (ProductProjection.projectedData
       (generateProductProjection sqrtQ aggregation metrics settings period)).
Proof.
  unfold generateProductProjection. cbn [ProductProjection.projectedData].
  apply Forall_forall. intros pt Hpt.
  destruct (ForecastSettings.method settings).
  - destruct (simpleMovingAverage sqrtQ _ _) as [forecast se].
    apply in_map_iff in Hpt. destruct Hpt as (p & <- & _).
    destruct (calculateConfidenceInterval _ _ _ _) as [low high].
    exists low, high. split; reflexivity.
  - destruct (weightedMovingAverage sqrtQ _ _) as [forecast se].
    apply in_map_iff in Hpt. destruct Hpt as (p & <- & _).
    destruct (calculateConfidenceInterval _ _ _ _) as [low high].
    exists low, high. split; reflexivity.
  - apply in_map_iff in Hpt. destruct Hpt as ([i p] & <- & _).
    destruct (calculateConfidenceInterval _ _ _ _) as [low high].
    exists low, high. split; reflexivity.
Qed.

(** C7, amended.  In every projection the demand and the confidence bounds
    of each forecast point are rounded to 2 decimals when the point is
    built.  The total and the average projected demand are computed from
    these rounded demands (their sum, and the sum over their number), and
    are rounded to 2 decimals themselves at the end; the safety stock,
    the reorder point and the suggested reorder quantity are ceilings
    computed from that sum and that average before their final
    rounding. *)
Theorem rounding_of_projection sqrtQ aggregation metrics settings period :
  let projection :=
    generateProductProjection sqrtQ aggregation metrics settings period in
  let points := ProductProjection.projectedData projection in
  let total := sum (map ProjectionPoint.projectedDemand points) in
  let average :=
    if (0 <? List.length points)%nat then num_div total (len points)
    else Fin 0 in
  map ProjectionPoint.projectedDemand points
  = map round2
      (pointForecasts sqrtQ
         (map AggregatedData.totalQuantity
              (ProductAggregation.data aggregation))
         settings
         (timeframeToPeriods (ForecastSettings.timeframe settings) period))
  /\ Forall (fun p => exists low high,
                 ProjectionPoint.confidenceLow p = round2 low
                 /\ ProjectionPoint.confidenceHigh p = round2 high) points
  /\ ProductProjection.totalProjectedDemand projection = round2 total
  /\ ProductProjection.avgProjectedDemand projection = round2 average
  /\ ProductProjection.safetyStock projection
     = Math_ceil (num_mul average
                    (num_div (ForecastSettings.safetyStockPercent settings)
                             (Fin 100)))
  /\ ProductProjection.reorderPoint projection
     = Math_ceil (num_add
                    (num_mul (ProductMetrics.avgDailyDemand metrics)
                             (ForecastSettings.leadTimeDays settings))
                    (ProductProjection.safetyStock projection))
  /\ ProductProjection.suggestedReorderQty projection
     = Math_ceil (num_add total (ProductProjection.safetyStock projection)).
Proof.
  intros projection points total average.
  split; [apply projectedData_demands | ].
  split; [apply projectedData_bounds_rounded | ].
  unfold average, total, points, projection, sum.
  rewrite <- (fold_left_map num_add ProjectionPoint.projectedDemand).
  unfold generateProductProjection.
  cbn [ProductProjection.projectedData ProductProjection.totalProjectedDemand
         ProductProjection.avgProjectedDemand ProductProjection.safetyStock
         ProductProjection.reorderPoint ProductProjection.suggestedReorderQty].
  repeat split; reflexivity.
Qed.

(* ================================================================== *)
(** * Monotonicity of the interval in the confidence level *)
(* ================================================================== *)

(** [x] is at most [y], or both are [NaN]. *)
Definition notAbove (x y : number) : Prop :=
  num_leb x y = true \/ (x = NaN /\ y = NaN).

(** [x] is not negative: a non-negative rational, plus infinity, or
    [NaN]. *)
Definition notNeg (x : number) : Prop := num_ltb x (Fin 0) = false.

Lemma notAbove_refl x : notAbove x x.
Proof.
  destruct x as [a | s | ]; [left | left | right; auto]; cbn [num_leb].
  - apply Qle_bool_iff, Qle_refl.
  - destruct s; reflexivity.
Qed.

Lemma round2_Fin a :
  round2 (Fin a)
  = norm (inject_Z (Qfloor (Qred (a * 100) + (1 # 2))) / 100).
Proof. reflexivity. Qed.

Lemma round2_notAbove x y : notAbove x y -> notAbove (round2 x) (round2 y).
Proof.
  intros [H | [-> ->]]; [ | right; split; reflexivity].
  destruct x as [a | s | ], y as [b | s' | ]; cbn [num_leb] in H;
    try discriminate.
  - left. rewrite !round2_Fin. cbn [norm num_leb].
    apply Qle_bool_iff in H. apply Qle_bool_iff. rewrite !Qred_correct.
    assert (Hk : (Qfloor (a * 100 + (1 # 2))
                  <= Qfloor (b * 100 + (1 # 2)))%Z).
    { apply Qfloor_resp_le. lra. }
    rewrite Zle_Qle in Hk. unfold Qdiv.
    apply Qmult_le_compat_r; [exact Hk | discriminate].
  - destruct s'; [ | discriminate]. left. reflexivity.
  - destruct s; [discriminate | ]. left. reflexivity.
  - destruct s, s'; try discriminate; left; reflexivity.
Qed.

Section WithSqrt.
Variable sqrtQ : Q -> Q.
Hypothesis sqrtQ_nonneg : forall x, 0 <= x -> 0 <= sqrtQ x.

Lemma notNeg_sqrt x : notNeg (Math_sqrt sqrtQ x).
Proof.
  unfold notNeg. destruct x as [a | [ | ] | ]; cbn [Math_sqrt]; try reflexivity.
  destruct (Qltb a 0) eqn:E; [reflexivity | ].
  cbn [norm num_ltb]. apply Qltb_ge. rewrite Qred_correct.
  apply sqrtQ_nonneg. rewrite Qred_correct. apply Qltb_ge. exact E.
Qed.

Lemma notNeg_div x y : notNeg x -> notNeg y -> notNeg (num_div x y).
Proof.
  unfold notNeg.
  destruct x as [a | [ | ] | ], y as [b | [ | ] | ]; cbn [num_ltb num_div negb];
    try discriminate; try reflexivity; intros Ha Hb.
  - apply Qltb_ge in Ha. apply Qltb_ge in Hb.
    destruct (Qeq_bool b 0) eqn:Eb.
    + destruct (Qeq_bool a 0) eqn:Ea; [reflexivity | ].
      apply Qeq_bool_false in Ea.
      assert (E : Qltb 0 a = true) by (apply Qltb_lt; lra).
      rewrite E. reflexivity.
    + apply Qeq_bool_false in Eb. cbn [norm num_ltb].
      apply Qltb_ge. rewrite Qred_correct.
      apply Qle_shift_div_l; lra.
  - apply Qltb_ge in Hb.
    assert (E : Qle_bool 0 b = true) by (apply Qle_bool_iff; exact Hb).
    rewrite E. reflexivity.
Qed.

Lemma notNeg_mul x y : notNeg x -> notNeg y -> notNeg (num_mul x y).
Proof.
  unfold notNeg.
  destruct x as [a | [ | ] | ], y as [b | [ | ] | ]; cbn [num_ltb num_mul negb];
    try discriminate; try reflexivity; intros Ha Hb.
  - apply Qltb_ge in Ha. apply Qltb_ge in Hb. cbn [norm num_ltb].
    apply Qltb_ge. rewrite Qred_correct. apply Qmult_le_0_compat; assumption.
  - apply Qltb_ge in Ha.
    destruct (Qeq_bool a 0) eqn:Ea; [reflexivity | ].
    apply Qeq_bool_false in Ea.
    assert (E : Qltb 0 a = true) by (apply Qltb_lt; lra).
    rewrite E. reflexivity.
  - apply Qltb_ge in Hb.
    destruct (Qeq_bool b 0) eqn:Eb; [reflexivity | ].
    apply Qeq_bool_false in Eb.
    assert (E : Qltb 0 b = true) by (apply Qltb_lt; lra).
    rewrite E. reflexivity.
Qed.

Lemma notNeg_nth (l : list number) i :
  (forall x, In x l -> notNeg x) -> notNeg (nth i l NaN).
Proof.
  intros H. destruct (Nat.lt_ge_cases i (List.length l)) as [L | L].
  - apply H, nth_In, L.
  - rewrite nth_overflow by exact L. reflexivity.
Qed.

Lemma simpleMovingAverage_notNeg values periods :
  notNeg (snd (simpleMovingAverage sqrtQ values periods)).
Proof.
  unfold simpleMovingAverage.
  destruct (List.length values =? 0)%nat; cbn [snd]; [reflexivity | ].
  apply notNeg_div; apply notNeg_sqrt.
Qed.

Lemma weightedMovingAverage_notNeg values periods :
  notNeg (snd (weightedMovingAverage sqrtQ values periods)).
Proof.
  unfold weightedMovingAverage.
  destruct (List.length values =? 0)%nat; cbn [snd]; [reflexivity | ].
  apply notNeg_div; apply notNeg_sqrt.
Qed.

Lemma linearRegressionForecast_notNeg values n x :
  In x (LinearForecast.standardErrors
          (linearRegressionForecast sqrtQ values n)) ->
  notNeg x.
Proof.
  unfold linearRegressionForecast.
  destruct (List.length values <? 2)%nat;
    cbn [LinearForecast.standardErrors]; intros H.
  - apply repeat_spec in H. subst x. reflexivity.
  - rewrite map_map in H. apply in_map_iff in H.
    destruct H as (i & <- & _). cbn [snd].
    apply notNeg_mul; apply notNeg_sqrt.
Qed.

End WithSqrt.

(** The critical values at 0.90 and 0.99 for the same degrees of
    freedom. *)
Lemma getTCritical_090_099 df :
  exists a b,
    getTCritical (Fin 0.90) df = Fin a /\ getTCritical (Fin 0.99) df = Fin b
    /\ 0 < a /\ a <= b.
Proof.
  unfold getTCritical.
  change (T_CRITICAL_get (Fin 0.90))
    with (Some (snd (nth 0 T_CRITICAL (0, [])))).
  change (T_CRITICAL_get (Fin 0.99))
    with (Some (snd (nth 2 T_CRITICAL (0, [])))).
  cbn [nth T_CRITICAL snd map fst getTCritical_loop].
  repeat match goal with
         | |- context [num_leb df ?k] => destruct (num_leb df k)
         end;
    eexists; eexists; (split; [reflexivity | split; [reflexivity | ]]);
    split; reflexivity || (intros H; discriminate H).
Qed.

Lemma calculateConfidenceInterval_monotone forecast se n :
  notNeg se ->
  let i90 := calculateConfidenceInterval forecast se n (Fin 0.90) in
  let i99 := calculateConfidenceInterval forecast se n (Fin 0.99) in
  notAbove (fst i99) (fst i90) /\ notAbove (snd i90) (snd i99).
Proof.
  intros Hse. unfold calculateConfidenceInterval. cbv zeta.
  destruct (getTCritical_090_099
              (Math_max (Fin 1) (num_sub (of_Z (Z.of_nat n)) (Fin 1))))
    as (a & b & -> & -> & Ha & Hab).
  cbn [fst snd]. unfold notNeg in Hse.
  assert (Ea : Qeq_bool a 0 = false) by (apply Qeq_bool_false; lra).
  assert (Eb : Qeq_bool b 0 = false) by (apply Qeq_bool_false; lra).
  assert (La : Qltb 0 a = true) by (apply Qltb_lt; lra).
  assert (Lb : Qltb 0 b = true) by (apply Qltb_lt; lra).
  destruct se as [s | [ | ] | ]; cbn [num_ltb negb] in Hse; try discriminate.
  - apply Qltb_ge in Hse.
    assert (Hm : a * s <= b * s) by (apply Qmult_le_compat_r; assumption).
    destruct forecast as [f | sg | ]; cbn [num_mul num_sub num_add];
      unfold norm; cbn [num_sub num_add]; unfold norm.
    + split.
      * cbn [Math_max num_ltb].
        destruct (Qltb 0 (Qred (f - Qred (b * s)))) eqn:E1;
          destruct (Qltb 0 (Qred (f - Qred (a * s)))) eqn:E2;
          left; cbn [num_leb]; apply Qle_bool_iff;
          rewrite ?Qltb_lt, ?Qltb_ge, ?Qred_correct in *; lra.
      * left. cbn [num_leb]. apply Qle_bool_iff.
        rewrite !Qred_correct. lra.
    + split; apply notAbove_refl.
    + split; apply notAbove_refl.
  - cbn [num_mul]. rewrite Ea, Eb, La, Lb. split; apply notAbove_refl.
  - cbn [num_mul]. split; apply notAbove_refl.
Qed.

Lemma Forall2_map_same {A B} (R : B -> B -> Prop) (f g : A -> B) l :
  (forall x, In x l -> R (f x) (g x)) -> Forall2 R (map f l) (map g l).
Proof.
  induction l as [ | x l IH]; intros H; cbn [map]; constructor.
  - apply H. left. reflexivity.
  - apply IH. intros y Hy. apply H. right. exact Hy.
Qed.

(** The forecast point [b] has the period and the demand of [a], and an
    interval that contains the interval of [a]. *)
Definition widens (a b : ProjectionPoint.t) : Prop :=
  ProjectionPoint.period a = ProjectionPoint.period b
  /\ ProjectionPoint.projectedDemand a = ProjectionPoint.projectedDemand b
  /\ notAbove (ProjectionPoint.confidenceLow b) (ProjectionPoint.confidenceLow a)
  /\ notAbove (ProjectionPoint.confidenceHigh a)
              (ProjectionPoint.confidenceHigh b).

Lemma widens_points period label demand forecast se n :
  notNeg se ->
  widens
    (let '(low, high) :=
       calculateConfidenceInterval forecast se n (Fin 0.90) in
     ProjectionPoint.mk period label demand (round2 low) (round2 high) true)
    (let '(low, high) :=
       calculateConfidenceInterval forecast se n (Fin 0.99) in
     ProjectionPoint.mk period label demand (round2 low) (round2 high) true).
Proof.
  intros Hse.
  destruct (calculateConfidenceInterval_monotone forecast se n Hse)
    as [Hl Hh].
  destruct (calculateConfidenceInterval forecast se n (Fin 0.90))
    as [low90 high90].
  destruct (calculateConfidenceInterval forecast se n (Fin 0.99))
    as [low99 high99].
  cbn [fst snd] in Hl, Hh. unfold widens.
  cbn [ProjectionPoint.period ProjectionPoint.projectedDemand
         ProjectionPoint.confidenceLow ProjectionPoint.confidenceHigh].
  repeat split; trivial; apply round2_notAbove; assumption.
Qed.

(** C6 (monotonicity of the interval in the confidence level).  For every
    series, method and settings, the projection at confidence level 0.99
    has, at every forecast point, the demand of the projection at 0.90,
    a lower bound that is not above and an upper bound that is not below
    the bound at 0.90; a bound that is [NaN] at one level is [NaN] at the
    other. *)
Theorem confidence_interval_monotonicity (sqrtQ : Q -> Q)
    (aggregation : ProductAggregation.t) (metrics : ProductMetrics.t)
    (settings : ForecastSettings.t) (period : AggregationPeriod) :
  (forall x, 0 <= x -> 0 <= sqrtQ x) ->
  let projection90 :=
    generateProductProjection sqrtQ aggregation metrics
      (withConfidence settings (Fin 0.90)) period in
  let projection99 :=
    generateProductProjection sqrtQ aggregation metrics
      (withConfidence settings (Fin 0.99)) period in
  Forall2 widens
    (ProductProjection.projectedData projection90)
    (ProductProjection.projectedData projection99).
Proof.
  intros Hsqrt projection90 projection99.
  unfold projection90, projection99, generateProductProjection.
  cbn [ProductProjection.projectedData withConfidence
         ForecastSettings.method ForecastSettings.timeframe
         ForecastSettings.periods ForecastSettings.confidenceLevel].
  destruct (ForecastSettings.method settings).
  - assert (Hse := simpleMovingAverage_notNeg sqrtQ Hsqrt
                     (map AggregatedData.totalQuantity
                          (ProductAggregation.data aggregation))
                     (ForecastSettings.periods settings)).
    destruct (simpleMovingAverage sqrtQ _ _) as [forecast se].
    apply Forall2_map_same. intros p _. apply widens_points. exact Hse.
  - assert (Hse := weightedMovingAverage_notNeg sqrtQ Hsqrt
                     (map AggregatedData.totalQuantity
                          (ProductAggregation.data aggregation))
                     (ForecastSettings.periods settings)).
    destruct (weightedMovingAverage sqrtQ _ _) as [forecast se].
    apply Forall2_map_same. intros p _. apply widens_points. exact Hse.
  - apply Forall2_map_same. intros [i p] _. apply widens_points.
    apply notNeg_nth. intros x Hx.
    apply (linearRegressionForecast_notNeg sqrtQ Hsqrt _ _ _ Hx).
Qed.

Lemma confidence_interval_monotonicity_witness :
  Forall2 widens
    (ProductProjection.projectedData
       (generateProductProjection SqrtModel.sqrtQ sampleAggregation
          sampleMetrics (sampleSettings linear_regression 0.90) monthly))
    (ProductProjection.projectedData
       (generateProductProjection SqrtModel.sqrtQ sampleAggregation
          sampleMetrics (sampleSettings linear_regression 0.99) monthly)).
Proof.
  exact (confidence_interval_monotonicity SqrtModel.sqrtQ sampleAggregation
           sampleMetrics (sampleSettings linear_regression 0.95) monthly
           SqrtModel.sqrtQ_nonneg).
Defined.

(* ================================================================== *)
(** * Series of standard deviation zero *)
(* ================================================================== *)

Module ConstantSeries.

(** The value of a finite number. *)
Definition valQ (x : number) : Q :=
  match x with
  | Fin a => a
  | _ => 0
  end.

Definition allFinite (xs : list number) : Prop :=
  forall x, In x xs -> is_finite x = true.

(** All the numbers of [xs] are finite and have the value [c]. *)
Definition constant (c : Q) (xs : list number) : Prop :=
  forall x, In x xs -> V x c.

Lemma V_valQ x : is_finite x = true -> V x (valQ x).
Proof. destruct x; try discriminate. intros _. apply V_Fin. Qed.

Lemma V_unique x a b : V x a -> V x b -> a == b.
Proof.
  intros (a' & -> & Ha) (b' & E & Hb). injection E as <-.
  rewrite <- Ha, <- Hb. reflexivity.
Qed.

Lemma allFinite_Fin qs : allFinite (map Fin qs).
Proof. intros x Hx. apply in_map_iff in Hx. destruct Hx as (q & <- & _). reflexivity. Qed.

Lemma constant_finite c xs : constant c xs -> allFinite xs.
Proof. intros H x Hx. apply (V_finite _ c), H, Hx. Qed.

Lemma Qsum_const {A} (g : A -> Q) (c : Q) (l : list A) :
  (forall x, In x l -> g x == c) ->
  Qsum (map g l) == inject_Z (Z.of_nat (List.length l)) * c.
Proof.
  induction l as [ | y l IH]; intros H.
  - cbn. ring.
  - cbn [map List.length]. rewrite Qsum_cons, IH, (H y), Nat2Z.inj_succ.
    + unfold Z.succ. rewrite inject_Z_plus. ring.
    + left. reflexivity.
    + intros x Hx. apply H. right. exact Hx.
Qed.

Lemma Qsum_pos (l : list Q) :
  l <> [] -> (forall x, In x l -> 0 < x) -> 0 < Qsum l.
Proof.
  destruct l as [ | y l]; [congruence | ]. intros _ H.
  rewrite Qsum_cons.
  assert (H1 := H y (or_introl eq_refl)).
  assert (H2 : 0 <= Qsum l).
  { apply Qsum_nonneg. intros x Hx. apply Qlt_le_weak, H. right. exact Hx. }
  lra.
Qed.

Lemma inject_Z_length_pos {A} (l : list A) :
  l <> [] -> 0 < inject_Z (Z.of_nat (List.length l)).
Proof.
  intros H. destruct l; [congruence | ].
  change 0 with (inject_Z 0). rewrite <- Zlt_Qlt. cbn [List.length]. lia.
Qed.

(** The mean of finite numbers. *)
Lemma V_mean xs :
  allFinite xs -> xs <> [] ->
  V (mean xs)
    (Qsum (map valQ xs) / inject_Z (Z.of_nat (List.length xs))).
Proof.
  intros Hf Hne. unfold mean.
  destruct xs as [ | x0 xs0] eqn:E; [congruence | ]. rewrite <- E in *.
  assert (El : (List.length xs =? 0)%nat = false)
    by (rewrite E; reflexivity).
  rewrite El. apply V_div.
  - eapply V_compat.
    + apply (V_fold (fun x => x) valQ xs).
      * intros x Hx. apply V_valQ, Hf, Hx.
      * apply V_Fin.
    + ring.
  - apply V_of_Z.
  - assert (H := inject_Z_length_pos xs Hne). lra.
Qed.

Lemma mean_constant c xs : constant c xs -> xs <> [] -> V (mean xs) c.
Proof.
  intros Hc Hne.
  apply (V_compat _ _ _ (V_mean xs (constant_finite c xs Hc) Hne)).
  rewrite (Qsum_const valQ c).
  - assert (H := inject_Z_length_pos xs Hne). field. lra.
  - intros x Hx. apply (V_unique x); [apply V_valQ, (constant_finite c xs Hc), Hx | apply Hc, Hx].
Qed.

(** The variance of at least two finite numbers whose mean is [m]. *)
Lemma V_variance xs m :
  allFinite xs -> (2 <= List.length xs)%nat -> V (mean xs) m ->
  V (variance xs)
    (Qsum (map (fun x => (valQ x - m) * (valQ x - m)) xs)
     / (inject_Z (Z.of_nat (List.length xs)) - 1)).
Proof.
  intros Hf Hlen Hm. unfold variance.
  assert (El : (List.length xs <? 2)%nat = false)
    by (apply Nat.ltb_ge; exact Hlen).
  rewrite El. cbv zeta.
  rewrite <- (fold_left_map (fun sum v => num_add sum v)
                (fun v => Math_pow2 (num_sub v (mean xs)))).
  apply V_div.
  - eapply V_compat.
    + apply (V_fold (fun v => Math_pow2 (num_sub v (mean xs)))
               (fun x => (valQ x - m) * (valQ x - m)) xs).
      * intros x Hx. apply V_pow2, V_sub; [apply V_valQ, Hf, Hx | exact Hm].
      * apply V_Fin.
    + ring.
  - apply V_sub; [apply V_of_Z | apply V_Fin].
  - assert (H : inject_Z 2 <= inject_Z (Z.of_nat (List.length xs))).
    { rewrite <- Zle_Qle. lia. }
    change (inject_Z 2) with 2 in H. lra.
Qed.

Lemma variance_constant c xs :
  constant c xs -> exists v, variance xs = Fin v /\ v == 0.
Proof.
  intros Hc.
  destruct (Nat.lt_ge_cases (List.length xs) 2) as [L | L].
  - unfold variance. apply Nat.ltb_lt in L. rewrite L.
    exists 0. split; reflexivity.
  - assert (Hne : xs <> []) by (destruct xs; [cbn in L; lia | congruence]).
    destruct (V_variance xs c (constant_finite c xs Hc) L
                (mean_constant c xs Hc Hne)) as (v & E & Hv).
    exists v. split; [exact E | ]. rewrite Hv.
    rewrite (Qsum_const _ 0).
    + unfold Qdiv. ring.
    + intros x Hx.
      assert (H : valQ x == c).
      { apply (V_unique x); [apply V_valQ, (constant_finite c xs Hc), Hx | apply Hc, Hx]. }
      rewrite H. ring.
Qed.

Section WithSqrt.
Variable sqrtQ : Q -> Q.
Hypothesis sqrtQ_zero : forall x, x == 0 -> sqrtQ x == 0.
Hypothesis sqrtQ_pos : forall x, 0 < x -> 0 < sqrtQ x.

Lemma Math_sqrt_zero v : v == 0 -> Math_sqrt sqrtQ (Fin v) = Fin 0.
Proof.
  intros H. cbn [Math_sqrt].
  assert (E : Qltb v 0 = false) by (apply Qltb_ge; lra).
  rewrite E. apply norm_zero. apply sqrtQ_zero.
  rewrite Qred_correct. exact H.
Qed.

Lemma Math_sqrt_pos v :
  0 < v -> exists s, Math_sqrt sqrtQ (Fin v) = Fin s /\ 0 < s.
Proof.
  intros H. cbn [Math_sqrt].
  assert (E : Qltb v 0 = false) by (apply Qltb_ge; lra).
  rewrite E. exists (Qred (sqrtQ (Qred v))). split; [reflexivity | ].
  rewrite Qred_correct. apply sqrtQ_pos. rewrite Qred_correct. exact H.
Qed.

(** A finite number whose square root is 0 is 0. *)
Lemma Math_sqrt_zero_inv v :
  0 <= v -> Math_sqrt sqrtQ (Fin v) = Fin 0 -> v == 0.
Proof.
  intros Hv H.
  destruct (Qlt_le_dec 0 v) as [L | L]; [ | lra].
  destruct (Math_sqrt_pos v L) as (s & E & Hs).
  rewrite E in H. injection H as ->. lra.
Qed.

Lemma stdDeviation_constant c xs :
  constant c xs -> stdDeviation sqrtQ xs = Fin 0.
Proof.
  intros Hc. unfold stdDeviation.
  destruct (variance_constant c xs Hc) as (v & -> & Hv).
  apply Math_sqrt_zero, Hv.
Qed.

(** A series of finite numbers with standard deviation 0 is constant. *)
Lemma stdDeviation_zero_constant xs :
  allFinite xs -> stdDeviation sqrtQ xs = Fin 0 ->
  exists c, constant c xs.
Proof.
  intros Hf Hstd.
  destruct (Nat.lt_ge_cases (List.length xs) 2) as [L | L].
  - destruct xs as [ | x [ | y xs]]; [ | | cbn in L; lia].
    + exists 0. intros x [].
    + exists (valQ x). intros z [<- | []]. apply V_valQ, Hf. left. reflexivity.
  - assert (Hne : xs <> []) by (destruct xs; [cbn in L; lia | congruence]).
    set (m := Qsum (map valQ xs) / inject_Z (Z.of_nat (List.length xs))).
    assert (Hm : V (mean xs) m) by (apply V_mean; assumption).
    destruct (V_variance xs m Hf L Hm) as (v & Ev & Hv).
    unfold stdDeviation in Hstd. rewrite Ev in Hstd.
    set (S := Qsum (map (fun x => (valQ x - m) * (valQ x - m)) xs)) in *.
    assert (Hn : 0 < inject_Z (Z.of_nat (List.length xs)) - 1).
    { assert (H : inject_Z 2 <= inject_Z (Z.of_nat (List.length xs))).
      { rewrite <- Zle_Qle. lia. }
      change (inject_Z 2) with 2 in H. lra. }
    assert (HS : 0 <= S).
    { apply Qsum_nonneg. intros q Hq. apply in_map_iff in Hq.
      destruct Hq as (x & <- & _). apply Qsquare_nonneg. }
    assert (Hv0 : 0 <= v).
    { rewrite Hv. apply Qle_shift_div_l; lra. }
    apply (Math_sqrt_zero_inv v Hv0) in Hstd.
    assert (HS0 : S == 0).
    { rewrite Hv in Hstd.
      assert (E : S == (S / (inject_Z (Z.of_nat (List.length xs)) - 1))
                       * (inject_Z (Z.of_nat (List.length xs)) - 1))
        by (field; lra).
      rewrite E, Hstd. ring. }
    exists m. intros x Hx.
    apply (V_compat _ (valQ x)); [apply V_valQ, Hf, Hx | ].
    assert (Hz : (valQ x - m) * (valQ x - m) == 0).
    { apply (Qsum_zero_terms (map (fun x => (valQ x - m) * (valQ x - m)) xs)).
      - intros q Hq. apply in_map_iff in Hq.
        destruct Hq as (y & <- & _). apply Qsquare_nonneg.
      - exact HS0.
      - apply in_map_iff. exists x. split; [reflexivity | exact Hx]. }
    apply Qmult_integral in Hz. lra.
Qed.

Lemma In_skipn {A} (x : A) k l : In x (skipn k l) -> In x l.
Proof.
  intros H. rewrite <- (firstn_skipn k l). apply in_or_app. right. exact H.
Qed.

Lemma map_snd_combine {A B} (l : list A) :
  forall l' : list B,
    List.length l = List.length l' -> map snd (combine l l') = l'.
Proof.
  induction l as [ | x l IH]; intros [ | y l'] H; try discriminate.
  - reflexivity.
  - cbn [combine map snd]. f_equal. apply IH. cbn in H. lia.
Qed.

(** The window of a moving average over a non-empty series, for a window
    size of 1 at least. *)
Lemma slice_last_window {A} (values : list A) (periods : Z) :
  values <> [] -> (1 <= periods)%Z ->
  let n := Z.min periods (Z.of_nat (List.length values)) in
  (1 <= n)%Z
  /\ slice_last values n <> []
  /\ forall x, In x (slice_last values n) -> In x values.
Proof.
  intros Hne Hp n.
  assert (Hlen : (1 <= Z.of_nat (List.length values))%Z).
  { destruct values; [congruence | cbn [List.length]; lia]. }
  assert (Hn : (1 <= n)%Z) by (unfold n; lia).
  split; [exact Hn | ]. unfold slice_last.
  destruct (Z.ltb_spec (- n) 0) as [L | L]; [ | lia].
  split.
  - intros E. apply (f_equal (@List.length A)) in E.
    rewrite length_skipn in E. cbn [List.length] in E. unfold n in *. lia.
  - intros x. apply In_skipn.
Qed.

Lemma sqrt_window_size n :
  (1 <= n)%Z -> exists s, Math_sqrt sqrtQ (of_Z n) = Fin s /\ 0 < s.
Proof.
  intros H. apply Math_sqrt_pos.
  change 0 with (inject_Z 0). rewrite <- Zlt_Qlt. lia.
Qed.

Lemma zero_over_sqrt n :
  (1 <= n)%Z -> num_div (Fin 0) (Math_sqrt sqrtQ (of_Z n)) = Fin 0.
Proof.
  intros H. destruct (sqrt_window_size n H) as (s & -> & Hs).
  rewrite (num_div_V (Fin 0) (Fin s) 0 s (V_Fin 0) (V_Fin s)) by lra.
  apply norm_zero. unfold Qdiv. ring.
Qed.

Lemma simpleMovingAverage_constant c values periods :
  constant c values -> (1 <= periods)%Z ->
  is_finite (fst (simpleMovingAverage sqrtQ values periods)) = true
  /\ snd (simpleMovingAverage sqrtQ values periods) = Fin 0.
Proof.
  intros Hc Hp. unfold simpleMovingAverage.
  destruct values as [ | v0 vs] eqn:E; [split; reflexivity | ].
  rewrite <- E in *.
  assert (Hne : values <> []) by (rewrite E; congruence).
  assert (El : (List.length values =? 0)%nat = false)
    by (rewrite E; reflexivity).
  rewrite El. cbn [fst snd].
  destruct (slice_last_window values periods Hne Hp) as (Hn & Hw & Hin).
  set (n := Z.min periods (Z.of_nat (List.length values))) in *.
  assert (Hcw : constant c (slice_last values n)).
  { intros x Hx. apply Hc, Hin, Hx. }
  split.
  - apply (V_finite _ c), mean_constant; assumption.
  - rewrite (stdDeviation_constant c _ Hcw). apply zero_over_sqrt, Hn.
Qed.

Lemma weights_positive k x :
  In x (map (fun i => inject_Z (Z.of_nat i + 1)) (seq 0 k)) -> 0 < x.
Proof.
  intros H. apply in_map_iff in H. destruct H as (i & <- & _).
  change 0 with (inject_Z 0). rewrite <- Zlt_Qlt. lia.
Qed.

Lemma weightedMovingAverage_constant c values periods :
  constant c values -> (1 <= periods)%Z ->
  is_finite (fst (weightedMovingAverage sqrtQ values periods)) = true
  /\ snd (weightedMovingAverage sqrtQ values periods) = Fin 0.
Proof.
  intros Hc Hp. unfold weightedMovingAverage.
  destruct values as [ | v0 vs] eqn:E; [split; reflexivity | ].
  rewrite <- E in *.
  assert (Hne : values <> []) by (rewrite E; congruence).
  assert (El : (List.length values =? 0)%nat = false)
    by (rewrite E; reflexivity).
  rewrite El. cbv zeta. cbn [fst snd].
  destruct (slice_last_window values periods Hne Hp) as (Hn & Hw & Hin).
  set (n := Z.min periods (Z.of_nat (List.length values))) in *.
  set (recent := slice_last values n) in *.
  assert (Hcw : constant c recent) by (intros x Hx; apply Hc, Hin, Hx).
  set (k := List.length recent).
  set (W := fun i : nat => of_Z (Z.of_nat i + 1)).
  set (weights := map W (seq 0 k)).
  set (wq := map (fun i => inject_Z (Z.of_nat i + 1)) (seq 0 k)).
  assert (Hk : seq 0 k <> []).
  { unfold k. destruct recent; [congruence | discriminate]. }
  assert (Htw : 0 < Qsum wq).
  { apply Qsum_pos.
    - unfold wq. destruct (seq 0 k); [congruence | discriminate].
    - apply weights_positive. }
  (* the total weight *)
  set (totalWeight := fold_left (fun sum w => num_add sum w) weights (Fin 0)).
  assert (HTW : V totalWeight (Qsum wq)).
  { unfold totalWeight, weights.
    rewrite <- (fold_left_map (fun sum w => num_add sum w) W).
    eapply V_compat.
    - apply (V_fold W (fun i => inject_Z (Z.of_nat i + 1)) (seq 0 k)).
      + intros i _. apply V_of_Z.
      + apply V_Fin.
    - fold wq. ring. }
  assert (Hpairs : forall v w, In (v, w) (combine recent weights) ->
                               V v c /\ V w (valQ w)).
  { intros v w H. split.
    - apply Hcw. apply (in_combine_l _ _ _ _ H).
    - apply in_combine_r in H. unfold weights in H.
      apply in_map_iff in H. destruct H as (i & <- & _). apply V_of_Z. }
  assert (Hsnd : map (fun p : number * number => valQ (snd p))
                     (combine recent weights) = wq).
  { rewrite <- (map_map snd valQ), map_snd_combine.
    - unfold weights, wq. rewrite map_map. reflexivity.
    - unfold weights. rewrite length_map, length_seq. reflexivity. }
  (* the forecast *)
  set (weightedSum :=
         fold_left (fun weightedSum '(v, w) =>
                      num_add weightedSum (num_mul v w))
                   (combine recent weights) (Fin 0)).
  assert (HWS : V weightedSum (c * Qsum wq)).
  { unfold weightedSum.
    rewrite (fold_left_ext _
               (fun s p => num_add s (num_mul (fst p) (snd p))))
      by (intros a [v w]; reflexivity).
    eapply V_compat.
    - apply (V_fold (fun p => num_mul (fst p) (snd p))
               (fun p => c * valQ (snd p)) (combine recent weights)).
      + intros [v w] H. destruct (Hpairs v w H) as [Hv Hw'].
        apply V_mul; assumption.
      + apply V_Fin.
    - rewrite <- Hsnd.
      generalize (combine recent weights) as l.
      induction l as [ | p l IH]; cbn [map].
      + rewrite !Qsum_nil. ring.
      + rewrite !Qsum_cons.
        setoid_replace (0 + (c * valQ (snd p)
                             + Qsum (map (fun p => c * valQ (snd p)) l)))
          with (c * valQ (snd p)
                + (0 + Qsum (map (fun p => c * valQ (snd p)) l))) by ring.
        rewrite IH. ring. }
  set (forecast := num_div weightedSum totalWeight).
  assert (HF : V forecast c).
  { unfold forecast. eapply V_compat.
    - apply (V_div _ _ _ _ HWS HTW). lra.
    - field. lra. }
  split; [apply (V_finite _ c HF) | ].
  (* the weighted variance *)
  set (weightedVariance :=
         fold_left (fun weightedVariance '(v, w) =>
                      num_add weightedVariance
                        (num_mul w (Math_pow2 (num_sub v forecast))))
                   (combine recent weights) (Fin 0)).
  assert (HWV : V weightedVariance 0).
  { unfold weightedVariance.
    rewrite (fold_left_ext _
               (fun s p => num_add s (num_mul (snd p)
                                        (Math_pow2 (num_sub (fst p) forecast)))))
      by (intros a [v w]; reflexivity).
    eapply V_compat.
    - apply (V_fold (fun p => num_mul (snd p)
                                (Math_pow2 (num_sub (fst p) forecast)))
               (fun p => valQ (snd p) * ((c - c) * (c - c)))
               (combine recent weights)).
      + intros [v w] H. destruct (Hpairs v w H) as [Hv Hw'].
        apply V_mul; [exact Hw' | ]. apply V_pow2, V_sub; assumption.
      + apply V_Fin.
    - rewrite (Qsum_const _ 0).
      + ring.
      + intros p _. ring. }
  rewrite (num_div_V _ _ _ _ HWV HTW) by lra.
  assert (Ez : norm (0 / Qsum wq) = Fin 0)
    by (apply norm_zero; unfold Qdiv; ring).
  rewrite Ez, (Math_sqrt_zero 0) by reflexivity.
  apply zero_over_sqrt, Hn.
Qed.

End WithSqrt.
End ConstantSeries.

Import ConstantSeries.

(** A quotient of a finite number that is finite was not taken by 0. *)
Lemma num_div_finite_divisor x y :
  is_finite x = true -> is_finite (num_div x y) = true ->
  num_eqb y (Fin 0) = false.
Proof.
  destruct x as [a | s | ], y as [b | s' | ]; cbn [is_finite num_div num_eqb];
    try discriminate; try reflexivity.
  intros _. destruct (Qeq_bool b 0); [ | reflexivity].
  destruct (Qeq_bool a 0); discriminate.
Qed.



(* ================================================================== *)
(** * Linear regression on two buckets *)
(* ================================================================== *)

(** Two orders of one product in consecutive weeks: the weekly history is
    10, 20. *)
Definition twoBucketOrders : list OrderRecord.t :=
  [ OrderRecord.mk (19723 * msPerDay)%Z "SKU-4" "Nut" (Fin 10)
      None None None;
    OrderRecord.mk (19730 * msPerDay)%Z "SKU-4" "Nut" (Fin 20)
      None None None ]%string.

Definition twoBucketAggregation : ProductAggregation.t :=
  lookupProduct "SKU-4" (aggregateOrderData twoBucketOrders weekly).

Definition twoBucketSettings : ForecastSettings.t :=
  ForecastSettings.mk linear_regression tf_2_weeks 4 (Fin 20) (Fin 7)
    (Fin 0.95).

(** The regression line through two finite points passes through both. *)
Lemma linearRegression_two_predict (y0 y1 : Q) x q :
  V x q ->
  V (RegressionResult.predict (linearRegression [Fin y0; Fin y1]) x)
    ((y1 - y0) * q + y0).
Proof.
  intros Hx. unfold linearRegression.
  change (List.length [Fin y0; Fin y1] <? 2)%nat with false. cbv iota.
  change (indices [Fin y0; Fin y1]) with [Fin 0; Fin 1].
  change (mean [Fin 0; Fin 1]) with (Fin (1 # 2)).
  assert (Hm : V (mean [Fin y0; Fin y1]) ((y0 + y1) / 2)).
  { eapply V_compat; [apply V_mean | ].
    - apply (allFinite_Fin [y0; y1]).
    - discriminate.
    - cbn. field. }
  set (yMean := mean [Fin y0; Fin y1]) in *.
  cbn [combine fold_left].
  change (num_add
            (num_add (Fin 0)
               (num_mul (num_sub (Fin 0) (Fin (1 # 2)))
                        (num_sub (Fin 0) (Fin (1 # 2)))))
            (num_mul (num_sub (Fin 1) (Fin (1 # 2)))
                     (num_sub (Fin 1) (Fin (1 # 2)))))
    with (Fin (1 # 2)).
  change (num_neqb (Fin (1 # 2)) (Fin 0)) with true. cbv iota.
  cbn [RegressionResult.predict].
  change (num_sub (Fin 0) (Fin (1 # 2))) with (Fin (- (1 # 2))).
  change (num_sub (Fin 1) (Fin (1 # 2))) with (Fin (1 # 2)).
  assert (Hslope :
            V (num_div
                 (num_add
                    (num_add (Fin 0)
                       (num_mul (Fin (- (1 # 2))) (num_sub (Fin y0) yMean)))
                    (num_mul (Fin (1 # 2)) (num_sub (Fin y1) yMean)))
                 (Fin (1 # 2)))
              (y1 - y0)).
  { eapply V_compat.
    - apply V_div; [ | apply V_Fin | discriminate].
      apply V_add; [apply V_add; [apply V_Fin | ] | ];
        (apply V_mul; [apply V_Fin | apply V_sub; [apply V_Fin | exact Hm]]).
    - field. }
  eapply V_compat.
  - apply V_add; [apply V_mul; [exact Hslope | exact Hx] | ].
    apply V_sub; [exact Hm | ].
    apply V_mul; [exact Hslope | apply V_Fin].
  - field.
Qed.

(** On every history of two finite buckets the residual sum of squares
    0 is divided by n - 2 = 0, and all the standard errors are [NaN]. *)
Lemma linearRegressionForecast_two (sqrtQ : Q -> Q) (y0 y1 : Q) (k : nat) :
  LinearForecast.standardErrors
    (linearRegressionForecast sqrtQ [Fin y0; Fin y1] k)
  = repeat NaN k.
Proof.
  unfold linearRegressionForecast.
  change (List.length [Fin y0; Fin y1] <? 2)%nat with false. cbv iota.
  change (indices [Fin y0; Fin y1]) with [Fin 0; Fin 1].
  cbn [map combine LinearForecast.standardErrors].
  assert (H0 := linearRegression_two_predict y0 y1 (Fin 0) 0 (V_Fin 0)).
  assert (H1 := linearRegression_two_predict y0 y1 (Fin 1) 1 (V_Fin 1)).
  rewrite (num_sub_V _ _ _ _ (V_Fin y0) H0).
  rewrite (num_sub_V _ _ _ _ (V_Fin y1) H1).
  rewrite (norm_zero (y0 - ((y1 - y0) * 0 + y0))) by ring.
  rewrite (norm_zero (y1 - ((y1 - y0) * 1 + y0))) by ring.
  change (fold_left (fun sum r => num_add sum (num_mul r r))
            [Fin 0; Fin 0] (Fin 0)) with (Fin 0).
  change (num_div (Fin 0) (num_sub (len [Fin y0; Fin y1]) (Fin 2))) with NaN.
  change (Math_sqrt sqrtQ NaN) with NaN.
  rewrite map_map. cbn [snd num_mul].
  rewrite map_const_repeat, length_seq. reflexivity.
Qed.


(* ================================================================== *)
(** * The trend of a series *)
(* ================================================================== *)

(** A series of non-negative quantities whose mean is 0 is all zeros. *)
Lemma mean_zero_constant (quantities : list Q) m :
  (forall q, In q quantities -> 0 <= q) ->
  V (mean (map Fin quantities)) m -> m == 0 ->
  constant 0 (map Fin quantities).
Proof.
  intros Hnn Hm Hz.
  destruct quantities as [ | q0 qs] eqn:E; [intros x [] | ].
  rewrite <- E in *.
  assert (Hne : map Fin quantities <> []) by (rewrite E; discriminate).
  assert (Hv := V_mean (map Fin quantities) (allFinite_Fin quantities) Hne).
  assert (Hs := V_unique _ _ _ Hv Hm).
  rewrite map_map in Hs. cbn [valQ] in Hs. rewrite map_id in Hs.
  assert (Hlen := inject_Z_length_pos (map Fin quantities) Hne).
  assert (Hsum : Qsum quantities == 0).
  { assert (Eq : Qsum quantities
                 == (Qsum quantities
                     / inject_Z (Z.of_nat (List.length (map Fin quantities))))
                    * inject_Z (Z.of_nat (List.length (map Fin quantities))))
      by (field; lra).
    rewrite Eq, Hs, Hz. ring. }
  intros x Hx. apply in_map_iff in Hx. destruct Hx as (q & <- & Hq).
  apply (V_compat _ q); [apply V_Fin | ].
  apply (Qsum_zero_terms quantities Hnn Hsum q Hq).
Qed.

(** The fit of a constant series has R² = 0. *)
Lemma rSquared_constant c values :
  constant c values ->
  RegressionResult.rSquared (linearRegression values) = Fin 0.
Proof.
  intros Hc. unfold linearRegression.
  destruct (List.length values <? 2)%nat eqn:El; [reflexivity | ].
  apply Nat.ltb_ge in El.
  assert (Hne : values <> []) by (destruct values; [cbn in El; lia | congruence]).
  cbv zeta. destruct (fold_left _ (combine (indices values) values) _)
    as [numerator denominator].
  cbn [RegressionResult.rSquared].
  assert (Hm := mean_constant c values Hc Hne).
  assert (Htot :
            V (fold_left
                 (fun sum y =>
                    num_add sum (Math_pow2 (num_sub y (mean values))))
                 values (Fin 0)) 0).
  { eapply V_compat.
    - apply (V_fold (fun y => Math_pow2 (num_sub y (mean values)))
               (fun _ => (c - c) * (c - c)) values).
      + intros y Hy. apply V_pow2, V_sub; [apply Hc, Hy | exact Hm].
      + apply V_Fin.
    - rewrite (Qsum_const _ 0); [ring | intros; ring]. }
  destruct Htot as (z & -> & Hz).
  unfold num_neqb. cbn [num_eqb].
  assert (Ez : Qeq_bool z 0 = true) by (apply Qeq_bool_iff; exact Hz).
  rewrite Ez. reflexivity.
Qed.



(* ================================================================== *)
(** * The linear-regression forecast *)
(* ================================================================== *)

Lemma nth_map_seq {B} (f : nat -> B) (k i : nat) (d : B) :
  (i < k)%nat -> nth i (map f (seq 0 k)) d = f i.
Proof.
  intros H. rewrite (nth_indep _ d (f 0%nat))
    by (rewrite length_map, length_seq; exact H).
  rewrite map_nth, seq_nth by exact H. reflexivity.
Qed.

(** For a history of two buckets at least, forecast point [i] is the
    fitted line at index [n + i], floored at 0, and its standard error
    is the residual standard error times
    [sqrt (1 + 1/n + (x - xMean)² / xVariance)]. *)
Lemma linearRegressionForecast_formula (sqrtQ : Q -> Q) values k i :
  (2 <= List.length values)%nat -> (i < k)%nat ->
  let lr := linearRegressionForecast sqrtQ values k in
  let regression := linearRegression values in
  let n := len values in
  let residualSS :=
    sum (map (fun '(v, x) =>
                Math_pow2 (num_sub v (RegressionResult.predict regression x)))
             (combine values (indices values))) in
  let residualStdError :=
    Math_sqrt sqrtQ (num_div residualSS (num_sub n (Fin 2))) in
  let xMean := num_div (num_sub n (Fin 1)) (Fin 2) in
  let xVariance :=
    sum (map (fun x => Math_pow2 (num_sub x xMean)) (indices values)) in
  let x := num_add n (of_Z (Z.of_nat i)) in
  nth i (LinearForecast.forecasts lr) NaN
  = Math_max (Fin 0) (RegressionResult.predict regression x)
  /\ nth i (LinearForecast.standardErrors lr) NaN
     = num_mul residualStdError
         (Math_sqrt sqrtQ
            (num_add (num_add (Fin 1) (num_div (Fin 1) n))
                     (num_div (Math_pow2 (num_sub x xMean)) xVariance))).
Proof.
  intros Hlen Hi lr regression n residualSS residualStdError xMean xVariance x.
  unfold lr, linearRegressionForecast.
  assert (El : (List.length values <? 2)%nat = false)
    by (apply Nat.ltb_ge; exact Hlen).
  rewrite El. cbn [LinearForecast.forecasts LinearForecast.standardErrors].
  rewrite !map_map, !nth_map_seq by exact Hi. cbn [fst snd].
  split; [reflexivity | ].
  fold regression n xMean x.
  assert (E1 : fold_left (fun sum r => num_add sum (num_mul r r))
                 (map (fun '(v, p) => num_sub v p)
                      (combine values
                         (map (fun i0 => RegressionResult.predict regression i0)
                              (indices values))))
                 (Fin 0)
               = residualSS).
  { unfold residualSS, sum.
    rewrite <- (fold_left_map (fun sum r => num_add sum (num_mul r r))
                  (fun '(v, p) => num_sub v p)).
    rewrite <- (fold_left_map num_add
                  (fun '(v, x0) =>
                     Math_pow2
                       (num_sub v (RegressionResult.predict regression x0)))).
    generalize (Fin 0) as acc. generalize (indices values) as xs.
    generalize values as vs. clear.
    induction vs as [ | v vs IH]; intros [ | x0 xs] acc; try reflexivity.
    cbn [map combine fold_left]. apply IH. }
  assert (E2 : fold_left
                 (fun sum i0 => num_add sum (Math_pow2 (num_sub i0 xMean)))
                 (indices values) (Fin 0)
               = xVariance).
  { unfold xVariance, sum.
    rewrite <- (fold_left_map num_add
                  (fun x0 => Math_pow2 (num_sub x0 xMean))).
    reflexivity. }
  rewrite E1, E2. reflexivity.
Qed.

(* ================================================================== *)
(** * Linear regression on three buckets or more *)
(* ================================================================== *)

Module RegressionFacts.

(** The loop of [linearRegression] accumulates the numerator and the
    denominator side by side. *)
Lemma fold_pair_split {A} (f g : A -> number) (l : list A) :
  forall a b,
    fold_left (fun '(n, d) x => (num_add n (f x), num_add d (g x))) l (a, b)
    = (fold_left (fun n x => num_add n (f x)) l a,
       fold_left (fun d x => num_add d (g x)) l b).
Proof.
  induction l as [ | x l IH]; intros a b; cbn [fold_left].
  - reflexivity.
  - apply IH.
Qed.

Lemma indices_finite {A} (values : list A) : allFinite (indices values).
Proof.
  intros x Hx. unfold indices in Hx. apply in_map_iff in Hx.
  destruct Hx as (i & <- & _). reflexivity.
Qed.

Lemma indices_length {A} (values : list A) :
  List.length (indices values) = List.length values.
Proof. unfold indices. rewrite length_map, length_seq. reflexivity. Qed.

(** The fitted line of a finite series is a line with finite
    coefficients. *)
Lemma linearRegression_line values :
  allFinite values -> (2 <= List.length values)%nat ->
  exists s b,
    forall x q,
      V x q ->
      V (RegressionResult.predict (linearRegression values) x) (s * q + b).
Proof.
  intros Hf Hlen. unfold linearRegression.
  assert (El : (List.length values <? 2)%nat = false)
    by (apply Nat.ltb_ge; exact Hlen).
  rewrite El. cbv zeta.
  assert (Hne : values <> []) by (destruct values; [cbn in Hlen; lia | congruence]).
  assert (Hnx : indices values <> []).
  { intros E. apply (f_equal (@List.length number)) in E.
    rewrite indices_length in E. cbn in E. lia. }
  destruct (V_mean (indices values) (indices_finite values) Hnx)
    as (xm & Exm & _).
  destruct (V_mean values Hf Hne) as (ym & Eym & _).
  rewrite Exm, Eym.
  rewrite (fold_left_ext _
             (fun '(n, d) p =>
                (num_add n (num_mul (num_sub (fst p) (Fin xm))
                                    (num_sub (snd p) (Fin ym))),
                 num_add d (num_mul (num_sub (fst p) (Fin xm))
                                    (num_sub (fst p) (Fin xm))))))
    by (intros [n d] [x y]; reflexivity).
  rewrite fold_pair_split.
  set (pairs := combine (indices values) values).
  assert (Hp : forall p, In p pairs ->
                         V (fst p) (valQ (fst p)) /\ V (snd p) (valQ (snd p))).
  { intros [x y] H. cbn [fst snd]. split; apply V_valQ.
    - apply (indices_finite values), (in_combine_l _ _ _ _ H).
    - apply Hf, (in_combine_r _ _ _ _ H). }
  assert (Hnum :
            exists a,
              V (fold_left
                   (fun n p =>
                      num_add n (num_mul (num_sub (fst p) (Fin xm))
                                         (num_sub (snd p) (Fin ym))))
                   pairs (Fin 0)) a).
  { eexists.
    apply (V_fold (fun p => num_mul (num_sub (fst p) (Fin xm))
                                    (num_sub (snd p) (Fin ym)))
             (fun p => (valQ (fst p) - xm) * (valQ (snd p) - ym)) pairs).
    - intros p H. destruct (Hp p H) as [H1 H2].
      apply V_mul; apply V_sub; trivial; apply V_Fin.
    - apply V_Fin. }
  assert (Hden :
            exists a,
              V (fold_left
                   (fun d p =>
                      num_add d (num_mul (num_sub (fst p) (Fin xm))
                                         (num_sub (fst p) (Fin xm))))
                   pairs (Fin 0)) a).
  { eexists.
    apply (V_fold (fun p => num_mul (num_sub (fst p) (Fin xm))
                                    (num_sub (fst p) (Fin xm)))
             (fun p => (valQ (fst p) - xm) * (valQ (fst p) - xm)) pairs).
    - intros p H. destruct (Hp p H) as [H1 H2].
      apply V_mul; apply V_sub; trivial; apply V_Fin.
    - apply V_Fin. }
  destruct Hnum as (a & num & -> & Ha). destruct Hden as (d & den & -> & Hd).
  cbn [RegressionResult.predict].
  assert (Hslope : exists s,
             V (if num_neqb (Fin den) (Fin 0)
                then num_div (Fin num) (Fin den) else Fin 0) s).
  { unfold num_neqb. cbn [num_eqb].
    destruct (Qeq_bool den 0) eqn:E; cbn [negb].
    - exists 0. apply V_Fin.
    - exists (num / den). apply V_div; try apply V_Fin.
      apply Qeq_bool_false. exact E. }
  destruct Hslope as (s & Hs).
  exists s, (ym - s * xm). intros x q Hx.
  apply V_add; [apply V_mul; assumption | ].
  apply V_sub; [apply V_Fin | ]. apply V_mul; [exact Hs | apply V_Fin].
Qed.

(** A finite, non-negative number. *)
Definition finiteNonNeg (x : number) : Prop := exists a, x = Fin a /\ 0 <= a.

Lemma Math_sqrt_finite sqrtQ x :
  finiteNonNeg x -> is_finite (Math_sqrt sqrtQ x) = true.
Proof.
  intros (a & -> & Ha). cbn [Math_sqrt].
  assert (E : Qltb a 0 = false) by (apply Qltb_ge; exact Ha).
  rewrite E. reflexivity.
Qed.

Lemma finiteNonNeg_V x q : V x q -> 0 <= q -> finiteNonNeg x.
Proof. intros (a & -> & Ha) Hq. exists a. split; [reflexivity | lra]. Qed.

Lemma is_finite_V x : is_finite x = true -> exists q, V x q.
Proof. intros H. exists (valQ x). apply V_valQ, H. Qed.

Lemma is_finite_mul x y :
  is_finite x = true -> is_finite y = true -> is_finite (num_mul x y) = true.
Proof. destruct x, y; try discriminate. reflexivity. Qed.

Lemma is_finite_add x y :
  is_finite x = true -> is_finite y = true -> is_finite (num_add x y) = true.
Proof. destruct x, y; try discriminate. reflexivity. Qed.

Lemma is_finite_sub x y :
  is_finite x = true -> is_finite y = true -> is_finite (num_sub x y) = true.
Proof. destruct x, y; try discriminate. reflexivity. Qed.

Lemma is_finite_max x y :
  is_finite x = true -> is_finite y = true -> is_finite (Math_max x y) = true.
Proof.
  destruct x as [a | | ], y as [b | | ]; try discriminate. intros _ _.
  cbn [Math_max num_ltb]. destruct (Qltb a b); reflexivity.
Qed.

Lemma is_finite_round2 x : is_finite x = true -> is_finite (round2 x) = true.
Proof. destruct x; try discriminate. reflexivity. Qed.

(** Every critical value is finite, whatever the confidence level. *)
Lemma getTCritical_finite confidence df :
  is_finite (getTCritical confidence df) = true.
Proof.
  unfold getTCritical.
  assert (H : forall table,
             In table (map snd T_CRITICAL) ->
             is_finite
               match getTCritical_loop table df (map fst table) with
               | Some t => t
               | None => TTable_get table (Inf true)
               end = true).
  { intros table Ht. cbn in Ht.
    destruct Ht as [<- | [<- | [<- | []]]];
      cbn [map fst getTCritical_loop];
      repeat match goal with
             | |- context [num_leb df ?k] => destruct (num_leb df k)
             end; reflexivity. }
  destruct confidence as [c | s | ]; cbn [T_CRITICAL_get];
    try (apply H; cbn; tauto).
  unfold T_CRITICAL. cbn [find fst snd].
  repeat match goal with
         | |- context [Qeq_bool c ?l] => destruct (Qeq_bool c l)
         end; apply H; cbn; tauto.
Qed.

Lemma calculateConfidenceInterval_finite forecast se n confidence :
  is_finite forecast = true -> is_finite se = true ->
  is_finite (fst (calculateConfidenceInterval forecast se n confidence)) = true
  /\ is_finite (snd (calculateConfidenceInterval forecast se n confidence))
     = true.
Proof.
  intros Hf Hs. unfold calculateConfidenceInterval. cbn [fst snd].
  assert (Ht := getTCritical_finite confidence
                  (Math_max (Fin 1) (num_sub (of_Z (Z.of_nat n)) (Fin 1)))).
  split.
  - apply is_finite_max; [reflexivity | ].
    apply is_finite_sub; [exact Hf | apply is_finite_mul; assumption].
  - apply is_finite_add; [exact Hf | apply is_finite_mul; assumption].
Qed.

(** For a finite history of three buckets or more every forecast and every
    standard error of the linear regression is finite. *)
Lemma linearRegressionForecast_finite sqrtQ values k :
  allFinite values -> (3 <= List.length values)%nat ->
  (forall x, In x (LinearForecast.forecasts
                     (linearRegressionForecast sqrtQ values k)) ->
             is_finite x = true)
  /\ (forall x, In x (LinearForecast.standardErrors
                        (linearRegressionForecast sqrtQ values k)) ->
                is_finite x = true).
Proof.
  intros Hf Hlen.
  assert (Hlen2 : (2 <= List.length values)%nat) by lia.
  destruct (linearRegression_line values Hf Hlen2) as (s & b & Hline).
  unfold linearRegressionForecast.
  assert (El : (List.length values <? 2)%nat = false)
    by (apply Nat.ltb_ge; exact Hlen2).
  rewrite El. cbn [LinearForecast.forecasts LinearForecast.standardErrors].
  set (regression := linearRegression values) in *.
  assert (Hn : V (len values) (inject_Z (Z.of_nat (List.length values))))
    by apply V_of_Z.
  set (nq := inject_Z (Z.of_nat (List.length values))) in *.
  assert (Hnq : 3 <= nq).
  { unfold nq. change 3 with (inject_Z 3). rewrite <- Zle_Qle. lia. }
  (* the residual standard error *)
  set (residuals :=
         map (fun '(v, p) => num_sub v p)
             (combine values
                (map (fun i => RegressionResult.predict regression i)
                     (indices values)))).
  assert (Hres : forall r, In r residuals -> V r (valQ r)).
  { intros r Hr. unfold residuals in Hr. apply in_map_iff in Hr.
    destruct Hr as ([v p] & <- & Hvp). apply V_valQ.
    apply is_finite_sub.
    - apply Hf, (in_combine_l _ _ _ _ Hvp).
    - apply in_combine_r in Hvp. apply in_map_iff in Hvp.
      destruct Hvp as (x & <- & Hx).
      apply (V_finite _ (s * valQ x + b)), Hline, V_valQ.
      apply (indices_finite values), Hx. }
  assert (HSS : finiteNonNeg
                  (num_div
                     (fold_left (fun sum r => num_add sum (num_mul r r))
                                residuals (Fin 0))
                     (num_sub (len values) (Fin 2)))).
  { apply (finiteNonNeg_V _
             ((0 + Qsum (map (fun r => valQ r * valQ r) residuals))
              / (nq - 2))).
    - apply V_div; [ | apply V_sub; [exact Hn | apply V_Fin] | lra].
      apply (V_fold (fun r => num_mul r r) (fun r => valQ r * valQ r)).
      + intros r Hr. apply V_mul; apply Hres, Hr.
      + apply V_Fin.
    - apply Qle_shift_div_l; [lra | ].
      assert (H0 : 0 <= Qsum (map (fun r => valQ r * valQ r) residuals)).
      { apply Qsum_nonneg. intros q Hq. apply in_map_iff in Hq.
        destruct Hq as (r & <- & _). apply Qsquare_nonneg. }
      lra. }
  assert (HSEE := Math_sqrt_finite sqrtQ _ HSS).
  (* the variance of the indices *)
  set (xMean := num_div (num_sub (len values) (Fin 1)) (Fin 2)).
  assert (HxMean : V xMean ((nq - 1) / 2)).
  { apply V_div; [apply V_sub; [exact Hn | apply V_Fin] | apply V_Fin | ].
    discriminate. }
  set (xq := Qsum (map (fun x => (valQ x - (nq - 1) / 2)
                                 * (valQ x - (nq - 1) / 2))
                       (indices values))).
  assert (HxVar :
            V (fold_left
                 (fun sum i => num_add sum (Math_pow2 (num_sub i xMean)))
                 (indices values) (Fin 0)) (0 + xq)).
  { apply (V_fold (fun i => Math_pow2 (num_sub i xMean))
             (fun x => (valQ x - (nq - 1) / 2) * (valQ x - (nq - 1) / 2))).
    - intros x Hx. apply V_pow2, V_sub; [ | exact HxMean].
      apply V_valQ, (indices_finite values), Hx.
    - apply V_Fin. }
  assert (Hxq : 0 < xq).
  { unfold xq, indices.
    destruct (List.length values) as [ | m] eqn:Em; [lia | ].
    cbn [seq map]. rewrite Qsum_cons.
    assert (H0 : 0 <= Qsum (map (fun x => (valQ x - (nq - 1) / 2)
                                          * (valQ x - (nq - 1) / 2))
                                (map (fun i => of_Z (Z.of_nat i))
                                     (seq 1 m)))).
    { apply Qsum_nonneg. intros q Hq. apply in_map_iff in Hq.
      destruct Hq as (r & <- & _). apply Qsquare_nonneg. }
    assert (H1 : 0 < (valQ (of_Z (Z.of_nat 0)) - (nq - 1) / 2)
                     * (valQ (of_Z (Z.of_nat 0)) - (nq - 1) / 2)).
    { change (valQ (of_Z (Z.of_nat 0))) with 0.
      setoid_replace ((0 - (nq - 1) / 2) * (0 - (nq - 1) / 2))
        with (((nq - 1) / 2) * ((nq - 1) / 2)) by ring.
      apply Qmult_lt_0_compat; apply Qlt_shift_div_l; lra. }
    lra. }
  split.
  - intros x Hx. rewrite map_map in Hx. apply in_map_iff in Hx.
    destruct Hx as (i & <- & _). cbn [fst].
    apply is_finite_max; [reflexivity | ].
    apply (V_finite _ (s * (nq + inject_Z (Z.of_nat i)) + b)), Hline.
    apply V_add; [exact Hn | apply V_of_Z].
  - intros x Hx. rewrite map_map in Hx. apply in_map_iff in Hx.
    destruct Hx as (i & <- & _). cbn [snd].
    apply is_finite_mul; [exact HSEE | ].
    apply Math_sqrt_finite.
    set (xi := nq + inject_Z (Z.of_nat i)).
    apply (finiteNonNeg_V _
             (1 + 1 / nq
              + ((xi - (nq - 1) / 2) * (xi - (nq - 1) / 2)) / (0 + xq))).
    + apply V_add.
      * apply V_add; [apply V_Fin | ].
        apply V_div; [apply V_Fin | exact Hn | lra].
      * apply V_div; [ | exact HxVar | lra].
        apply V_pow2, V_sub; [ | exact HxMean].
        apply V_add; [exact Hn | apply V_of_Z].
    + assert (H1 : 0 <= 1 / nq) by (apply Qle_shift_div_l; lra).
      assert (H2 : 0 <= (xi - (nq - 1) / 2) * (xi - (nq - 1) / 2) / (0 + xq)).
      { apply Qle_shift_div_l; [lra | ].
        assert (H3 := Qsquare_nonneg (xi - (nq - 1) / 2)). lra. }
      lra.
Qed.

(** X21 (finite regression projection).  With three buckets or more of
    finite history, every forecast point of
    the linear-regression projection has a finite demand and finite
    confidence bounds. *)
Lemma linear_regression_projection_finite sqrtQ aggregation metrics settings
    period :
  ForecastSettings.method settings = linear_regression ->
  allFinite (map AggregatedData.totalQuantity
                 (ProductAggregation.data aggregation)) ->
  (3 <= List.length (ProductAggregation.data aggregation))%nat ->
  Forall (fun p =>
            is_finite (ProjectionPoint.projectedDemand p) = true
            /\ is_finite (ProjectionPoint.confidenceLow p) = true
            /\ is_finite (ProjectionPoint.confidenceHigh p) = true)
    (ProductProjection.projectedData
       (generateProductProjection sqrtQ aggregation metrics settings period)).
Proof.
  intros Hm Hf Hlen. unfold generateProductProjection.
  cbn [ProductProjection.projectedData]. rewrite Hm.
  set (values := map AggregatedData.totalQuantity
                     (ProductAggregation.data aggregation)) in *.
  set (n := timeframeToPeriods (ForecastSettings.timeframe settings) period).
  set (futurePeriods :=
         generateFuturePeriods (ProductAggregation.lastOrderDate aggregation)
           n period).
  assert (Hlen' : (3 <= List.length values)%nat)
    by (unfold values; rewrite length_map; exact Hlen).
  destruct (linearRegressionForecast_finite sqrtQ values n Hf Hlen')
    as [Hfc Hse].
  destruct (linearRegressionForecast_lengths sqrtQ values n) as [Lf Ls].
  set (lr := linearRegressionForecast sqrtQ values n) in *.
  assert (Lp : List.length futurePeriods = n)
    by apply generateFuturePeriods_length.
  apply Forall_forall. intros pt Hpt. apply in_map_iff in Hpt.
  destruct Hpt as ([i p] & <- & Hip).
  apply in_combine_l in Hip. apply in_seq in Hip.
  assert (Hi : (i < n)%nat) by lia.
  assert (H1 : is_finite (nth i (LinearForecast.forecasts lr) NaN) = true)
    by (apply Hfc, nth_In; lia).
  assert (H2 : is_finite (nth i (LinearForecast.standardErrors lr) NaN) = true)
    by (apply Hse, nth_In; lia).
  destruct (calculateConfidenceInterval_finite _ _ (List.length values)
              (ForecastSettings.confidenceLevel settings) H1 H2) as [H3 H4].
  destruct (calculateConfidenceInterval _ _ _ _) as [low high].
  cbn [fst snd] in H3, H4.
  cbn [ProjectionPoint.projectedDemand ProjectionPoint.confidenceLow
         ProjectionPoint.confidenceHigh].
  repeat split; apply is_finite_round2; assumption.
Qed.

End RegressionFacts.

(* ================================================================== *)
(** * The buckets of a series *)
(* ================================================================== *)

Module BucketFacts.
Import Calendar CalendarFacts Aggregator PeriodFacts JsNumberFacts.
Import AggregatorFacts.
Local Open Scope Z_scope.

(** The orders of [os] that fall in the period starting at [k]. *)
Definition ordersIn (p : AggregationPeriod) (k : Z) (os : list OrderRecord.t)
  : list OrderRecord.t :=
  filter (fun o => getPeriodStart (OrderRecord.date o) p =? k) os.

(** What "Aggregate actual orders" does to the entry of an order's
    period. *)
Definition bump (d : AggregatedData.t) (o : OrderRecord.t)
  : AggregatedData.t :=
  AggregatedData.mk
    (AggregatedData.period d)
    (AggregatedData.periodLabel d)
    (AggregatedData.productId d)
    (AggregatedData.productName d)
    (num_add (AggregatedData.totalQuantity d) (OrderRecord.quantity o))
    (AggregatedData.orderCount d + 1)
    (AggregatedData.avgQuantityPerOrder d).

Definition bumpIf (p : AggregationPeriod) (k : Z) (d : AggregatedData.t)
    (o : OrderRecord.t) : AggregatedData.t :=
  if getPeriodStart (OrderRecord.date o) p =? k then bump d o else d.

Lemma map_unchanged {A} (f : A -> A) (l : list A) :
  (forall x, In x l -> f x = x) -> map f l = l.
Proof.
  intros H. rewrite <- (map_id l) at 2. apply map_ext_in. exact H.
Qed.

(** One order changes the entry of its period and no other. *)
Lemma addOrder_map p o :
  forall pd : PeriodMap,
    NoDup (JsMap.keys pd) ->
    addOrder p pd o
    = map (fun kd => (fst kd, bumpIf p (fst kd) (snd kd) o)) pd.
Proof.
  set (ks := getPeriodStart (OrderRecord.date o) p).
  induction pd as [ | [k d] pd IH]; intros Hnd; [reflexivity | ].
  cbn [JsMap.keys map fst] in Hnd. inversion Hnd as [ | ? ? Hk Hnd']; subst.
  specialize (IH Hnd').
  unfold addOrder in *. fold ks in IH |- *.
  cbn [JsMap.get map fst snd]. unfold bumpIf at 1. fold ks.
  destruct (Z.eqb_spec ks k) as [E | E].
  - cbn [JsMap.set]. rewrite (proj2 (Z.eqb_eq ks k) E).
    f_equal. symmetry. apply map_unchanged. intros [k' d'] Hin.
    cbn [fst snd]. unfold bumpIf. fold ks.
    destruct (Z.eqb_spec ks k') as [E' | E']; [ | reflexivity].
    exfalso. apply Hk. apply (in_map fst) in Hin. cbn [fst] in Hin.
    rewrite <- E', E in Hin. exact Hin.
  - destruct (JsMap.get Z.eqb ks pd) as [data | ] eqn:G.
    + cbn [JsMap.set]. rewrite (proj2 (Z.eqb_neq ks k) E).
      f_equal. exact IH.
    + f_equal. exact IH.
Qed.

Lemma addOrders_map p os :
  forall pd : PeriodMap,
    NoDup (JsMap.keys pd) ->
    fold_left (addOrder p) os pd
    = map (fun kd => (fst kd, fold_left (bumpIf p (fst kd)) os (snd kd))) pd.
Proof.
  induction os as [ | o os IH]; intros pd Hnd; cbn [fold_left].
  - symmetry. apply map_unchanged. intros [k d] _. reflexivity.
  - rewrite (addOrder_map p o pd Hnd). rewrite IH.
    + rewrite map_map. reflexivity.
    + unfold JsMap.keys. rewrite map_map. cbn [fst]. exact Hnd.
Qed.

Lemma bumpAll_fields p k os :
  forall d,
    let d' := fold_left (bumpIf p k) os d in
    AggregatedData.period d' = AggregatedData.period d
    /\ AggregatedData.periodLabel d' = AggregatedData.periodLabel d
    /\ AggregatedData.productId d' = AggregatedData.productId d
    /\ AggregatedData.productName d' = AggregatedData.productName d
    /\ AggregatedData.totalQuantity d'
       = fold_left num_add (quantities (ordersIn p k os))
           (AggregatedData.totalQuantity d)
    /\ AggregatedData.orderCount d'
       = AggregatedData.orderCount d
         + Z.of_nat (List.length (ordersIn p k os))
    /\ AggregatedData.avgQuantityPerOrder d'
       = AggregatedData.avgQuantityPerOrder d.
Proof.
  induction os as [ | o os IH]; intros d; cbn [fold_left ordersIn filter].
  - cbn. repeat split; lia.
  - destruct (IH (bumpIf p k d o)) as (H1 & H2 & H3 & H4 & H5 & H6 & H7).
    cbv zeta. rewrite H1, H2, H3, H4, H5, H6, H7.
    unfold bumpIf. fold (ordersIn p k os).
    destruct (getPeriodStart (OrderRecord.date o) p =? k).
    + cbn [bump AggregatedData.period AggregatedData.periodLabel
             AggregatedData.productId AggregatedData.productName
             AggregatedData.totalQuantity AggregatedData.orderCount
             AggregatedData.avgQuantityPerOrder quantities map fold_left
             List.length].
      repeat split. lia.
    + repeat split.
Qed.

(** The bucket of the period starting at [k], as the second loop leaves
    it. *)
Definition bucket (pid pname : string) (p : AggregationPeriod)
    (os : list OrderRecord.t) (k : Z) : AggregatedData.t :=
  let inK := ordersIn p k os in
  AggregatedData.mk k (formatPeriodLabel k p) pid pname
    (sum (quantities inK))
    (Z.of_nat (List.length inK))
    (if Z.of_nat (List.length inK) >? 0
     then num_div (sum (quantities inK)) (of_Z (Z.of_nat (List.length inK)))
     else Fin 0).

Lemma aggregateProduct_buckets orders p pid agg0 o rest :
  datesInRange orders ->
  ordersOf pid orders = o :: rest ->
  grouped pid o rest agg0 ->
  let i := periodIndex p (ProductAggregation.firstOrderDate agg0) in
  let j := periodIndex p (ProductAggregation.lastOrderDate agg0) in
  aggregateProduct orders p pid agg0
  = map (bucket pid (ProductAggregation.productName agg0) p (o :: rest))
        (map (periodStartOf p) (zrange i (Z.to_nat (j - i + 1)))).
Proof.
  intros Hrange Ho G i j.
  destruct (aggregateProduct_spec orders p pid agg0 o rest Hrange Ho G)
    as (Hij & Hfy & Hly & Hper & _).
  fold i j in Hper, Hij.
  assert (Hasc : ascending (map AggregatedData.period
                              (aggregateProduct orders p pid agg0)))
    by (rewrite Hper; apply starts_ascending).
  revert Hper Hasc.
  unfold aggregateProduct. fold (ordersOf pid orders). rewrite Ho.
  rewrite (generatePeriods_range p _ _ Hfy Hly). fold i j.
  set (n := Z.to_nat (j - i + 1)).
  rewrite initPeriods_eq by (cbn; apply starts_NoDup). cbn [app].
  set (pname := ProductAggregation.productName agg0).
  set (ks := map (periodStartOf p) (zrange i n)).
  rewrite addOrders_map.
  2:{ unfold JsMap.keys. rewrite map_map. cbn [fst]. rewrite map_id.
      apply starts_NoDup. }
  unfold JsMap.values. rewrite !map_map. cbn [fst snd].
  assert (E : map (fun k => withAverage
                              (fold_left (bumpIf p k) (o :: rest)
                                 (zeroData pid pname p k))) ks
              = map (bucket pid pname p (o :: rest)) ks).
  { apply map_ext. intros k.
    destruct (bumpAll_fields p k (o :: rest) (zeroData pid pname p k))
      as (H1 & H2 & H3 & H4 & H5 & H6 & H7).
    unfold withAverage, bucket. cbv zeta in *.
    rewrite H1, H2, H3, H4, H5, H6.
    cbn [zeroData AggregatedData.period AggregatedData.periodLabel
           AggregatedData.productId AggregatedData.productName
           AggregatedData.totalQuantity AggregatedData.orderCount].
    rewrite Z.add_0_l. reflexivity. }
  rewrite E. intros Hper Hasc.
  apply sortByPeriod_ascending.
  rewrite map_map. cbn [bucket AggregatedData.period]. rewrite map_id.
  apply starts_ascending.
Qed.

(** Every order of [os] lies in one period of a duplicate-free list [ks]
    that holds the period of each order. *)
Lemma ordersIn_partition p os :
  forall ks,
    NoDup ks ->
    (forall o, In o os -> In (getPeriodStart (OrderRecord.date o) p) ks) ->
    fold_right Z.add 0
      (map (fun k => Z.of_nat (List.length (ordersIn p k os))) ks)
    = Z.of_nat (List.length os).
Proof.
  assert (Hzero : forall (ks : list Z),
             fold_right Z.add 0 (map (fun _ => 0) ks) = 0).
  { induction ks as [ | k ks IH]; cbn [map fold_right]; lia. }
  assert (Hone : forall x (ks : list Z),
             NoDup ks -> In x ks ->
             fold_right Z.add 0
               (map (fun k => if x =? k then 1 else 0) ks) = 1).
  { intros x. induction ks as [ | k ks IH]; intros Hnd Hin; [destruct Hin | ].
    inversion Hnd as [ | ? ? Hk Hnd']; subst. cbn [map fold_right].
    destruct (Z.eqb_spec x k) as [E | E].
    - subst k. rewrite (map_ext_in _ (fun _ => 0)).
      + rewrite Hzero. lia.
      + intros k Hk'. destruct (Z.eqb_spec x k); [subst; contradiction | ].
        reflexivity.
    - destruct Hin as [Hin | Hin]; [congruence | ].
      rewrite (IH Hnd' Hin). lia. }
  assert (Hadd : forall (f g : Z -> Z) (ks : list Z),
             fold_right Z.add 0 (map (fun k => f k + g k) ks)
             = fold_right Z.add 0 (map f ks) + fold_right Z.add 0 (map g ks)).
  { intros f g. induction ks as [ | k ks IH]; cbn [map fold_right]; lia. }
  induction os as [ | o os IH]; intros ks Hnd Hin.
  - cbn [ordersIn filter List.length]. apply Hzero.
  - rewrite (map_ext _
               (fun k => (if getPeriodStart (OrderRecord.date o) p =? k
                          then 1 else 0)
                         + Z.of_nat (List.length (ordersIn p k os)))).
    + rewrite Hadd, (Hone _ ks Hnd (Hin o (or_introl eq_refl))).
      rewrite (IH ks Hnd) by (intros o' Ho'; apply Hin; right; exact Ho').
      cbn [List.length]. lia.
    + intros k. cbn [ordersIn filter].
      destruct (getPeriodStart (OrderRecord.date o) p =? k);
        cbn [List.length]; fold (ordersIn p k os); lia.
Qed.

End BucketFacts.

Module ProductFacts.
Import Calendar CalendarFacts Aggregator PeriodFacts JsNumberFacts.
Import AggregatorFacts BucketFacts.
Local Open Scope Z_scope.

Lemma filter_all {A} (f : A -> bool) (l : list A) :
  (forall x, In x l -> f x = true) -> filter f l = l.
Proof.
  induction l as [ | x l IH]; intros H; [reflexivity | ].
  cbn [filter]. rewrite (H x (or_introl eq_refl)).
  f_equal. apply IH. intros y Hy. apply H. right. exact Hy.
Qed.

(** The period of every order of a product is one of the periods from
    that of its first order date to that of its last. *)
Lemma order_periods_in_range orders p pid agg0 o rest :
  datesInRange orders ->
  ordersOf pid orders = o :: rest ->
  grouped pid o rest agg0 ->
  let i := periodIndex p (ProductAggregation.firstOrderDate agg0) in
  let j := periodIndex p (ProductAggregation.lastOrderDate agg0) in
  forall o', In o' (o :: rest) ->
             In (getPeriodStart (OrderRecord.date o') p)
                (map (periodStartOf p) (zrange i (Z.to_nat (j - i + 1)))).
Proof.
  intros Hrange Ho G i j o' Ho'. destruct G.
  assert (Hy : 100 <= getFullYear (OrderRecord.date o')).
  { rewrite <- Ho in Ho'. apply ordersOf_In in Ho'.
    unfold datesInRange in Hrange. rewrite Forall_forall in Hrange.
    apply Hrange. tauto. }
  rewrite (getPeriodStart_index p _ Hy). apply in_map, zrange_In.
  rewrite Forall_forall in g_bounds0. specialize (g_bounds0 o' Ho').
  assert (H1 := periodIndex_mono p _ _ (proj1 g_bounds0)).
  assert (H2 := periodIndex_mono p _ _ (proj2 g_bounds0)).
  fold i in H1. fold j in H2. lia.
Qed.

Lemma periodStartOf_inj p i j : periodStartOf p i = periodStartOf p j -> i = j.
Proof.
  intros H. destruct (Z.lt_trichotomy i j) as [L | [E | L]]; [ | exact E | ].
  - assert (H' := periodStartOf_lt p i j L). lia.
  - assert (H' := periodStartOf_lt p j i L). lia.
Qed.

(** ** The keys of the mapping *)

Lemma keys_set_absent (k : string) (v : ProductAggregation.t) (m : ProductMap) :
  JsMap.get String.eqb k m = None ->
  JsMap.keys (JsMap.set String.eqb k v m) = JsMap.keys m ++ [k].
Proof.
  intros G. rewrite (JsMapFacts.set_absent String.eqb k v m G).
  unfold JsMap.keys. rewrite map_app. reflexivity.
Qed.

Lemma keys_set_present (k : string) (v v' : ProductAggregation.t)
    (m : ProductMap) :
  JsMap.get String.eqb k m = Some v ->
  JsMap.keys (JsMap.set String.eqb k v' m) = JsMap.keys m.
Proof.
  intros G.
  destruct (JsMapFacts.set_present String.eqb String.eqb_eq k v v' m G)
    as (l1 & l2 & E1 & E2).
  rewrite E2, E1. unfold JsMap.keys. rewrite !map_app. reflexivity.
Qed.

(** The product ids of [orders], each once, in the order of their first
    appearance. *)
Definition productIds (orders : list OrderRecord.t) : list string :=
  rev (nodup string_dec (rev (map OrderRecord.productId orders))).

Lemma productIds_In pid orders :
  In pid (productIds orders) <-> In pid (map OrderRecord.productId orders).
Proof.
  unfold productIds. rewrite <- in_rev, nodup_In, <- in_rev. reflexivity.
Qed.

Lemma productIds_snoc orders o :
  productIds (orders ++ [o])
  = if in_dec string_dec (OrderRecord.productId o) (productIds orders)
    then productIds orders
    else productIds orders ++ [OrderRecord.productId o].
Proof.
  unfold productIds at 1. rewrite map_app, rev_app_distr.
  cbn [map rev app nodup].
  destruct (in_dec string_dec (OrderRecord.productId o)
              (rev (map OrderRecord.productId orders))) as [H | H];
    destruct (in_dec string_dec (OrderRecord.productId o)
                (productIds orders)) as [H' | H'].
  - reflexivity.
  - exfalso. apply H'.
    apply (proj2 (productIds_In _ _)), (proj2 (in_rev _ _)). exact H.
  - exfalso. apply H.
    apply (proj1 (in_rev _ _)), (proj1 (productIds_In _ _)). exact H'.
  - cbn [rev]. reflexivity.
Qed.

Lemma groupOrders_keys orders :
  JsMap.keys (groupOrders orders) = productIds orders.
Proof.
  induction orders as [ | o orders IH] using rev_ind; [reflexivity | ].
  unfold groupOrders in *. rewrite fold_left_app. cbn [fold_left].
  set (m := fold_left groupOrder orders []) in *.
  rewrite productIds_snoc. unfold groupOrder.
  destruct (JsMap.get String.eqb (OrderRecord.productId o) m) as [a | ] eqn:G.
  - rewrite (keys_set_present _ a _ m G).
    destruct (in_dec string_dec _ _) as [H | H]; [exact IH | ].
    exfalso. apply H. rewrite <- IH.
    destruct (in_dec string_dec (OrderRecord.productId o) (JsMap.keys m))
      as [H' | H']; [exact H' | ].
    apply (JsMapFacts.get_none_notin String.eqb String.eqb_eq) in H'.
    congruence.
  - rewrite (keys_set_absent _ _ m G).
    destruct (in_dec string_dec _ _) as [H | H]; [ | rewrite IH; reflexivity].
    exfalso. rewrite <- IH in H.
    apply (JsMapFacts.get_none_notin String.eqb String.eqb_eq) in G.
    contradiction.
Qed.

Lemma aggregateOrderData_keys orders period :
  JsMap.keys (aggregateOrderData orders period) = productIds orders.
Proof.
  rewrite <- groupOrders_keys. unfold aggregateOrderData, JsMap.keys.
  rewrite map_map. apply map_ext. intros [k v]. reflexivity.
Qed.

Lemma aggregateOrderData_get_none orders period pid :
  JsMap.get String.eqb pid (aggregateOrderData orders period) = None ->
  ordersOf pid orders = [].
Proof.
  intros G.
  apply (JsMapFacts.get_none_notin String.eqb String.eqb_eq) in G.
  rewrite aggregateOrderData_keys, productIds_In in G.
  unfold ordersOf.
  destruct (filter _ orders) as [ | o rest] eqn:E; [reflexivity | ].
  exfalso. apply G.
  assert (Ho : In o (filter (fun o0 => (OrderRecord.productId o0 =? pid)%string)
                        orders)) by (rewrite E; left; reflexivity).
  apply filter_In in Ho. destruct Ho as [Ho Hp]. apply String.eqb_eq in Hp.
  rewrite <- Hp. apply in_map. exact Ho.
Qed.

(** ** Future periods *)

Lemma generateFuturePeriods_loop_starts p n :
  forall i,
    generateFuturePeriods_loop n (periodStartOf p i) p
    = map (fun k => (periodStartOf p k,
                     formatPeriodLabel (periodStartOf p k) p))
          (zrange (i + 1) n).
Proof.
  induction n as [ | n IH]; intros i; [reflexivity | ].
  cbn [generateFuturePeriods_loop zrange map]. rewrite advance_start.
  f_equal. apply IH.
Qed.

End ProductFacts.

(* ================================================================== *)
(** * Aggregation: periods, buckets, products *)
(* ================================================================== *)

Import BucketFacts ProductFacts.
Local Open Scope Z_scope.

(** [getProductAggregation] of [src/lib/aggregator.ts]. *)
Definition getProductAggregation (aggregatedData : ProductMap)
    (productId : string) : option ProductAggregation.t :=
  JsMap.get String.eqb productId aggregatedData.



(** X2 (bucket contents).  In the series of a product, the bucket of a
    period counts exactly the orders of the product whose date falls in
    that period: [orderCount] is their number, [totalQuantity] the sum of
    their quantities in the order of the list, and [avgQuantityPerOrder]
    their quotient, or 0 for a bucket without orders.  The bucket carries
    the product's id and name and the label of its period. *)
Theorem bucket_contents orders period pid agg d :
  datesInRange orders ->
  JsMap.get String.eqb pid (aggregateOrderData orders period) = Some agg ->
  In d (ProductAggregation.data agg) ->
  let inBucket :=
    filter (fun o => getPeriodStart (OrderRecord.date o) period
                     =? AggregatedData.period d)
           (ordersOf pid orders) in
  AggregatedData.productId d = pid
  /\ AggregatedData.productName d = ProductAggregation.productName agg
  /\ AggregatedData.periodLabel d
     = formatPeriodLabel (AggregatedData.period d) period
  /\ AggregatedData.orderCount d = Z.of_nat (List.length inBucket)
  /\ AggregatedData.totalQuantity d = sum (quantities inBucket)
  /\ AggregatedData.avgQuantityPerOrder d
     = match inBucket with
       | [] => Fin 0
       | _ :: _ =>
           num_div (sum (quantities inBucket))
                   (of_Z (Z.of_nat (List.length inBucket)))
       end.
Proof.
  intros Hr Hget Hd.
  destruct (aggregateOrderData_get _ _ _ _ Hget)
    as (agg0 & o & rest & _ & Ho & G & _ & En & _ & _ & _ & _ & _ & Ed).
  rewrite Ed, (aggregateProduct_buckets orders period pid agg0 o rest Hr Ho G)
    in Hd.
  apply in_map_iff in Hd. destruct Hd as (k & <- & _).
  rewrite Ho, En.
  cbn [bucket AggregatedData.productId AggregatedData.productName
         AggregatedData.periodLabel AggregatedData.orderCount
         AggregatedData.totalQuantity AggregatedData.avgQuantityPerOrder
         AggregatedData.period].
  fold (ordersIn period k (o :: rest)).
  repeat split.
  destruct (ordersIn period k (o :: rest)) as [ | x l]; reflexivity.
Qed.

Lemma bucket_contents_witness :
  let agg := lookupProduct "SKU-1" (aggregateOrderData sampleOrders monthly) in
  Forall (fun d =>
            AggregatedData.productId d = "SKU-1"%string
            /\ AggregatedData.orderCount d
               = Z.of_nat
                   (List.length
                      (filter (fun o =>
                                 getPeriodStart (OrderRecord.date o) monthly
                                 =? AggregatedData.period d)
                              (ordersOf "SKU-1" sampleOrders))))
         (ProductAggregation.data agg).
Proof.
  intros agg. apply Forall_forall. intros d Hd.
  assert (Hget : JsMap.get String.eqb "SKU-1"%string
                   (aggregateOrderData sampleOrders monthly) = Some agg)
    by (vm_compute; reflexivity).
  destruct (bucket_contents sampleOrders monthly "SKU-1" agg d
              sampleOrders_inRange Hget Hd) as (H1 & _ & _ & H4 & _).
  split; [exact H1 | exact H4].
Defined.





(** X5 (products of the mapping).  The keys of the mapping are the
    product ids of the orders, each once, in the order in which the
    products first appear in the order list. *)
Theorem products_in_order_of_first_appearance orders period :
  JsMap.keys (aggregateOrderData orders period)
  = rev (nodup string_dec (rev (map OrderRecord.productId orders)))
  /\ NoDup (JsMap.keys (aggregateOrderData orders period))
  /\ (forall pid,
        In pid (JsMap.keys (aggregateOrderData orders period))
        <-> exists o, In o orders /\ OrderRecord.productId o = pid).
Proof.
  rewrite aggregateOrderData_keys. unfold productIds.
  split; [reflexivity | ]. split.
  - apply NoDup_rev, NoDup_nodup.
  - intros pid. fold (productIds orders). rewrite productIds_In, in_map_iff.
    split; intros (o & H1 & H2); exists o; tauto.
Qed.

(** X6 (lookup of a product).  [getProductAggregation] finds no series
    exactly for the product ids that no order carries.  The series it
    finds for a product carries that id, the name of the first order of
    the product in the list, and the number of its orders. *)
Theorem product_lookup orders period pid :
  match getProductAggregation (aggregateOrderData orders period) pid with
  | None => ordersOf pid orders = []
  | Some agg =>
      exists o rest,
        ordersOf pid orders = o :: rest
        /\ ProductAggregation.productId agg = pid
        /\ ProductAggregation.productName agg = OrderRecord.productName o
        /\ ProductAggregation.totalOrders agg
           = Z.of_nat (List.length (o :: rest))
  end.
Proof.
  unfold getProductAggregation.
  destruct (JsMap.get String.eqb pid (aggregateOrderData orders period))
    as [agg | ] eqn:Hget.
  - destruct (aggregateOrderData_get _ _ _ _ Hget)
      as (agg0 & o & rest & _ & Ho & G & Ei & En & _ & Et & _).
    exists o, rest. destruct G. repeat split; congruence.
  - apply (aggregateOrderData_get_none orders period pid Hget).
Qed.

(** Consecutive period starts: each is one bucket width after the one
    before. *)
Lemma starts_consecutive period i n k a b :
  nth_error (map (periodStartOf period) (zrange i n)) k = Some a ->
  nth_error (map (periodStartOf period) (zrange i n)) (S k) = Some b ->
  a < b /\ oneWidthLater period a b.
Proof.
  intros Ha Hb.
  assert (Hk : (S k < n)%nat).
  { rewrite <- (zrange_length i n), <- (length_map (periodStartOf period)).
    apply nth_error_Some. congruence. }
  rewrite nth_error_map, zrange_nth in Ha by lia.
  rewrite nth_error_map, zrange_nth in Hb by lia.
  cbn [option_map] in Ha, Hb.
  assert (Ea : a = periodStartOf period (i + Z.of_nat k)) by congruence.
  assert (Eb : b = periodStartOf period (i + Z.of_nat k + 1)).
  { replace (i + Z.of_nat k + 1) with (i + Z.of_nat (S k)) by lia.
    congruence. }
  rewrite Ea, Eb.
  split; [apply periodStartOf_lt; lia | apply oneWidthLater_starts].
Qed.



(* ================================================================== *)
(** * Statistics of finite series *)
(* ================================================================== *)

Module StatsFacts.
Import RegressionFacts.
Local Open Scope Q_scope.

Lemma Qsum_ext {A} (f g : A -> Q) (l : list A) :
  (forall x, In x l -> f x == g x) -> Qsum (map f l) == Qsum (map g l).
Proof.
  induction l as [ | y l IH]; intros H; cbn [map].
  - reflexivity.
  - rewrite !Qsum_cons, (H y (or_introl eq_refl)), IH; [reflexivity | ].
    intros x Hx. apply H. right. exact Hx.
Qed.

Lemma Qsum_scale {A} (c : Q) (f : A -> Q) (l : list A) :
  Qsum (map (fun x => c * f x) l) == c * Qsum (map f l).
Proof.
  induction l as [ | y l IH]; cbn [map].
  - rewrite !Qsum_nil. ring.
  - rewrite !Qsum_cons, IH. ring.
Qed.

Lemma Qsum_plus {A} (f g : A -> Q) (l : list A) :
  Qsum (map (fun x => f x + g x) l) == Qsum (map f l) + Qsum (map g l).
Proof.
  induction l as [ | y l IH]; cbn [map].
  - rewrite !Qsum_nil. ring.
  - rewrite !Qsum_cons, IH. ring.
Qed.

Lemma inject_Z_succ (n : nat) :
  inject_Z (Z.of_nat (S n)) == inject_Z (Z.of_nat n) + 1.
Proof.
  rewrite Nat2Z.inj_succ. unfold Z.succ. rewrite inject_Z_plus. reflexivity.
Qed.

Lemma Qsum_bounds {A} (g : A -> Q) (lo hi : Q) (l : list A) :
  (forall x, In x l -> lo <= g x <= hi) ->
  inject_Z (Z.of_nat (List.length l)) * lo <= Qsum (map g l)
  /\ Qsum (map g l) <= inject_Z (Z.of_nat (List.length l)) * hi.
Proof.
  induction l as [ | y l IH]; intros H; cbn [map List.length].
  - rewrite Qsum_nil. cbn. split; ring_simplify; apply Qle_refl.
  - rewrite Qsum_cons, inject_Z_succ.
    destruct (H y (or_introl eq_refl)) as [H1 H2].
    destruct IH as [H3 H4]; [intros x Hx; apply H; right; exact Hx | ].
    split; ring_simplify; lra.
Qed.

Lemma map_valQ_Fin (qs : list Q) : map valQ (map Fin qs) = qs.
Proof. rewrite map_map. cbn [valQ]. apply map_id. Qed.

(** The mean of finite numbers lies between any two bounds of them. *)
Lemma mean_bounds (qs : list Q) (lo hi : Q) :
  qs <> [] ->
  (forall q, In q qs -> lo <= q <= hi) ->
  exists m, mean (map Fin qs) = Fin m /\ lo <= m <= hi.
Proof.
  intros Hne Hb.
  assert (Hne' : map Fin qs <> []) by (destruct qs; [congruence | discriminate]).
  destruct (V_mean (map Fin qs) (allFinite_Fin qs) Hne') as (m & E & Hm).
  exists m. split; [exact E | ].
  rewrite Hm, map_valQ_Fin, length_map.
  assert (Hn := inject_Z_length_pos qs Hne).
  destruct (Qsum_bounds (fun q => q) lo hi qs Hb) as [H1 H2].
  rewrite map_id in H1, H2.
  split.
  - apply Qle_shift_div_l; [exact Hn | ]. lra.
  - apply Qle_shift_div_r; [exact Hn | ]. lra.
Qed.

Lemma length_ge_2 {A} (l : list A) : (2 <= List.length l)%nat -> l <> [].
Proof. destruct l; cbn; [lia | congruence]. Qed.

Lemma count_gt_1 (n : nat) :
  (2 <= n)%nat -> 0 < inject_Z (Z.of_nat n) - 1.
Proof.
  intros H.
  assert (H' : inject_Z 2 <= inject_Z (Z.of_nat n)) by (rewrite <- Zle_Qle; lia).
  change (inject_Z 2) with 2 in H'. lra.
Qed.

(** The variance of finite numbers is finite and not negative, and it is
    0 only for equal numbers. *)
Lemma variance_finite (qs : list Q) :
  exists v,
    variance (map Fin qs) = Fin v /\ 0 <= v
    /\ (v == 0 -> forall a b, In a qs -> In b qs -> a == b).
Proof.
  destruct (Nat.lt_ge_cases (List.length qs) 2) as [L | L].
  - exists 0. unfold variance. rewrite length_map.
    apply Nat.ltb_lt in L. rewrite L. split; [reflexivity | ].
    split; [apply Qle_refl | ]. intros _ a b Ha Hb.
    apply Nat.ltb_lt in L.
    destruct qs as [ | x [ | y qs]]; [destruct Ha | | cbn in L; lia].
    destruct Ha as [<- | []], Hb as [<- | []]. reflexivity.
  - assert (L' : (2 <= List.length (map Fin qs))%nat)
      by (rewrite length_map; exact L).
    assert (Hne := length_ge_2 _ L').
    set (m := Qsum (map valQ (map Fin qs))
              / inject_Z (Z.of_nat (List.length (map Fin qs)))).
    assert (Hm : V (mean (map Fin qs)) m) by (apply V_mean; [apply allFinite_Fin | exact Hne]).
    destruct (V_variance (map Fin qs) m (allFinite_Fin qs) L' Hm)
      as (v & Ev & Hv).
    rewrite map_map in Hv. cbn [valQ] in Hv.
    set (S := Qsum (map (fun q => (q - m) * (q - m)) qs)) in *.
    assert (Hn := count_gt_1 _ L').
    assert (HS : 0 <= S).
    { apply Qsum_nonneg. intros q Hq. apply in_map_iff in Hq.
      destruct Hq as (x & <- & _). apply Qsquare_nonneg. }
    exists v. split; [exact Ev | ]. split.
    + rewrite Hv. apply Qle_shift_div_l; lra.
    + intros Hz a b Ha Hb.
      assert (HS0 : S == 0).
      { rewrite Hv in Hz.
        assert (E : S == (S / (inject_Z (Z.of_nat (List.length (map Fin qs))) - 1))
                         * (inject_Z (Z.of_nat (List.length (map Fin qs))) - 1))
          by (field; lra).
        rewrite E, Hz. ring. }
      assert (Hterm : forall q, In q qs -> q == m).
      { intros q Hq.
        assert (Hq0 : (q - m) * (q - m) == 0).
        { apply (Qsum_zero_terms (map (fun q => (q - m) * (q - m)) qs)).
          - intros t Ht. apply in_map_iff in Ht.
            destruct Ht as (y & <- & _). apply Qsquare_nonneg.
          - exact HS0.
          - apply in_map_iff. exists q. split; [reflexivity | exact Hq]. }
        apply Qmult_integral in Hq0. lra. }
      rewrite (Hterm a Ha), (Hterm b Hb). reflexivity.
Qed.

Lemma constant_Fin (c : Q) (qs : list Q) :
  (forall q, In q qs -> q == c) -> constant c (map Fin qs).
Proof.
  intros H x Hx. apply in_map_iff in Hx. destruct Hx as (q & <- & Hq).
  exists q. split; [reflexivity | apply H, Hq].
Qed.

(** ** The fitted line, on the rationals *)

Section Fit.
Variable values : list number.

Definition xbar : Q :=
  Qsum (map valQ (indices values))
  / inject_Z (Z.of_nat (List.length (indices values))).

Definition ybar : Q :=
  Qsum (map valQ values) / inject_Z (Z.of_nat (List.length values)).

Definition Sxy : Q :=
  Qsum (map (fun p => (valQ (fst p) - xbar) * (valQ (snd p) - ybar))
            (combine (indices values) values)).

Definition Sxx : Q :=
  Qsum (map (fun p => (valQ (fst p) - xbar) * (valQ (fst p) - xbar))
            (combine (indices values) values)).

Definition slopeQ : Q := if Qeq_bool Sxx 0 then 0 else Sxy / Sxx.

Definition interceptQ : Q := ybar - slopeQ * xbar.

Definition SSres : Q :=
  Qsum (map (fun p =>
               (valQ (snd p) - (slopeQ * valQ (fst p) + interceptQ))
               * (valQ (snd p) - (slopeQ * valQ (fst p) + interceptQ)))
            (combine (indices values) values)).

Definition SStot : Q :=
  Qsum (map (fun y => (valQ y - ybar) * (valQ y - ybar)) values).

Definition r2Q : Q := if Qeq_bool SStot 0 then 0 else 1 - SSres / SStot.

End Fit.

Lemma combine_map_r {A B C} (f : B -> C) (l : list A) :
  forall l' : list B,
    combine l (map f l') = map (fun p => (fst p, f (snd p))) (combine l l').
Proof.
  induction l as [ | x l IH]; intros [ | y l']; cbn [map combine];
    try reflexivity.
  f_equal. apply IH.
Qed.

Lemma combine_swap {A B} (l : list A) :
  forall l' : list B,
    combine l' l = map (fun p => (snd p, fst p)) (combine l l').
Proof.
  induction l as [ | x l IH]; intros [ | y l']; cbn [map combine];
    try reflexivity.
  f_equal. apply IH.
Qed.

(** What [linearRegression] computes on at least two finite numbers. *)
Lemma linearRegression_Q values :
  allFinite values -> (2 <= List.length values)%nat ->
  let regression := linearRegression values in
  V (RegressionResult.slope regression) (slopeQ values)
  /\ V (RegressionResult.intercept regression) (interceptQ values)
  /\ (forall x q,
        V x q ->
        V (RegressionResult.predict regression x)
          (slopeQ values * q + interceptQ values))
  /\ RegressionResult.rSquared regression
     = Math_max (Fin 0) (norm (r2Q values)).
Proof.
  intros Hf Hlen regression. unfold regression, linearRegression.
  assert (El : (List.length values <? 2)%nat = false)
    by (apply Nat.ltb_ge; exact Hlen).
  rewrite El. cbv zeta.
  assert (Hne : values <> []) by (apply length_ge_2, Hlen).
  assert (Hnx : indices values <> []).
  { intros E. apply (f_equal (@List.length number)) in E.
    rewrite indices_length in E. cbn in E. lia. }
  assert (Hxm := V_mean (indices values) (indices_finite values) Hnx).
  assert (Hym := V_mean values Hf Hne).
  fold (xbar values) in Hxm. fold (ybar values) in Hym.
  destruct Hxm as (xm & Exm & Hxm). destruct Hym as (ym & Eym & Hym).
  rewrite Exm, Eym.
  rewrite (fold_left_ext _
             (fun '(n, d) p =>
                (num_add n (num_mul (num_sub (fst p) (Fin xm))
                                    (num_sub (snd p) (Fin ym))),
                 num_add d (num_mul (num_sub (fst p) (Fin xm))
                                    (num_sub (fst p) (Fin xm))))))
    by (intros [n d] [x y]; reflexivity).
  rewrite fold_pair_split.
  set (pairs := combine (indices values) values).
  assert (Hp : forall p, In p pairs ->
                         V (fst p) (valQ (fst p)) /\ V (snd p) (valQ (snd p))).
  { intros [x y] H. cbn [fst snd]. split; apply V_valQ.
    - apply (indices_finite values), (in_combine_l _ _ _ _ H).
    - apply Hf, (in_combine_r _ _ _ _ H). }
  assert (Vxm : V (Fin xm) (xbar values)) by (exists xm; split; [reflexivity | exact Hxm]).
  assert (Vym : V (Fin ym) (ybar values)) by (exists ym; split; [reflexivity | exact Hym]).
  assert (Hnum :
            V (fold_left
                 (fun n p =>
                    num_add n (num_mul (num_sub (fst p) (Fin xm))
                                       (num_sub (snd p) (Fin ym))))
                 pairs (Fin 0)) (Sxy values)).
  { eapply V_compat.
    - apply (V_fold (fun p => num_mul (num_sub (fst p) (Fin xm))
                                      (num_sub (snd p) (Fin ym)))
               (fun p => (valQ (fst p) - xbar values)
                         * (valQ (snd p) - ybar values)) pairs).
      + intros p H. destruct (Hp p H) as [H1 H2].
        apply V_mul; apply V_sub; assumption.
      + apply V_Fin.
    - unfold Sxy. fold pairs. ring. }
  assert (Hden :
            V (fold_left
                 (fun d p =>
                    num_add d (num_mul (num_sub (fst p) (Fin xm))
                                       (num_sub (fst p) (Fin xm))))
                 pairs (Fin 0)) (Sxx values)).
  { eapply V_compat.
    - apply (V_fold (fun p => num_mul (num_sub (fst p) (Fin xm))
                                      (num_sub (fst p) (Fin xm)))
               (fun p => (valQ (fst p) - xbar values)
                         * (valQ (fst p) - xbar values)) pairs).
      + intros p H. destruct (Hp p H) as [H1 H2].
        apply V_mul; apply V_sub; assumption.
      + apply V_Fin.
    - unfold Sxx. fold pairs. ring. }
  destruct Hnum as (num & -> & Hnum). destruct Hden as (den & -> & Hden).
  set (slope := if num_neqb (Fin den) (Fin 0)
                then num_div (Fin num) (Fin den) else Fin 0).
  assert (Hslope : V slope (slopeQ values)).
  { unfold slope, slopeQ, num_neqb. cbn [num_eqb].
    rewrite (Qeq_bool_compat den (Sxx values) 0 0 Hden (Qeq_refl 0)).
    destruct (Qeq_bool (Sxx values) 0) eqn:E; cbn [negb].
    - apply V_Fin.
    - apply Qeq_bool_false in E.
      apply V_div.
      + exists num. split; [reflexivity | exact Hnum].
      + exists den. split; [reflexivity | exact Hden].
      + exact E. }
  set (intercept := num_sub (Fin ym) (num_mul slope (Fin xm))).
  assert (Hint : V intercept (interceptQ values)).
  { unfold intercept, interceptQ. apply V_sub; [exact Vym | ].
    apply V_mul; assumption. }
  assert (Hpred : forall x q, V x q ->
                    V (num_add (num_mul slope x) intercept)
                      (slopeQ values * q + interceptQ values)).
  { intros x q Hx. apply V_add; [apply V_mul; assumption | exact Hint]. }
  cbn [RegressionResult.slope RegressionResult.intercept
         RegressionResult.predict RegressionResult.rSquared].
  split; [exact Hslope | ]. split; [exact Hint | ]. split; [exact Hpred | ].
  f_equal.
  (* the residual sum of squares *)
  assert (Hres :
            V (fold_left
                 (fun sum '(y, p) => num_add sum (Math_pow2 (num_sub y p)))
                 (combine values
                    (map (fun x => num_add (num_mul slope x) intercept)
                         (indices values)))
                 (Fin 0)) (SSres values)).
  { rewrite combine_map_r, (combine_swap (indices values) values).
    fold pairs. rewrite map_map. cbn [fst snd].
    rewrite (fold_left_ext _
               (fun sum q =>
                  num_add sum (Math_pow2 (num_sub (fst q) (snd q)))))
      by (intros a [y p]; reflexivity).
    rewrite <- (fold_left_map
                  (fun sum q =>
                     num_add sum (Math_pow2 (num_sub (fst q) (snd q))))
                  (fun p : number * number =>
                     (snd p, num_add (num_mul slope (fst p)) intercept))).
    cbn [fst snd].
    eapply V_compat.
    - apply (V_fold
               (fun p : number * number =>
                  Math_pow2
                    (num_sub (snd p)
                             (num_add (num_mul slope (fst p)) intercept)))
               (fun p =>
                  (valQ (snd p)
                   - (slopeQ values * valQ (fst p) + interceptQ values))
                  * (valQ (snd p)
                     - (slopeQ values * valQ (fst p) + interceptQ values)))
               pairs).
      + intros p H. destruct (Hp p H) as [H1 H2].
        apply V_pow2, V_sub; [exact H2 | apply Hpred, H1].
      + apply V_Fin.
    - unfold SSres. fold pairs. ring. }
  assert (Htot :
            V (fold_left
                 (fun sum y => num_add sum (Math_pow2 (num_sub y (Fin ym))))
                 values (Fin 0)) (SStot values)).
  { eapply V_compat.
    - apply (V_fold (fun y => Math_pow2 (num_sub y (Fin ym)))
               (fun y => (valQ y - ybar values) * (valQ y - ybar values))
               values).
      + intros y H. apply V_pow2, V_sub; [apply V_valQ, Hf, H | exact Vym].
      + apply V_Fin.
    - unfold SStot. ring. }
  destruct Hres as (res & -> & Hres). destruct Htot as (tot & -> & Htot).
  unfold r2Q, num_neqb. cbn [num_eqb].
  rewrite (Qeq_bool_compat tot (SStot values) 0 0 Htot (Qeq_refl 0)).
  destruct (Qeq_bool (SStot values) 0) eqn:E; cbn [negb].
  - reflexivity.
  - apply Qeq_bool_false in E.
    assert (Ht : ~ tot == 0) by (rewrite Htot; exact E).
    rewrite (num_div_V (Fin res) (Fin tot) res tot (V_Fin res) (V_Fin tot) Ht).
    rewrite (num_sub_V (Fin 1) (norm (res / tot)) 1 (res / tot)
               (V_Fin 1) (V_norm _)).
    apply norm_eq. rewrite Hres, Htot. reflexivity.
Qed.

End StatsFacts.

Module FitFacts.
Import RegressionFacts StatsFacts.
Local Open Scope Q_scope.

Lemma Qsum_squares_nonneg {A} (f : A -> Q) (l : list A) :
  0 <= Qsum (map (fun x => f x * f x) l).
Proof.
  apply Qsum_nonneg. intros q Hq. apply in_map_iff in Hq.
  destruct Hq as (x & <- & _). apply Qsquare_nonneg.
Qed.

Lemma SSres_nonneg values : 0 <= SSres values.
Proof. unfold SSres. apply Qsum_squares_nonneg. Qed.

Lemma SStot_nonneg values : 0 <= SStot values.
Proof. unfold SStot. apply Qsum_squares_nonneg. Qed.

(** The indices 0 and 1 cannot both be the mean of the indices. *)
Lemma Sxx_pos values : (2 <= List.length values)%nat -> 0 < Sxx values.
Proof.
  intros Hlen. unfold Sxx. generalize (xbar values) as x. intros x.
  destruct values as [ | v0 [ | v1 rest]]; cbn in Hlen; try lia.
  unfold indices. cbn [List.length seq map combine fst].
  rewrite !Qsum_cons.
  change (valQ (of_Z (Z.of_nat 0))) with 0.
  change (valQ (of_Z (Z.of_nat 1))) with 1.
  match goal with
  | |- _ < _ + (_ + Qsum (map ?f ?l)) =>
      assert (H0 : 0 <= Qsum (map f l))
  end.
  { apply (Qsum_squares_nonneg (fun p : number * number => valQ (fst p) - x)). }
  assert (H1 := Qsquare_nonneg (x - (1 # 2))).
  assert (E : (0 - x) * (0 - x) + (1 - x) * (1 - x)
              == 2 * ((x - (1 # 2)) * (x - (1 # 2))) + (1 # 2)) by ring.
  lra.
Qed.

(** ** A series that lies on a line *)

Section OnALine.
Variables a b : Q.
Variable n : nat.
Hypothesis Hn : (2 <= n)%nat.

Definition xi (i : nat) : Q := inject_Z (Z.of_nat i).

Definition lineValues : list number :=
  map (fun i => Fin (a + b * xi i)) (seq 0 n).

Lemma lineValues_length : List.length lineValues = n.
Proof. unfold lineValues. rewrite length_map, length_seq. reflexivity. Qed.

Lemma lineValues_pairs :
  combine (indices lineValues) lineValues
  = map (fun i => (of_Z (Z.of_nat i), Fin (a + b * xi i))) (seq 0 n).
Proof.
  unfold indices. rewrite lineValues_length. unfold lineValues.
  generalize (seq 0 n) as l.
  induction l as [ | i l IH]; cbn [map combine]; [reflexivity | ].
  f_equal. exact IH.
Qed.

Let N : Q := inject_Z (Z.of_nat n).

Lemma N_pos : 0 < N.
Proof.
  unfold N. change 0 with (inject_Z 0). rewrite <- Zlt_Qlt. lia.
Qed.

Lemma xbar_line : xbar lineValues == Qsum (map xi (seq 0 n)) / N.
Proof.
  unfold xbar, indices. rewrite lineValues_length, length_map, length_seq.
  rewrite map_map. reflexivity.
Qed.

Lemma ybar_line : ybar lineValues == a + b * xbar lineValues.
Proof.
  rewrite xbar_line. unfold ybar. rewrite lineValues_length.
  unfold lineValues. rewrite map_map. cbn [valQ].
  rewrite (Qsum_plus (fun _ => a) (fun i => b * xi i)).
  rewrite (Qsum_scale b xi).
  rewrite (Qsum_const (fun _ : nat => a) a) by (intros; reflexivity).
  rewrite length_seq. fold N.
  assert (H := N_pos). field. lra.
Qed.

Lemma Sxx_line :
  Sxx lineValues
  == Qsum (map (fun i => (xi i - xbar lineValues) * (xi i - xbar lineValues))
               (seq 0 n)).
Proof.
  unfold Sxx. rewrite lineValues_pairs, map_map. reflexivity.
Qed.

Lemma Sxy_line : Sxy lineValues == b * Sxx lineValues.
Proof.
  rewrite Sxx_line. unfold Sxy. rewrite lineValues_pairs, map_map.
  cbn [fst snd valQ]. rewrite <- Qsum_scale.
  apply Qsum_ext. intros i _. rewrite ybar_line.
  change (valQ (of_Z (Z.of_nat i))) with (xi i). ring.
Qed.

Lemma slopeQ_line : slopeQ lineValues == b.
Proof.
  assert (H : 0 < Sxx lineValues)
    by (apply Sxx_pos; rewrite lineValues_length; exact Hn).
  unfold slopeQ.
  destruct (Qeq_bool (Sxx lineValues) 0) eqn:E.
  - apply Qeq_bool_iff in E. lra.
  - rewrite Sxy_line. field. lra.
Qed.

Lemma interceptQ_line : interceptQ lineValues == a.
Proof. unfold interceptQ. rewrite slopeQ_line, ybar_line. ring. Qed.

Lemma SSres_line : SSres lineValues == 0.
Proof.
  unfold SSres. rewrite lineValues_pairs, map_map. cbn [fst snd valQ].
  rewrite (Qsum_ext _ (fun _ => 0)).
  - rewrite (Qsum_const (fun _ : nat => 0) 0) by (intros; reflexivity). ring.
  - intros i _. rewrite slopeQ_line, interceptQ_line.
    change (valQ (of_Z (Z.of_nat i))) with (xi i). ring.
Qed.

Lemma SStot_line : SStot lineValues == b * b * Sxx lineValues.
Proof.
  rewrite Sxx_line. unfold SStot, lineValues. rewrite map_map. cbn [valQ].
  rewrite <- Qsum_scale. apply Qsum_ext. intros i _.
  fold lineValues. rewrite ybar_line. ring.
Qed.

Lemma r2Q_line : r2Q lineValues == if Qeq_bool b 0 then 0 else 1.
Proof.
  assert (H : 0 < Sxx lineValues)
    by (apply Sxx_pos; rewrite lineValues_length; exact Hn).
  unfold r2Q.
  destruct (Qeq_bool b 0) eqn:Eb.
  - apply Qeq_bool_iff in Eb.
    assert (E : Qeq_bool (SStot lineValues) 0 = true).
    { apply Qeq_bool_iff. rewrite SStot_line, Eb. ring. }
    rewrite E. reflexivity.
  - apply Qeq_bool_false in Eb.
    assert (E : Qeq_bool (SStot lineValues) 0 = false).
    { apply Qeq_bool_false. rewrite SStot_line. intros Hz.
      apply Qmult_integral in Hz. destruct Hz as [Hz | Hz]; [ | lra].
      apply Qmult_integral in Hz. tauto. }
    rewrite E, SSres_line. unfold Qdiv. ring.
Qed.

End OnALine.

(** ** Outliers *)

Lemma filter_none {A} (l : list A) : filter (fun _ => false) l = [].
Proof. induction l as [ | x l IH]; [reflexivity | exact IH]. Qed.

Definition toOutlier (avg std : number) (item : Z * number) : OutlierData.t :=
  let z := zScore (snd item) avg std in
  OutlierData.mk (fst item) (fst item) (snd item) z
    (if num_gtb z (Fin 0) then spike else drop).

Definition isExtreme (avg std zScoreThreshold : number) (item : Z * number)
  : bool :=
  num_gtb (Math_abs (zScore (snd item) avg std)) zScoreThreshold.

(** The loop of [detectOutliers] keeps, in their order, the items whose
    z-score passes the threshold. *)
Lemma outliers_loop (avg std zScoreThreshold : number) data :
  forall acc,
    fold_left
      (fun outliers '(period, quantity) =>
         let z := zScore quantity avg std in
         if num_gtb (Math_abs z) zScoreThreshold
         then outliers ++
              [OutlierData.mk period period quantity z
                 (if num_gtb z (Fin 0) then spike else drop)]
         else outliers)
      data acc
    = acc ++ map (toOutlier avg std)
                 (filter (isExtreme avg std zScoreThreshold) data).
Proof.
  induction data as [ | [period quantity] data IH]; intros acc;
    cbn [fold_left filter map].
  - rewrite app_nil_r. reflexivity.
  - rewrite IH. unfold isExtreme at 2. cbn [snd]. cbv zeta.
    destruct (num_gtb (Math_abs (zScore quantity avg std)) zScoreThreshold).
    + cbn [map]. rewrite <- app_assoc. reflexivity.
    + reflexivity.
Qed.

Lemma detectOutliers_filter sqrtQ data zScoreThreshold :
  let avg := mean (map snd data) in
  let std := stdDeviation sqrtQ (map snd data) in
  detectOutliers sqrtQ data zScoreThreshold
  = if num_eqb std (Fin 0) then []
    else map (toOutlier avg std)
             (filter (isExtreme avg std zScoreThreshold) data).
Proof.
  intros avg std. unfold detectOutliers. fold avg std.
  destruct (num_eqb std (Fin 0)); [reflexivity | ].
  apply (outliers_loop avg std zScoreThreshold data []).
Qed.

End FitFacts.

(* ================================================================== *)
(** * Metrics: mean, variance, regression, outliers *)
(* ================================================================== *)

Import StatsFacts FitFacts.
Local Open Scope Q_scope.






(** X11 (range of R²).  For every series of finite quantities the R² of
    the regression, which is the [trendStrength] of the metrics, is a
    finite number from 0 to 1. *)
Theorem r_squared_range (quantities : list Q) :
  exists r,
    RegressionResult.rSquared (linearRegression (map Fin quantities)) = Fin r
    /\ 0 <= r <= 1.
Proof.
  destruct (Nat.lt_ge_cases (List.length (map Fin quantities)) 2) as [L | L].
  - exists 0. unfold linearRegression. apply Nat.ltb_lt in L. rewrite L.
    split; [reflexivity | lra].
  - destruct (linearRegression_Q _ (allFinite_Fin quantities) L)
      as (_ & _ & _ & Hr).
    rewrite Hr. set (values := map Fin quantities).
    assert (H1 := SSres_nonneg values). assert (H2 := SStot_nonneg values).
    assert (Hle : r2Q values <= 1).
    { unfold r2Q. destruct (Qeq_bool (SStot values) 0) eqn:E; [lra | ].
      apply Qeq_bool_false in E.
      assert (H3 : 0 <= SSres values / SStot values).
      { apply Qle_shift_div_l; lra. }
      lra. }
    unfold norm. cbn [Math_max num_ltb].
    destruct (Qltb 0 (Qred (r2Q values))) eqn:E.
    + exists (Qred (r2Q values)). split; [reflexivity | ].
      apply Qltb_lt in E. rewrite Qred_correct in *. lra.
    + exists 0. split; [reflexivity | lra].
Qed.

(** X12 (outliers).  For finite quantities, a square root that is never
    negative and a threshold that is not negative: the outliers reported
    are the items whose z-score [(quantity - mean) / stdDeviation] exceeds
    the threshold in absolute value, in the order of the data and with
    their period and quantity; a spike lies above the mean of the series
    and a drop below it. *)
Theorem outliers_are_extreme_items (sqrtQ : Q -> Q) (data : list (Z * Q))
    (threshold : Q) :
  (forall x, 0 <= x -> 0 <= sqrtQ x) ->
  0 <= threshold ->
  let items := map (fun d => (fst d, Fin (snd d))) data in
  let avg := mean (map snd items) in
  let std := stdDeviation sqrtQ (map snd items) in
  let outliers := detectOutliers sqrtQ items (Fin threshold) in
  map (fun o => (OutlierData.period o, OutlierData.quantity o)) outliers
  = filter (fun item =>
              negb (num_eqb std (Fin 0))
              && num_gtb (Math_abs (num_div (num_sub (snd item) avg) std))
                         (Fin threshold))
           items
  /\ Forall (fun o =>
               OutlierData.date o = OutlierData.period o
               /\ OutlierData.zScore o
                  = num_div (num_sub (OutlierData.quantity o) avg) std
               /\ match OutlierData.type o with
                  | spike => num_gtb (OutlierData.quantity o) avg = true
                  | drop => num_ltb (OutlierData.quantity o) avg = true
                  end)
            outliers.
Proof.
  intros Hsqrt Hthr items avg std outliers.
  unfold outliers. rewrite detectOutliers_filter. fold avg std.
  destruct (num_eqb std (Fin 0)) eqn:Estd; cbn [negb andb].
  - split; [ | constructor]. cbn [map]. symmetry. apply filter_none.
  - assert (Ez : forall q, zScore q avg std = num_div (num_sub q avg) std).
    { intros q. unfold zScore. rewrite Estd. reflexivity. }
    split.
    + rewrite map_map. cbn [toOutlier OutlierData.period OutlierData.quantity].
      rewrite (map_ext _ (fun x => x)) by (intros [p q]; reflexivity).
      rewrite map_id. apply filter_ext. intros [p q]. unfold isExtreme.
      rewrite Ez. reflexivity.
    + apply Forall_forall. intros o Ho. apply in_map_iff in Ho.
      destruct Ho as ([p q] & <- & Hin). apply filter_In in Hin.
      destruct Hin as [Hin Hext]. unfold isExtreme in Hext. cbn [snd] in Hext.
      cbn [toOutlier OutlierData.date OutlierData.period OutlierData.zScore
             OutlierData.quantity OutlierData.type fst snd].
      split; [reflexivity | ]. split; [apply Ez | ].
      rewrite Ez in *.
      (* the quantity, the mean and the standard deviation are finite *)
      unfold items in Hin. apply in_map_iff in Hin.
      destruct Hin as ([p' a] & [= <- <-] & Hd).
      assert (Hq : map snd items = map Fin (map snd data)).
      { unfold items. rewrite !map_map. reflexivity. }
      assert (Hne : map snd data <> []).
      { intros E. apply (in_map snd) in Hd. rewrite E in Hd. destruct Hd. }
      assert (Hne' : map Fin (map snd data) <> [])
        by (destruct (map snd data); [congruence | discriminate]).
      destruct (V_mean _ (allFinite_Fin (map snd data)) Hne')
        as (m & Em & _).
      destruct (variance_finite (map snd data)) as (v & Ev & Hv & _).
      unfold avg, std, stdDeviation in *. rewrite Hq in *.
      rewrite Em in *. rewrite Ev in *. cbn [Math_sqrt] in *.
      assert (Ev0 : Qltb v 0 = false) by (apply Qltb_ge; exact Hv).
      rewrite Ev0 in *. unfold norm in *.
      set (s := Qred (sqrtQ (Qred v))) in *.
      assert (Hs : 0 <= s).
      { unfold s. rewrite Qred_correct. apply Hsqrt.
        rewrite Qred_correct. exact Hv. }
      cbn [num_eqb] in Estd. apply Qeq_bool_false in Estd.
      assert (Hs' : 0 < s) by (apply Qle_lteq in Hs; destruct Hs as [H | H];
                                [exact H | exfalso; apply Estd; symmetry; exact H]).
      assert (Ediv : num_div (num_sub (Fin a) (Fin m)) (Fin s)
                     = norm ((a - m) / s)).
      { apply num_div_V; [apply V_sub; apply V_Fin | apply V_Fin | exact Estd]. }
      rewrite Ediv in *.
      unfold norm in *. cbn [Math_abs num_gtb num_ltb norm] in *.
      set (z := (a - m) / s) in *.
      apply Qltb_lt in Hext. rewrite !Qred_correct in Hext.
      assert (Hz : z * s == a - m) by (unfold z; field; exact Estd).
      destruct (Qltb 0 (Qred z)) eqn:E.
      * apply Qltb_lt in E. rewrite Qred_correct in E. apply Qltb_lt.
        assert (H : 0 < z * s) by (apply Qmult_lt_0_compat; assumption).
        lra.
      * apply Qltb_ge in E. rewrite Qred_correct in E. apply Qltb_lt.
        assert (Hneg : z < 0).
        { apply Qle_lteq in E. destruct E as [E | E]; [exact E | ].
          rewrite E in Hext. cbn in Hext. lra. }
        assert (H : 0 < (- z) * s) by (apply Qmult_lt_0_compat; lra).
        lra.
Qed.

Lemma outliers_are_extreme_items_witness :
  Forall (fun o => match OutlierData.type o with
                   | spike =>
                       num_gtb (OutlierData.quantity o)
                         (mean (map Fin [1; 1; 1; 1; 1; 1; 1; 1; 1; 100]))
                       = true
                   | drop =>
                       num_ltb (OutlierData.quantity o)
                         (mean (map Fin [1; 1; 1; 1; 1; 1; 1; 1; 1; 100]))
                       = true
                   end)
    (detectOutliers SqrtModel.sqrtQ
       (map (fun d => (fst d, Fin (snd d)))
            [(0%Z, 1); (1%Z, 1); (2%Z, 1); (3%Z, 1); (4%Z, 1); (5%Z, 1);
             (6%Z, 1); (7%Z, 1); (8%Z, 1); (9%Z, 100)])
       (Fin 2.5)).
Proof.
  assert (Hthr : 0 <= 2.5) by discriminate.
  destruct (outliers_are_extreme_items SqrtModel.sqrtQ
              [(0%Z, 1); (1%Z, 1); (2%Z, 1); (3%Z, 1); (4%Z, 1); (5%Z, 1);
               (6%Z, 1); (7%Z, 1); (8%Z, 1); (9%Z, 100)] 2.5
              SqrtModel.sqrtQ_nonneg Hthr) as [_ H].
  apply Forall_forall. intros o Ho. rewrite Forall_forall in H.
  destruct (H o Ho) as (_ & _ & H3). exact H3.
Defined.

(* ================================================================== *)
(** * Seasonality ([detectSeasonality] of [src/lib/metrics.ts]) *)
(* ================================================================== *)

Module Seasonality.
Import Calendar Metrics.

(** [monthlyData[month].push(quantity)].  The index is a month number,
    which [getMonth] takes from 0 to 11 ([getMonth_range] below), so it is
    always an index of the twelve arrays; outside of them the arrays are
    left as they are. *)
Fixpoint pushAt (month : nat) (quantity : number)
    (monthlyData : list (list number)) {struct monthlyData}
  : list (list number) :=
  match monthlyData with
  | [] => []
  | m :: rest =>
      match month with
      | O => (m ++ [quantity]) :: rest
      | S month' => m :: pushAt month' quantity rest
      end
  end.

Definition detectSeasonality (data : list (Z * number))
  : option (list number) :=
  if (List.length data <? 12)%nat then None
  else
    let monthlyData :=
      fold_left
        (fun monthlyData '(period, quantity) =>
           let month := getMonth period in
           pushAt (Z.to_nat month) quantity monthlyData)
        data (repeat [] 12) in
    if existsb (fun m => (List.length m =? 0)%nat) monthlyData then None
    else
      let monthlyAverages := map (fun m => mean m) monthlyData in
      let overallAverage := mean monthlyAverages in
      if num_eqb overallAverage (Fin 0) then None
      else
        let seasonalIndices :=
          map (fun avg => num_div avg overallAverage) monthlyAverages in
        let indexVariance := variance seasonalIndices in
        if num_ltb indexVariance (Fin 0.01) then None
        else Some seasonalIndices.

(** The [seasonalityIndex] of [calculateProductMetrics]: seasonality is
    looked for in monthly data only. *)
Definition seasonalityIndex (aggregation : ProductAggregation.t)
    (period : AggregationPeriod) : option (list number) :=
  let dataForOutliers :=
    map (fun d => (AggregatedData.period d, AggregatedData.totalQuantity d))
        (ProductAggregation.data aggregation) in
  match period with
  | monthly => detectSeasonality dataForOutliers
  | _ => None
  end.

End Seasonality.

Module SeasonalityFacts.
Import Calendar CalendarFacts Metrics Seasonality StatsFacts.
Local Open Scope Q_scope.

Lemma getMonth_range t : (0 <= getMonth t <= 11)%Z.
Proof. apply MonthFromDay_range. Qed.

Lemma pushAt_length k q l : List.length (pushAt k q l) = List.length l.
Proof.
  revert k. induction l as [ | m l IH]; intros [ | k]; cbn [pushAt List.length];
    try reflexivity.
  f_equal. apply IH.
Qed.

Lemma pushAt_nth k q l :
  forall m,
    nth m (pushAt k q l) []
    = if ((m =? k) && (m <? List.length l))%nat
      then nth m l [] ++ [q] else nth m l [].
Proof.
  revert k. induction l as [ | x l IH]; intros k m.
  - cbn [pushAt List.length]. destruct m; rewrite andb_false_r; reflexivity.
  - destruct k as [ | k], m as [ | m]; cbn [pushAt nth List.length];
      try reflexivity.
    rewrite IH. reflexivity.
Qed.

(** The month of an item, as an index of [monthlyData]. *)
Definition monthOf (item : Z * number) : nat := Z.to_nat (getMonth (fst item)).

Definition inMonth (m : nat) (data : list (Z * number)) : list number :=
  map snd (filter (fun item => (monthOf item =? m)%nat) data).

Lemma monthlyData_loop data :
  forall acc,
    let monthlyData :=
      fold_left
        (fun monthlyData '(period, quantity) =>
           let month := getMonth period in
           pushAt (Z.to_nat month) quantity monthlyData)
        data acc in
    List.length monthlyData = List.length acc
    /\ forall m, (m < List.length acc)%nat ->
                 nth m monthlyData [] = nth m acc [] ++ inMonth m data.
Proof.
  induction data as [ | [period quantity] data IH]; intros acc;
    cbn [fold_left].
  - split; [reflexivity | ]. intros m _. unfold inMonth. cbn [filter map].
    rewrite app_nil_r. reflexivity.
  - cbv zeta in *.
    destruct (IH (pushAt (Z.to_nat (getMonth period)) quantity acc))
      as [H1 H2].
    rewrite pushAt_length in H1, H2. split; [exact H1 | ].
    intros m Hm. rewrite (H2 m Hm), pushAt_nth.
    apply Nat.ltb_lt in Hm. rewrite Hm, andb_true_r.
    unfold inMonth. cbn [filter].
    change (monthOf (period, quantity)) with (Z.to_nat (getMonth period)).
    rewrite (Nat.eqb_sym (Z.to_nat (getMonth period)) m).
    destruct (m =? Z.to_nat (getMonth period))%nat; cbn [map snd].
    + rewrite <- app_assoc. reflexivity.
    + reflexivity.
Qed.

Lemma list_by_nth {A} (d : A) (l : list A) :
  l = map (fun i => nth i l d) (seq 0 (List.length l)).
Proof.
  induction l as [ | x l IH]; [reflexivity | ].
  cbn [List.length seq map nth]. f_equal.
  rewrite <- seq_shift, map_map. exact IH.
Qed.

Lemma nth_repeat_nil {A} (n m : nat) : nth m (repeat (@nil A) n) [] = [].
Proof.
  revert m. induction n as [ | n IH]; intros [ | m]; cbn [repeat nth];
    try reflexivity.
  apply IH.
Qed.

(** The twelve arrays after the loop. *)
Lemma monthlyData_eq data :
  fold_left
    (fun monthlyData '(period, quantity) =>
       let month := getMonth period in
       pushAt (Z.to_nat month) quantity monthlyData)
    data (repeat [] 12)
  = map (fun m => inMonth m data) (seq 0 12).
Proof.
  destruct (monthlyData_loop data (repeat [] 12)) as [H1 H2].
  cbv zeta in *. rewrite repeat_length in H1, H2.
  rewrite (list_by_nth [] (fold_left _ data _)), H1.
  apply map_ext_in. intros m Hm. apply in_seq in Hm.
  rewrite H2 by lia. rewrite nth_repeat_nil. reflexivity.
Qed.

(** The ratios of finite numbers to their mean have mean 1. *)
Lemma mean_of_ratios (avgs : list number) (o : Q) :
  allFinite avgs -> avgs <> [] ->
  mean avgs = Fin o -> ~ o == 0 ->
  V (mean (map (fun avg => num_div avg (Fin o)) avgs)) 1
  /\ allFinite (map (fun avg => num_div avg (Fin o)) avgs).
Proof.
  intros Hf Hne Eo Ho.
  set (idx := map (fun avg => num_div avg (Fin o)) avgs).
  assert (Hidx : forall a, In a avgs -> V (num_div a (Fin o)) (valQ a / o)).
  { intros a Ha. apply V_div; [apply V_valQ, Hf, Ha | apply V_Fin | exact Ho]. }
  assert (Hfi : allFinite idx).
  { intros x Hx. unfold idx in Hx. apply in_map_iff in Hx.
    destruct Hx as (a & <- & Ha). apply (V_finite _ _ (Hidx a Ha)). }
  split; [ | exact Hfi].
  assert (Hni : idx <> []).
  { unfold idx. destruct avgs; [congruence | discriminate]. }
  apply (V_compat _ _ _ (V_mean idx Hfi Hni)).
  destruct (V_mean avgs Hf Hne) as (o' & Eo' & Ho').
  rewrite Eo in Eo'. injection Eo' as <-.
  unfold idx. rewrite length_map, map_map.
  rewrite (Qsum_ext _ (fun a => / o * valQ a)).
  - rewrite Qsum_scale.
    assert (Hn := inject_Z_length_pos avgs Hne).
    set (n := inject_Z (Z.of_nat (List.length avgs))) in *.
    set (S := Qsum (map valQ avgs)) in *.
    assert (HS : S == o * n) by (rewrite Ho'; field; lra).
    rewrite HS. field. split; [exact Ho | lra].
  - intros a Ha. apply (V_unique (num_div a (Fin o))).
    + apply V_valQ. apply (V_finite _ _ (Hidx a Ha)).
    + apply (V_compat _ _ _ (Hidx a Ha)). unfold Qdiv. ring.
Qed.

End SeasonalityFacts.

Import Seasonality SeasonalityFacts.


(** Twelve months of 2024, with the quantities 1 to 12. *)
Definition sampleYear : list (Z * Q) :=
  [ ((19723 * msPerDay)%Z, 1); ((19754 * msPerDay)%Z, 2);
    ((19783 * msPerDay)%Z, 3); ((19814 * msPerDay)%Z, 4);
    ((19844 * msPerDay)%Z, 5); ((19875 * msPerDay)%Z, 6);
    ((19905 * msPerDay)%Z, 7); ((19936 * msPerDay)%Z, 8);
    ((19967 * msPerDay)%Z, 9); ((19997 * msPerDay)%Z, 10);
    ((20028 * msPerDay)%Z, 11); ((20058 * msPerDay)%Z, 12) ].

Definition sampleIndices : list number :=
  match detectSeasonality (map (fun d => (fst d, Fin (snd d))) sampleYear) with
  | Some indices => indices
  | None => []
  end.




(* ================================================================== *)
(** * Forecasts on well-formed input *)
(* ================================================================== *)

Module ForecastFacts.
Import RegressionFacts StatsFacts FitFacts.
Local Open Scope Q_scope.

(** ** Critical values *)

(** The critical values of a row-by-row decreasing table, at two degrees
    of freedom. *)
Lemma getTCritical_loop_decreasing (v1 v2 v3 v4 v5 v6 v7 lo hi : Q)
    (df1 df2 : Q) :
  v7 <= v6 -> v6 <= v5 -> v5 <= v4 -> v4 <= v3 -> v3 <= v2 -> v2 <= v1 ->
  lo <= v7 -> v1 <= hi ->
  df1 <= df2 ->
  let table := [ (Fin 5, Fin v1); (Fin 10, Fin v2); (Fin 20, Fin v3);
                 (Fin 30, Fin v4); (Fin 50, Fin v5); (Fin 100, Fin v6);
                 (Inf true, Fin v7) ] in
  let t := fun df =>
             match getTCritical_loop table df (map fst table) with
             | Some t => t
             | None => TTable_get table (Inf true)
             end in
  exists t1 t2,
    t (Fin df1) = Fin t1 /\ t (Fin df2) = Fin t2
    /\ t2 <= t1 /\ lo <= t2 /\ t1 <= hi.
Proof.
  intros H76 H65 H54 H43 H32 H21 Hlo Hhi Hdf table t.
  unfold t, table. cbn [map fst getTCritical_loop num_leb].
  destruct (Qle_bool df1 5) eqn:A1;
    [apply Qle_bool_iff in A1 | apply Qle_bool_false in A1];
  (destruct (Qle_bool df1 10) eqn:A2;
    [apply Qle_bool_iff in A2 | apply Qle_bool_false in A2]);
  (destruct (Qle_bool df1 20) eqn:A3;
    [apply Qle_bool_iff in A3 | apply Qle_bool_false in A3]);
  (destruct (Qle_bool df1 30) eqn:A4;
    [apply Qle_bool_iff in A4 | apply Qle_bool_false in A4]);
  (destruct (Qle_bool df1 50) eqn:A5;
    [apply Qle_bool_iff in A5 | apply Qle_bool_false in A5]);
  (destruct (Qle_bool df1 100) eqn:A6;
    [apply Qle_bool_iff in A6 | apply Qle_bool_false in A6]);
  try (exfalso; lra);
  (destruct (Qle_bool df2 5) eqn:B1;
    [apply Qle_bool_iff in B1 | apply Qle_bool_false in B1]);
  try (exfalso; lra);
  (destruct (Qle_bool df2 10) eqn:B2;
    [apply Qle_bool_iff in B2 | apply Qle_bool_false in B2]);
  try (exfalso; lra);
  (destruct (Qle_bool df2 20) eqn:B3;
    [apply Qle_bool_iff in B3 | apply Qle_bool_false in B3]);
  try (exfalso; lra);
  (destruct (Qle_bool df2 30) eqn:B4;
    [apply Qle_bool_iff in B4 | apply Qle_bool_false in B4]);
  try (exfalso; lra);
  (destruct (Qle_bool df2 50) eqn:B5;
    [apply Qle_bool_iff in B5 | apply Qle_bool_false in B5]);
  try (exfalso; lra);
  (destruct (Qle_bool df2 100) eqn:B6;
    [apply Qle_bool_iff in B6 | apply Qle_bool_false in B6]);
  try (exfalso; lra);
  cbn [TTable_get find fst snd num_eqb Bool.eqb];
  eexists; eexists; (split; [reflexivity | ]); (split; [reflexivity | ]);
  repeat split; lra.
Qed.

(** The table that [getTCritical] reads for a confidence level. *)
Lemma getTCritical_table confidence :
  exists table,
    In table (map snd T_CRITICAL)
    /\ forall df,
         getTCritical confidence df
         = match getTCritical_loop table df (map fst table) with
           | Some t => t
           | None => TTable_get table (Inf true)
           end.
Proof.
  unfold getTCritical.
  destruct confidence as [c | s | ]; cbn [T_CRITICAL_get];
    try (eexists; split; [ | intros df; reflexivity]; cbn; tauto).
  unfold T_CRITICAL. cbn [find fst snd].
  repeat match goal with
         | |- context [Qeq_bool c ?l] => destruct (Qeq_bool c l)
         end;
    (eexists; split; [ | intros df; reflexivity]; cbn; tauto).
Qed.

(** Every critical value lies between the least and the greatest entry
    of the tables, whatever the degrees of freedom are. *)
Lemma getTCritical_range confidence df :
  exists t, getTCritical confidence df = Fin t /\ 1.645 <= t <= 4.032.
Proof.
  destruct (getTCritical_table confidence) as (table & Hin & E).
  rewrite E. cbn in Hin.
  destruct Hin as [<- | [<- | [<- | []]]];
    cbn [map fst getTCritical_loop];
    repeat match goal with
           | |- context [num_leb df ?k] => destruct (num_leb df k)
           end;
    cbn [TTable_get find fst snd num_eqb Bool.eqb];
    eexists; (split; [reflexivity | ]); split; discriminate.
Qed.

(** ** Confidence intervals *)

Lemma calculateConfidenceInterval_brackets (f se : Q) (n : nat) confidence :
  0 <= f -> 0 <= se ->
  exists low high,
    calculateConfidenceInterval (Fin f) (Fin se) n confidence
    = (Fin low, Fin high)
    /\ 0 <= low /\ low <= f /\ f <= high
    /\ (se == 0 -> low == f /\ high == f)
    /\ (0 < low -> f - low == high - f).
Proof.
  intros Hf Hse. unfold calculateConfidenceInterval.
  destruct (getTCritical_range confidence
              (Math_max (Fin 1) (num_sub (of_Z (Z.of_nat n)) (Fin 1))))
    as (t & -> & Ht).
  cbn [num_mul num_sub num_add norm Math_max num_ltb]. unfold norm.
  assert (Hm : 0 <= t * se) by (apply Qmult_le_0_compat; lra).
  set (m := Qred (t * se)).
  assert (Em : m == t * se) by apply Qred_correct.
  destruct (Qltb 0 (Qred (f - m))) eqn:E.
  - apply Qltb_lt in E. rewrite Qred_correct in E.
    exists (Qred (f - m)), (Qred (f + m)).
    split; [reflexivity | ]. rewrite !Qred_correct.
    split; [lra | ]. split; [lra | ]. split; [lra | ]. split.
    + intros Hz. assert (Hm0 : m == 0) by (rewrite Em, Hz; ring).
      split; lra.
    + intros _. ring.
  - apply Qltb_ge in E. rewrite Qred_correct in E.
    exists 0, (Qred (f + m)).
    split; [reflexivity | ]. rewrite !Qred_correct.
    split; [lra | ]. split; [lra | ]. split; [lra | ]. split.
    + intros Hz. assert (Hm0 : m == 0) by (rewrite Em, Hz; ring).
      split; lra.
    + intros Hz. lra.
Qed.

(** ** Rounding to two decimals *)

Lemma round2_monotone (a b : Q) :
  a <= b ->
  exists a' b',
    round2 (Fin a) = Fin a' /\ round2 (Fin b) = Fin b' /\ a' <= b'.
Proof.
  intros H.
  assert (Hn : notAbove (Fin a) (Fin b)).
  { left. cbn [num_leb]. apply Qle_bool_iff. exact H. }
  apply round2_notAbove in Hn. rewrite !round2_Fin in *.
  eexists. eexists. split; [reflexivity | ]. split; [reflexivity | ].
  destruct Hn as [Hn | [Hn _]]; [ | discriminate].
  unfold norm in Hn. cbn [num_leb] in Hn. apply Qle_bool_iff in Hn. exact Hn.
Qed.

Lemma round2_zero : round2 (Fin 0) = Fin 0.
Proof. reflexivity. Qed.

(** ** Weighted sums *)

Lemma Qsum_weighted_bounds {A} (g w : A -> Q) (lo hi : Q) (l : list A) :
  (forall p, In p l -> lo <= g p <= hi /\ 0 <= w p) ->
  lo * Qsum (map w l) <= Qsum (map (fun p => g p * w p) l)
  /\ Qsum (map (fun p => g p * w p) l) <= hi * Qsum (map w l).
Proof.
  induction l as [ | p l IH]; intros H; cbn [map].
  - rewrite !Qsum_nil. split; ring_simplify; apply Qle_refl.
  - rewrite !Qsum_cons.
    destruct (H p (or_introl eq_refl)) as [[H1 H2] H3].
    destruct IH as [H4 H5]; [intros x Hx; apply H; right; exact Hx | ].
    assert (H6 : lo * w p <= g p * w p) by (apply Qmult_le_compat_r; assumption).
    assert (H7 : g p * w p <= hi * w p) by (apply Qmult_le_compat_r; assumption).
    split; ring_simplify; lra.
Qed.

Section WithSqrt.
Variable sqrtQ : Q -> Q.
Hypothesis sqrtQ_nonneg : forall x, 0 <= x -> 0 <= sqrtQ x.
Hypothesis sqrtQ_pos : forall x, 0 < x -> 0 < sqrtQ x.

Lemma Math_sqrt_nonneg v :
  0 <= v -> exists s, Math_sqrt sqrtQ (Fin v) = Fin s /\ 0 <= s.
Proof.
  intros H. cbn [Math_sqrt].
  assert (E : Qltb v 0 = false) by (apply Qltb_ge; exact H).
  rewrite E. exists (Qred (sqrtQ (Qred v))). split; [reflexivity | ].
  rewrite Qred_correct. apply sqrtQ_nonneg. rewrite Qred_correct. exact H.
Qed.

(** The window of a moving average, on the rationals. *)
Lemma slice_last_Fin (qs : list Q) (n : Z) :
  slice_last (map Fin qs) n = map Fin (slice_last qs n).
Proof.
  unfold slice_last. rewrite length_map. apply skipn_map.
Qed.

Lemma simpleMovingAverage_wellformed (qs : list Q) (periods : Z) (lo hi : Q) :
  qs <> [] -> (1 <= periods)%Z ->
  (forall q, In q qs -> lo <= q <= hi) ->
  exists f se,
    simpleMovingAverage sqrtQ (map Fin qs) periods = (Fin f, Fin se)
    /\ lo <= f <= hi /\ 0 <= se.
Proof.
  intros Hne Hp Hb. unfold simpleMovingAverage.
  assert (El : (List.length (map Fin qs) =? 0)%nat = false).
  { rewrite length_map. destruct qs; [congruence | reflexivity]. }
  rewrite El, length_map, slice_last_Fin.
  destruct (slice_last_window qs periods Hne Hp) as (Hn & Hw & Hin).
  set (n := Z.min periods (Z.of_nat (List.length qs))) in *.
  set (ws := slice_last qs n) in *.
  destruct (mean_bounds ws lo hi Hw) as (f & Ef & Hf).
  { intros q Hq. apply Hb, Hin, Hq. }
  destruct (variance_finite ws) as (v & Ev & Hv & _).
  unfold stdDeviation. rewrite Ef, Ev.
  destruct (Math_sqrt_nonneg v Hv) as (s & -> & Hs).
  destruct (sqrt_window_size sqrtQ sqrtQ_pos n Hn) as (r & -> & Hr).
  exists f, (Qred (s / r)). split; [ | split; [exact Hf | ]].
  - f_equal. apply num_div_V; try apply V_Fin. lra.
  - rewrite Qred_correct. apply Qle_shift_div_l; lra.
Qed.

Lemma weightedMovingAverage_wellformed (qs : list Q) (periods : Z)
    (lo hi : Q) :
  qs <> [] -> (1 <= periods)%Z ->
  (forall q, In q qs -> lo <= q <= hi) ->
  exists f se,
    weightedMovingAverage sqrtQ (map Fin qs) periods = (Fin f, Fin se)
    /\ lo <= f <= hi /\ 0 <= se.
Proof.
  intros Hne Hp Hb. unfold weightedMovingAverage.
  assert (El : (List.length (map Fin qs) =? 0)%nat = false).
  { rewrite length_map. destruct qs; [congruence | reflexivity]. }
  rewrite El, length_map, slice_last_Fin. cbv zeta.
  destruct (slice_last_window qs periods Hne Hp) as (Hn & Hw & Hin).
  set (n := Z.min periods (Z.of_nat (List.length qs))) in *.
  set (ws := slice_last qs n) in *.
  set (recent := map Fin ws).
  set (k := List.length recent).
  set (W := fun i : nat => of_Z (Z.of_nat i + 1)).
  set (weights := map W (seq 0 k)).
  set (wq := map (fun i => inject_Z (Z.of_nat i + 1)) (seq 0 k)).
  assert (Hk : seq 0 k <> []).
  { unfold k, recent. destruct ws; [congruence | discriminate]. }
  assert (Htw : 0 < Qsum wq).
  { apply Qsum_pos.
    - unfold wq. destruct (seq 0 k); [congruence | discriminate].
    - apply weights_positive. }
  set (totalWeight := fold_left (fun sum w => num_add sum w) weights (Fin 0)).
  assert (HTW : V totalWeight (Qsum wq)).
  { unfold totalWeight, weights.
    rewrite <- (fold_left_map (fun sum w => num_add sum w) W).
    eapply V_compat.
    - apply (V_fold W (fun i => inject_Z (Z.of_nat i + 1)) (seq 0 k)).
      + intros i _. apply V_of_Z.
      + apply V_Fin.
    - fold wq. ring. }
  set (pairs := combine recent weights).
  assert (Hpairs : forall p, In p pairs ->
                     V (fst p) (valQ (fst p)) /\ V (snd p) (valQ (snd p))
                     /\ lo <= valQ (fst p) <= hi /\ 0 <= valQ (snd p)).
  { intros [v w] H. cbn [fst snd].
    assert (Hv := in_combine_l _ _ _ _ H).
    assert (Hw' := in_combine_r _ _ _ _ H).
    unfold recent in Hv. apply in_map_iff in Hv.
    destruct Hv as (q & <- & Hq).
    unfold weights in Hw'. apply in_map_iff in Hw'.
    destruct Hw' as (i & <- & _).
    split; [apply V_Fin | ]. split; [apply V_of_Z | ].
    split; [apply Hb, Hin, Hq | ].
    cbn [valQ W of_Z]. change 0 with (inject_Z 0). rewrite <- Zle_Qle. lia. }
  assert (Hsnd : map (fun p : number * number => valQ (snd p)) pairs = wq).
  { unfold pairs. rewrite <- (map_map snd valQ), map_snd_combine.
    - unfold weights, wq. rewrite map_map. reflexivity.
    - unfold weights, k. rewrite length_map, length_seq. reflexivity. }
  (* the forecast *)
  set (weightedSum :=
         fold_left (fun weightedSum '(v, w) =>
                      num_add weightedSum (num_mul v w))
                   pairs (Fin 0)).
  set (S := Qsum (map (fun p => valQ (fst p) * valQ (snd p)) pairs)).
  assert (HWS : V weightedSum S).
  { unfold weightedSum.
    rewrite (fold_left_ext _
               (fun s p => num_add s (num_mul (fst p) (snd p))))
      by (intros a [v w]; reflexivity).
    eapply V_compat.
    - apply (V_fold (fun p => num_mul (fst p) (snd p))
               (fun p => valQ (fst p) * valQ (snd p)) pairs).
      + intros p H. destruct (Hpairs p H) as (H1 & H2 & _).
        apply V_mul; assumption.
      + apply V_Fin.
    - fold S. ring. }
  set (forecast := num_div weightedSum totalWeight).
  assert (HF : V forecast (S / Qsum wq)).
  { unfold forecast. apply (V_div _ _ _ _ HWS HTW). lra. }
  destruct (Qsum_weighted_bounds
              (fun p : number * number => valQ (fst p))
              (fun p : number * number => valQ (snd p)) lo hi pairs)
    as [HB1 HB2].
  { intros p H. destruct (Hpairs p H) as (_ & _ & H3 & H4). tauto. }
  rewrite Hsnd in HB1, HB2. fold S in HB1, HB2.
  assert (Hfb : lo <= S / Qsum wq <= hi).
  { split.
    - apply Qle_shift_div_l; [exact Htw | lra].
    - apply Qle_shift_div_r; [exact Htw | lra]. }
  (* the weighted variance *)
  set (weightedVariance :=
         fold_left (fun weightedVariance '(v, w) =>
                      num_add weightedVariance
                        (num_mul w (Math_pow2 (num_sub v forecast))))
                   pairs (Fin 0)).
  set (fq := S / Qsum wq) in *.
  set (T := Qsum (map (fun p => valQ (snd p)
                                * ((valQ (fst p) - fq) * (valQ (fst p) - fq)))
                      pairs)).
  assert (HWV : V weightedVariance T).
  { unfold weightedVariance.
    rewrite (fold_left_ext _
               (fun s p => num_add s (num_mul (snd p)
                                        (Math_pow2 (num_sub (fst p) forecast)))))
      by (intros a [v w]; reflexivity).
    eapply V_compat.
    - apply (V_fold (fun p => num_mul (snd p)
                                (Math_pow2 (num_sub (fst p) forecast)))
               (fun p => valQ (snd p)
                         * ((valQ (fst p) - fq) * (valQ (fst p) - fq)))
               pairs).
      + intros p H. destruct (Hpairs p H) as (H1 & H2 & _).
        apply V_mul; [exact H2 | ]. apply V_pow2, V_sub; assumption.
      + apply V_Fin.
    - fold T. ring. }
  assert (HT : 0 <= T).
  { unfold T. apply Qsum_nonneg. intros x Hx. apply in_map_iff in Hx.
    destruct Hx as (p & <- & Hp'). destruct (Hpairs p Hp') as (_ & _ & _ & H4).
    apply Qmult_le_0_compat; [exact H4 | apply Qsquare_nonneg]. }
  destruct HF as (f & Ef & Hfq).
  fold pairs. fold weightedSum. fold totalWeight. fold forecast.
  fold weightedVariance.
  rewrite (num_div_V _ _ _ _ HWV HTW) by lra. unfold norm.
  assert (Hv : 0 <= Qred (T / Qsum wq)).
  { rewrite Qred_correct. apply Qle_shift_div_l; lra. }
  destruct (Math_sqrt_nonneg _ Hv) as (s & -> & Hs).
  destruct (sqrt_window_size sqrtQ sqrtQ_pos n Hn) as (r & -> & Hr).
  exists f, (Qred (s / r)). split; [ | split].
  - rewrite Ef. f_equal. apply num_div_V; try apply V_Fin. lra.
  - rewrite Hfq. exact Hfb.
  - rewrite Qred_correct. apply Qle_shift_div_l; lra.
Qed.

(** The forecasts and the standard errors of the linear regression on
    three finite buckets or more. *)
Lemma linearRegressionForecast_wellformed (qs : list Q) (k i : nat) :
  (3 <= List.length qs)%nat -> (i < k)%nat ->
  let lr := linearRegressionForecast sqrtQ (map Fin qs) k in
  exists f se,
    nth i (LinearForecast.forecasts lr) NaN = Fin f
    /\ nth i (LinearForecast.standardErrors lr) NaN = Fin se
    /\ 0 <= f /\ 0 <= se.
Proof.
  intros Hlen Hi lr.
  assert (Hlen' : (3 <= List.length (map Fin qs))%nat)
    by (rewrite length_map; exact Hlen).
  destruct (linearRegressionForecast_finite sqrtQ (map Fin qs) k
              (allFinite_Fin qs) Hlen') as [Hfc Hse].
  destruct (linearRegressionForecast_lengths sqrtQ (map Fin qs) k) as [Lf Ls].
  fold lr in Hfc, Hse, Lf, Ls.
  assert (H1 : In (nth i (LinearForecast.forecasts lr) NaN)
                  (LinearForecast.forecasts lr)) by (apply nth_In; lia).
  assert (H2 : In (nth i (LinearForecast.standardErrors lr) NaN)
                  (LinearForecast.standardErrors lr)) by (apply nth_In; lia).
  assert (F1 := Hfc _ H1). assert (F2 := Hse _ H2).
  assert (N2 := linearRegressionForecast_notNeg sqrtQ sqrtQ_nonneg _ _ _ H2).
  assert (Hl2 : (2 <= List.length (map Fin qs))%nat) by lia.
  destruct (linearRegressionForecast_formula sqrtQ (map Fin qs) k i Hl2 Hi)
    as [E1 _].
  fold lr in E1.
  destruct (nth i (LinearForecast.standardErrors lr) NaN) as [se | | ];
    try discriminate.
  unfold notNeg in N2. cbn [num_ltb] in N2. apply Qltb_ge in N2.
  rewrite E1 in F1 |- *.
  destruct (RegressionResult.predict (linearRegression (map Fin qs)) _)
    as [p | [ | ] | ]; try discriminate.
  - cbn [Math_max num_ltb].
    destruct (Qltb 0 p) eqn:E.
    + apply Qltb_lt in E. exists p, se. repeat split; try lra.
    + exists 0, se. repeat split; lra.
  - exists 0, se. repeat split; lra.
Qed.

End WithSqrt.

(** ** Lists of periods *)

Lemma zrange_app i n m :
  zrange i (n + m) = zrange i n ++ zrange (i + Z.of_nat n)%Z m.
Proof.
  revert i. induction n as [ | n IH]; intros i.
  - cbn [Nat.add zrange app]. f_equal. lia.
  - cbn [Nat.add zrange app]. f_equal. rewrite IH. f_equal. f_equal. lia.
Qed.

Lemma map_combine_seq {A B} (g : A -> B) (l : list A) :
  forall k,
    map (fun '(i, p) => g p) (combine (seq k (List.length l)) l) = map g l.
Proof.
  induction l as [ | x l IH]; intros k; cbn [List.length seq combine map].
  - reflexivity.
  - f_equal. apply IH.
Qed.

(** The periods of the forecast points are the future periods. *)
Lemma projectedData_periods sqrtQ aggregation metrics settings period :
  map ProjectionPoint.period
      (ProductProjection.projectedData
         (generateProductProjection sqrtQ aggregation metrics settings
            period))
  = map fst
      (generateFuturePeriods (ProductAggregation.lastOrderDate aggregation)
         (timeframeToPeriods (ForecastSettings.timeframe settings) period)
         period)
  /\ Forall (fun p => ProjectionPoint.isForecast p = true)
       (ProductProjection.projectedData
          (generateProductProjection sqrtQ aggregation metrics settings
             period)).
Proof.
  unfold generateProductProjection. cbn [ProductProjection.projectedData].
  set (futurePeriods := generateFuturePeriods _ _ _).
  destruct (ForecastSettings.method settings).
  - destruct (simpleMovingAverage sqrtQ _ _) as [forecast se]. split.
    + rewrite map_map. apply map_ext. intros p.
      destruct (calculateConfidenceInterval _ _ _ _). reflexivity.
    + apply Forall_forall. intros pt Hpt. apply in_map_iff in Hpt.
      destruct Hpt as (p & <- & _).
      destruct (calculateConfidenceInterval _ _ _ _). reflexivity.
  - destruct (weightedMovingAverage sqrtQ _ _) as [forecast se]. split.
    + rewrite map_map. apply map_ext. intros p.
      destruct (calculateConfidenceInterval _ _ _ _). reflexivity.
    + apply Forall_forall. intros pt Hpt. apply in_map_iff in Hpt.
      destruct Hpt as (p & <- & _).
      destruct (calculateConfidenceInterval _ _ _ _). reflexivity.
  - split.
    + rewrite map_map.
      rewrite <- (map_combine_seq fst futurePeriods 0).
      apply map_ext. intros [i p].
      destruct (calculateConfidenceInterval _ _ _ _). reflexivity.
    + apply Forall_forall. intros pt Hpt. apply in_map_iff in Hpt.
      destruct Hpt as ([i p] & <- & _).
      destruct (calculateConfidenceInterval _ _ _ _). reflexivity.
Qed.

End ForecastFacts.

(* ================================================================== *)
(** * Forecasting: critical values, intervals, moving averages *)
(* ================================================================== *)

Import ForecastFacts.
Local Open Scope Q_scope.

(** X15 (critical values).  For every confidence level, the levels
    without a table included, the critical value does not increase with
    the degrees of freedom, and it lies between 1.645 and 4.032, the least
    and the greatest entry of the tables. *)
Theorem critical_value_decreases (confidence : number) (df1 df2 : Q) :
  df1 <= df2 ->
  exists t1 t2,
    getTCritical confidence (Fin df1) = Fin t1
    /\ getTCritical confidence (Fin df2) = Fin t2
    /\ t2 <= t1 /\ 1.645 <= t2 /\ t1 <= 4.032.
Proof.
  intros Hdf. destruct (getTCritical_table confidence) as (table & Hin & E).
  rewrite !E. cbn in Hin.
  destruct Hin as [<- | [<- | [<- | []]]];
    apply getTCritical_loop_decreasing; trivial; discriminate.
Qed.

Lemma critical_value_decreases_witness :
  exists t1 t2,
    getTCritical (Fin 0.99) (Fin 4) = Fin t1
    /\ getTCritical (Fin 0.99) (Fin 25) = Fin t2
    /\ t2 <= t1 /\ 1.645 <= t2 /\ t1 <= 4.032.
Proof.
  apply (critical_value_decreases (Fin 0.99) 4 25). discriminate.
Defined.





Lemma num_div_by_zero x : is_finite (num_div x (Fin 0)) = false.
Proof.
  destruct x as [a | s | ]; cbn [num_div]; try reflexivity.
  change (Qeq_bool 0 0) with true. cbv iota.
  destruct (Qeq_bool a 0); reflexivity.
Qed.

Lemma num_div_by_NaN x : is_finite (num_div x NaN) = false.
Proof. destruct x; reflexivity. Qed.

Lemma Math_sqrt_window (sqrtQ : Q -> Q) (n : Z) :
  (forall x, x == 0 -> sqrtQ x == 0) ->
  (n <= 0)%Z ->
  Math_sqrt sqrtQ (of_Z n) = Fin 0 \/ Math_sqrt sqrtQ (of_Z n) = NaN.
Proof.
  intros Hz Hn. unfold of_Z. cbn [Math_sqrt].
  destruct (Qltb (inject_Z n) 0) eqn:E; [right; reflexivity | left].
  apply Qltb_ge in E. apply norm_zero, Hz. rewrite Qred_correct.
  change 0 with (inject_Z 0) in E. rewrite <- Zle_Qle in E.
  assert (n = 0%Z) by lia. subst n. reflexivity.
Qed.

(** X18 (a window without buckets).  For a non-empty series and a window
    size of 0 or less, the standard error of the simple and of the
    weighted moving average is not a finite number: it is divided by the
    square root of the window size, which is 0 or [NaN]. *)
Theorem window_of_size_zero (sqrtQ : Q -> Q) (values : list number)
    (periods : Z) :
  (forall x, x == 0 -> sqrtQ x == 0) ->
  values <> [] -> (periods <= 0)%Z ->
  is_finite (snd (simpleMovingAverage sqrtQ values periods)) = false
  /\ is_finite (snd (weightedMovingAverage sqrtQ values periods)) = false.
Proof.
  intros Hz Hne Hp.
  assert (El : (List.length values =? 0)%nat = false)
    by (destruct values; [congruence | reflexivity]).
  assert (Hn : (Z.min periods (Z.of_nat (List.length values)) <= 0)%Z) by lia.
  unfold simpleMovingAverage, weightedMovingAverage. rewrite El.
  cbv zeta. cbn [snd].
  destruct (Math_sqrt_window sqrtQ _ Hz Hn) as [-> | ->]; split;
    first [apply num_div_by_zero | apply num_div_by_NaN].
Qed.

Lemma window_of_size_zero_witness :
  is_finite (snd (simpleMovingAverage SqrtModel.sqrtQ [Fin 3; Fin 5] 0))
  = false
  /\ is_finite (snd (weightedMovingAverage SqrtModel.sqrtQ [Fin 3; Fin 5] 0))
     = false.
Proof.
  apply (window_of_size_zero SqrtModel.sqrtQ [Fin 3; Fin 5] 0).
  - exact SqrtModel.sqrtQ_zero.
  - discriminate.
  - lia.
Defined.

(* ================================================================== *)
(** * The projection of a product *)
(* ================================================================== *)

Module ProjectionFacts.
Import RegressionFacts StatsFacts FitFacts ForecastFacts.
Local Open Scope Q_scope.

(** [round2] on the rationals. *)
Definition round2Q (a : Q) : Q :=
  Qred (inject_Z (Qfloor (Qred (a * 100) + (1 # 2))) / 100).

Lemma round2_Fin_Q a : round2 (Fin a) = Fin (round2Q a).
Proof. reflexivity. Qed.

Lemma round2Q_monotone a b : a <= b -> round2Q a <= round2Q b.
Proof.
  intros H. destruct (round2_monotone a b H) as (a' & b' & Ea & Eb & Hab).
  rewrite round2_Fin_Q in Ea, Eb.
  injection Ea as <-. injection Eb as <-. exact Hab.
Qed.

Lemma round2Q_zero : round2Q 0 = 0.
Proof. reflexivity. Qed.

Lemma upper_bound (qs : list Q) : exists hi, forall q, In q qs -> q <= hi.
Proof.
  induction qs as [ | x qs (hi & IH)].
  - exists 0. intros q [].
  - destruct (Qlt_le_dec hi x) as [L | L].
    + exists x. intros q [<- | Hq]; [apply Qle_refl | ].
      specialize (IH q Hq). lra.
    + exists hi. intros q [<- | Hq]; [exact L | apply IH, Hq].
Qed.

(** A forecast point built from a finite forecast and a finite standard
    error that are not negative. *)
Definition bracketed (p : ProjectionPoint.t) : Prop :=
  exists d low high,
    ProjectionPoint.projectedDemand p = Fin d
    /\ ProjectionPoint.confidenceLow p = Fin low
    /\ ProjectionPoint.confidenceHigh p = Fin high
    /\ 0 <= low /\ low <= d /\ d <= high.

Lemma bracketed_point (period : Z) (label : PeriodLabel) (f se : Q) (n : nat)
    (confidence : number) :
  0 <= f -> 0 <= se ->
  bracketed
    (let '(low, high) :=
       calculateConfidenceInterval (Fin f) (Fin se) n confidence in
     ProjectionPoint.mk period label (round2 (Fin f)) (round2 low)
       (round2 high) true).
Proof.
  intros Hf Hse.
  destruct (calculateConfidenceInterval_brackets f se n confidence Hf Hse)
    as (low & high & -> & H0 & H1 & H2 & _).
  exists (round2Q f), (round2Q low), (round2Q high).
  cbn [ProjectionPoint.projectedDemand ProjectionPoint.confidenceLow
         ProjectionPoint.confidenceHigh].
  rewrite !round2_Fin_Q.
  split; [reflexivity | ]. split; [reflexivity | ]. split; [reflexivity | ].
  split; [ | split]; try (apply round2Q_monotone; assumption).
  rewrite <- round2Q_zero. apply round2Q_monotone. exact H0.
Qed.

Lemma timeframeToPeriods_pos timeframe period :
  (1 <= timeframeToPeriods timeframe period)%nat.
Proof. destruct timeframe, period; vm_compute; lia. Qed.

End ProjectionFacts.

Import ProjectionFacts.
Local Open Scope Q_scope.

(** X19 (forecast points).  For a history of finite quantities that are
    not negative, with a square root that is not negative, and positive on
    positive numbers: when the history is not empty and the window has one
    bucket at least (moving averages), or the history has three buckets at
    least (linear regression), every forecast point of the projection has
    a finite demand and finite bounds with
    [0 <= confidenceLow <= projectedDemand <= confidenceHigh]. *)
Theorem forecast_points_are_bracketed (sqrtQ : Q -> Q)
    (aggregation : ProductAggregation.t) (metrics : ProductMetrics.t)
    (settings : ForecastSettings.t) (period : AggregationPeriod)
    (quantities : list Q) :
  (forall x, 0 <= x -> 0 <= sqrtQ x) ->
  (forall x, 0 < x -> 0 < sqrtQ x) ->
  map AggregatedData.totalQuantity (ProductAggregation.data aggregation)
  = map Fin quantities ->
  (forall q, In q quantities -> 0 <= q) ->
  match ForecastSettings.method settings with
  | linear_regression => (3 <= List.length quantities)%nat
  | _ => quantities <> [] /\ (1 <= ForecastSettings.periods settings)%Z
  end ->
  Forall (fun p =>
            exists d low high,
              ProjectionPoint.projectedDemand p = Fin d
              /\ ProjectionPoint.confidenceLow p = Fin low
              /\ ProjectionPoint.confidenceHigh p = Fin high
              /\ 0 <= low /\ low <= d /\ d <= high)
    (ProductProjection.projectedData
       (generateProductProjection sqrtQ aggregation metrics settings period)).
Proof.
  intros Hs1 Hs2 Hq Hnn Hm.
  change (Forall bracketed
            (ProductProjection.projectedData
               (generateProductProjection sqrtQ aggregation metrics settings
                  period))).
  unfold generateProductProjection. cbn [ProductProjection.projectedData].
  rewrite Hq.
  set (n := timeframeToPeriods (ForecastSettings.timeframe settings) period).
  set (futurePeriods := generateFuturePeriods _ n period).
  destruct (upper_bound quantities) as (hi & Hhi).
  assert (Hb : forall q, In q quantities -> 0 <= q <= hi)
    by (intros q H; split; [apply Hnn | apply Hhi]; exact H).
  apply Forall_forall. intros pt Hpt.
  destruct (ForecastSettings.method settings).
  - destruct Hm as [Hne Hp].
    destruct (simpleMovingAverage_wellformed sqrtQ Hs1 Hs2 quantities
                (ForecastSettings.periods settings) 0 hi Hne Hp Hb)
      as (f & se & E & Hf & Hse).
    rewrite E in Hpt. apply in_map_iff in Hpt. destruct Hpt as (p & <- & _).
    apply bracketed_point; lra.
  - destruct Hm as [Hne Hp].
    destruct (weightedMovingAverage_wellformed sqrtQ Hs1 Hs2 quantities
                (ForecastSettings.periods settings) 0 hi Hne Hp Hb)
      as (f & se & E & Hf & Hse).
    rewrite E in Hpt. apply in_map_iff in Hpt. destruct Hpt as (p & <- & _).
    apply bracketed_point; lra.
  - apply in_map_iff in Hpt. destruct Hpt as ([i p] & <- & Hip).
    apply in_combine_l in Hip. apply in_seq in Hip.
    assert (Hi : (i < n)%nat).
    { unfold futurePeriods in Hip.
      rewrite generateFuturePeriods_length in Hip. lia. }
    destruct (linearRegressionForecast_wellformed sqrtQ Hs1 quantities n i
                Hm Hi) as (f & se & -> & -> & Hf & Hse).
    apply bracketed_point; assumption.
Qed.

Lemma forecast_points_are_bracketed_witness :
  Forall (fun p =>
            exists d low high,
              ProjectionPoint.projectedDemand p = Fin d
              /\ ProjectionPoint.confidenceLow p = Fin low
              /\ ProjectionPoint.confidenceHigh p = Fin high
              /\ 0 <= low /\ low <= d /\ d <= high)
    (ProductProjection.projectedData
       (generateProductProjection SqrtModel.sqrtQ sampleAggregation
          sampleMetrics (sampleSettings linear_regression 0.95) monthly)).
Proof.
  apply (forecast_points_are_bracketed SqrtModel.sqrtQ sampleAggregation
           sampleMetrics (sampleSettings linear_regression 0.95) monthly
           [17 # 2; 0; 2]).
  - exact SqrtModel.sqrtQ_nonneg.
  - exact SqrtModel.sqrtQ_pos.
  - vm_compute. reflexivity.
  - intros q [<- | [<- | [<- | []]]]; discriminate.
  - cbn. lia.
Defined.

Local Open Scope Z_scope.



Local Open Scope Q_scope.

(** A history of three monthly buckets, projected by linear
    regression. *)
Lemma linear_regression_projection_finite_witness :
  Forall (fun p =>
            is_finite (ProjectionPoint.projectedDemand p) = true
            /\ is_finite (ProjectionPoint.confidenceLow p) = true
            /\ is_finite (ProjectionPoint.confidenceHigh p) = true)
    (ProductProjection.projectedData
       (generateProductProjection SqrtModel.sqrtQ sampleAggregation
          sampleMetrics (sampleSettings linear_regression 0.95) monthly)).
Proof.
  apply (RegressionFacts.linear_regression_projection_finite SqrtModel.sqrtQ
           sampleAggregation sampleMetrics
           (sampleSettings linear_regression 0.95) monthly).
  - reflexivity.
  - intros x Hx. vm_compute in Hx.
    destruct Hx as [<- | [<- | [<- | []]]]; reflexivity.
  - vm_compute. lia.
Defined.

(* ================================================================== *)
(** * All products: [calculateAllMetrics], [generateAllProjections] and
      the recalculation of [src/hooks/useProjections.ts] *)
(* ================================================================== *)

Definition MetricsMap : Type := @JsMap.t string ProductMetrics.t.
Definition ProjectionMap : Type := @JsMap.t string ProductProjection.t.

Module Pipeline.
Import Aggregator Metrics Forecasting.

Section WithSqrt.
Variable sqrtQ : Q -> Q.

(** [calculateAllMetrics] of [src/lib/metrics.ts]. *)
Definition calculateAllMetrics (aggregatedData : ProductMap)
    (period : AggregationPeriod) : MetricsMap :=
  fold_left
    (fun metricsMap '(productId, aggregation) =>
       if (0 <? List.length (ProductAggregation.data aggregation))%nat
       then JsMap.set String.eqb productId
              (calculateProductMetrics sqrtQ aggregation period) metricsMap
       else metricsMap)
    aggregatedData [].

(** [generateAllProjections] of [src/lib/forecasting.ts]. *)
Definition generateAllProjections (aggregatedData : ProductMap)
    (metricsData : MetricsMap) (settings : ForecastSettings.t)
    (period : AggregationPeriod) : ProjectionMap :=
  fold_left
    (fun projectionsMap '(productId, aggregation) =>
       match JsMap.get String.eqb productId metricsData with
       | Some metrics =>
           if (0 <? List.length (ProductAggregation.data aggregation))%nat
           then JsMap.set String.eqb productId
                  (generateProductProjection sqrtQ aggregation metrics
                     settings period)
                  projectionsMap
           else projectionsMap
       | None => projectionsMap
       end)
    aggregatedData [].

(** The computation of [recalculateProjections]: the three mappings that
    it stores in the state, or nothing when it returns at once because
    there are no orders. *)
Definition recalculateProjections (orders : list OrderRecord.t)
    (aggregationPeriod : AggregationPeriod) (settings : ForecastSettings.t)
  : option (ProductMap * MetricsMap * ProjectionMap) :=
  if (List.length orders =? 0)%nat then None
  else
    let aggregated := aggregateOrderData orders aggregationPeriod in
    let metricsData := calculateAllMetrics aggregated aggregationPeriod in
    let projectionsData :=
      generateAllProjections aggregated metricsData settings
        aggregationPeriod in
    Some (aggregated, metricsData, projectionsData).

End WithSqrt.
End Pipeline.

Module PipelineFacts.
Import Aggregator Metrics Forecasting Pipeline AggregatorFacts ProductFacts.

Lemma get_In {V} (m : @JsMap.t string V) k v :
  JsMap.get String.eqb k m = Some v -> In (k, v) m.
Proof.
  induction m as [ | [k' v'] m IH]; [discriminate | ].
  cbn [JsMap.get]. destruct (String.eqb_spec k k') as [E | E].
  - intros [= ->]. subst. left. reflexivity.
  - intros G. right. apply IH, G.
Qed.

Lemma In_get {V} (m : @JsMap.t string V) k v :
  NoDup (JsMap.keys m) -> In (k, v) m -> JsMap.get String.eqb k m = Some v.
Proof.
  induction m as [ | [k' v'] m IH]; intros Hnd Hin; [destruct Hin | ].
  cbn [JsMap.keys map fst] in Hnd. inversion Hnd as [ | ? ? Hk Hnd']; subst.
  cbn [JsMap.get]. destruct Hin as [[= -> ->] | Hin].
  - rewrite String.eqb_refl. reflexivity.
  - destruct (String.eqb_spec k k') as [E | E]; [ | apply IH; assumption].
    exfalso. apply Hk. subst k'. apply (in_map fst) in Hin. exact Hin.
Qed.

Section Folds.
Context {V W : Type}.
Variable keep : string -> V -> option W.

(** The entries that a loop over a mapping keeps. *)
Definition kept (m : @JsMap.t string V) : @JsMap.t string W :=
  flat_map (fun kv => match keep (fst kv) (snd kv) with
                      | Some w => [(fst kv, w)]
                      | None => []
                      end) m.

Lemma kept_keys_In k m : In k (JsMap.keys (kept m)) -> In k (JsMap.keys m).
Proof.
  unfold JsMap.keys, kept. rewrite !in_map_iff.
  intros ([k' w] & <- & H). apply in_flat_map in H.
  destruct H as ([k0 v] & Hin & H). cbn [fst snd] in H.
  destruct (keep k0 v); [ | destruct H].
  destruct H as [[= <- <-] | []]. exists (k0, v). split; [reflexivity | exact Hin].
Qed.

Lemma fold_kept (m : @JsMap.t string V) :
  NoDup (JsMap.keys m) ->
  forall acc : @JsMap.t string W,
    (forall k, In k (JsMap.keys m) -> ~ In k (JsMap.keys acc)) ->
    fold_left
      (fun acc kv => match keep (fst kv) (snd kv) with
                     | Some w => JsMap.set String.eqb (fst kv) w acc
                     | None => acc
                     end)
      m acc
    = acc ++ kept m.
Proof.
  induction m as [ | [k v] m IH]; intros Hnd acc Hfresh; cbn [fold_left].
  - unfold kept. cbn [flat_map]. rewrite app_nil_r. reflexivity.
  - cbn [JsMap.keys map fst] in Hnd. inversion Hnd as [ | ? ? Hk Hnd']; subst.
    cbn [fst snd]. unfold kept. cbn [flat_map fst snd]. fold (kept m).
    destruct (keep k v) as [w | ].
    + rewrite (JsMapFacts.set_absent String.eqb k w acc).
      * rewrite IH; [rewrite <- app_assoc; reflexivity | exact Hnd' | ].
        intros k' Hk'. unfold JsMap.keys. rewrite map_app, in_app_iff.
        intros [H | [<- | []]].
        -- apply (Hfresh k'); [right; exact Hk' | exact H].
        -- contradiction.
      * apply (JsMapFacts.get_none_notin String.eqb String.eqb_eq).
        apply Hfresh. left. reflexivity.
    + rewrite IH; [reflexivity | exact Hnd' | ].
      intros k' Hk'. apply Hfresh. right. exact Hk'.
Qed.

Lemma get_kept (m : @JsMap.t string V) k :
  NoDup (JsMap.keys m) ->
  JsMap.get String.eqb k (kept m)
  = match JsMap.get String.eqb k m with
    | Some v => keep k v
    | None => None
    end.
Proof.
  induction m as [ | [k' v] m IH]; intros Hnd; [reflexivity | ].
  cbn [JsMap.keys map fst] in Hnd. inversion Hnd as [ | ? ? Hk Hnd']; subst.
  specialize (IH Hnd').
  unfold kept. cbn [flat_map fst snd JsMap.get]. fold (kept m).
  destruct (String.eqb_spec k k') as [E | E].
  - subst k'. destruct (keep k v) as [w | ].
    + cbn [app JsMap.get]. rewrite String.eqb_refl. reflexivity.
    + cbn [app].
      destruct (JsMap.get String.eqb k (kept m)) eqn:G; [ | reflexivity].
      exfalso. apply Hk. apply kept_keys_In.
      destruct (in_dec string_dec k (JsMap.keys (kept m))) as [H | H];
        [exact H | ].
      apply (JsMapFacts.get_none_notin String.eqb String.eqb_eq) in H.
      congruence.
  - destruct (keep k' v) as [w | ].
    + cbn [app JsMap.get].
      rewrite (proj2 (String.eqb_neq k k') E). exact IH.
    + cbn [app]. exact IH.
Qed.

End Folds.

Section WithSqrt.
Variable sqrtQ : Q -> Q.

Definition keepMetrics (period : AggregationPeriod) (productId : string)
    (aggregation : ProductAggregation.t) : option ProductMetrics.t :=
  if (0 <? List.length (ProductAggregation.data aggregation))%nat
  then Some (calculateProductMetrics sqrtQ aggregation period)
  else None.

Definition keepProjection (metricsData : MetricsMap)
    (settings : ForecastSettings.t) (period : AggregationPeriod)
    (productId : string) (aggregation : ProductAggregation.t)
  : option ProductProjection.t :=
  match JsMap.get String.eqb productId metricsData with
  | Some metrics =>
      if (0 <? List.length (ProductAggregation.data aggregation))%nat
      then Some (generateProductProjection sqrtQ aggregation metrics
                   settings period)
      else None
  | None => None
  end.

Lemma calculateAllMetrics_kept aggregatedData period :
  NoDup (JsMap.keys aggregatedData) ->
  calculateAllMetrics sqrtQ aggregatedData period
  = kept (keepMetrics period) aggregatedData.
Proof.
  intros Hnd. unfold calculateAllMetrics.
  rewrite (FiniteFacts.fold_left_ext _
             (fun acc kv =>
                match keepMetrics period (fst kv) (snd kv) with
                | Some w => JsMap.set String.eqb (fst kv) w acc
                | None => acc
                end)).
  - rewrite (fold_kept (keepMetrics period) aggregatedData Hnd []);
      [reflexivity | ]. intros k _ [].
  - intros acc [k a]. cbn [fst snd]. unfold keepMetrics.
    destruct (0 <? _)%nat; reflexivity.
Qed.

Lemma generateAllProjections_kept aggregatedData metricsData settings period :
  NoDup (JsMap.keys aggregatedData) ->
  generateAllProjections sqrtQ aggregatedData metricsData settings period
  = kept (keepProjection metricsData settings period) aggregatedData.
Proof.
  intros Hnd. unfold generateAllProjections.
  rewrite (FiniteFacts.fold_left_ext _
             (fun acc kv =>
                match keepProjection metricsData settings period
                        (fst kv) (snd kv) with
                | Some w => JsMap.set String.eqb (fst kv) w acc
                | None => acc
                end)).
  - rewrite (fold_kept (keepProjection metricsData settings period)
               aggregatedData Hnd []); [reflexivity | ]. intros k _ [].
  - intros acc [k a]. cbn [fst snd]. unfold keepProjection.
    destruct (JsMap.get String.eqb k metricsData); [ | reflexivity].
    destruct (0 <? _)%nat; reflexivity.
Qed.

(** When the loop keeps every entry, the keys are those of the mapping,
    in their order. *)
Lemma kept_all_keys {V W} (keep : string -> V -> option W)
    (m : @JsMap.t string V) :
  (forall kv, In kv m -> keep (fst kv) (snd kv) <> None) ->
  JsMap.keys (kept keep m) = JsMap.keys m.
Proof.
  induction m as [ | [k v] m IH]; intros H; [reflexivity | ].
  unfold kept. cbn [flat_map fst snd]. fold (kept keep m).
  assert (Hk := H (k, v) (or_introl eq_refl)). cbn [fst snd] in Hk.
  destruct (keep k v) as [w | ]; [ | congruence].
  cbn [app JsMap.keys map fst]. f_equal. apply IH.
  intros kv Hin. apply H. right. exact Hin.
Qed.

End WithSqrt.
End PipelineFacts.

Import Pipeline PipelineFacts.
Local Open Scope Z_scope.

(** X22 (metrics of all products).  For a mapping with distinct keys,
    [calculateAllMetrics] holds metrics for a product exactly when the
    mapping holds a series with one bucket at least for it, and these are
    the metrics of that series; a product with an empty series is
    skipped. *)
Theorem metrics_of_all_products (sqrtQ : Q -> Q) (aggregatedData : ProductMap)
    (period : AggregationPeriod) (pid : string) :
  NoDup (JsMap.keys aggregatedData) ->
  JsMap.get String.eqb pid (calculateAllMetrics sqrtQ aggregatedData period)
  = match getProductAggregation aggregatedData pid with
    | Some aggregation =>
        match ProductAggregation.data aggregation with
        | [] => None
        | _ :: _ => Some (calculateProductMetrics sqrtQ aggregation period)
        end
    | None => None
    end.
Proof.
  intros Hnd. rewrite (calculateAllMetrics_kept sqrtQ _ _ Hnd).
  rewrite (get_kept _ _ _ Hnd). unfold getProductAggregation.
  destruct (JsMap.get String.eqb pid aggregatedData) as [a | ];
    [ | reflexivity].
  unfold keepMetrics. destruct (ProductAggregation.data a); reflexivity.
Qed.

(** A mapping of two products, the second with an empty series. *)
Definition sampleMapping : ProductMap :=
  [ ("SKU-1", sampleAggregation);
    ("SKU-9", ProductAggregation.mk "SKU-9" "Spare" None [] 0 (Fin 0) 0 0)
  ]%string.

Lemma metrics_of_all_products_witness :
  JsMap.get String.eqb "SKU-9"%string
    (calculateAllMetrics SqrtModel.sqrtQ sampleMapping monthly) = None
  /\ JsMap.get String.eqb "SKU-1"%string
       (calculateAllMetrics SqrtModel.sqrtQ sampleMapping monthly)
     = Some sampleMetrics.
Proof.
  assert (Hnd : NoDup (JsMap.keys sampleMapping)).
  { repeat constructor; cbn; intuition discriminate. }
  split.
  - exact (metrics_of_all_products SqrtModel.sqrtQ sampleMapping monthly
             "SKU-9"%string Hnd).
  - rewrite (metrics_of_all_products SqrtModel.sqrtQ sampleMapping monthly
               "SKU-1"%string Hnd).
    reflexivity.
Defined.

(** X23 (projections of all products).  For a mapping with distinct keys,
    [generateAllProjections] holds a projection for a product exactly when
    the mapping holds a series with one bucket at least for it and the
    metrics mapping holds metrics for it, and it is the projection of that
    series with those metrics; no other product gets a projection. *)
Theorem projections_of_all_products (sqrtQ : Q -> Q)
    (aggregatedData : ProductMap) (metricsData : MetricsMap)
    (settings : ForecastSettings.t) (period : AggregationPeriod)
    (pid : string) :
  NoDup (JsMap.keys aggregatedData) ->
  JsMap.get String.eqb pid
    (generateAllProjections sqrtQ aggregatedData metricsData settings period)
  = match getProductAggregation aggregatedData pid,
          JsMap.get String.eqb pid metricsData with
    | Some aggregation, Some metrics =>
        match ProductAggregation.data aggregation with
        | [] => None
        | _ :: _ =>
            Some (generateProductProjection sqrtQ aggregation metrics
                    settings period)
        end
    | _, _ => None
    end.
Proof.
  intros Hnd. rewrite (generateAllProjections_kept sqrtQ _ _ _ _ Hnd).
  rewrite (get_kept _ _ _ Hnd). unfold getProductAggregation.
  destruct (JsMap.get String.eqb pid aggregatedData) as [a | ];
    [ | reflexivity].
  unfold keepProjection.
  destruct (JsMap.get String.eqb pid metricsData); [ | reflexivity].
  destruct (ProductAggregation.data a); reflexivity.
Qed.

Lemma projections_of_all_products_witness :
  JsMap.get String.eqb "SKU-1"%string
    (generateAllProjections SqrtModel.sqrtQ sampleMapping []
       (sampleSettings sma 0.95) monthly) = None.
Proof.
  assert (Hnd : NoDup (JsMap.keys sampleMapping)).
  { repeat constructor; cbn; intuition discriminate. }
  exact (projections_of_all_products SqrtModel.sqrtQ sampleMapping []
           (sampleSettings sma 0.95) monthly "SKU-1"%string Hnd).
Defined.

(** X24 (recalculation).  [recalculateProjections] computes nothing
    exactly when there are no orders.  Otherwise, for order dates from
    the year 100 on, the three mappings have the same keys in the same
    order, the product ids in the order of their first appearance; every
    product of the aggregation has its metrics and its projection, and
    the projection is made from these metrics. *)
Theorem recalculation_covers_all_products (sqrtQ : Q -> Q)
    (orders : list OrderRecord.t) (period : AggregationPeriod)
    (settings : ForecastSettings.t) :
  datesInRange orders ->
  match recalculateProjections sqrtQ orders period settings with
  | None => orders = []
  | Some (aggregated, metricsData, projectionsData) =>
      orders <> []
      /\ aggregated = aggregateOrderData orders period
      /\ JsMap.keys metricsData = JsMap.keys aggregated
      /\ JsMap.keys projectionsData = JsMap.keys aggregated
      /\ forall pid aggregation,
           JsMap.get String.eqb pid aggregated = Some aggregation ->
           JsMap.get String.eqb pid metricsData
           = Some (calculateProductMetrics sqrtQ aggregation period)
           /\ JsMap.get String.eqb pid projectionsData
              = Some (generateProductProjection sqrtQ aggregation
                        (calculateProductMetrics sqrtQ aggregation period)
                        settings period)
  end.
Proof.
  intros Hr. unfold recalculateProjections.
  destruct orders as [ | o0 os] eqn:Eo; [reflexivity | ].
  rewrite <- Eo in *. assert (Hne : orders <> []) by (rewrite Eo; discriminate).
  assert (El : (List.length orders =? 0)%nat = false)
    by (rewrite Eo; reflexivity).
  rewrite El. cbv zeta.
  set (aggregated := aggregateOrderData orders period).
  assert (Hnd : NoDup (JsMap.keys aggregated)).
  { unfold aggregated. rewrite aggregateOrderData_keys.
    apply NoDup_rev, NoDup_nodup. }
  assert (Hdata : forall k a, In (k, a) aggregated ->
                    (0 <? List.length (ProductAggregation.data a))%nat = true).
  { intros k a Hin.
    assert (G := In_get aggregated k a Hnd Hin).
    destruct (aggregateOrderData_get _ _ _ _ G)
      as (agg0 & o & rest & _ & Ho & Gr & _ & _ & _ & _ & _ & _ & _ & Ed).
    destruct (aggregateProduct_spec orders period k agg0 o rest Hr Ho Gr)
      as (Hij & _ & _ & Hper & _).
    apply Nat.ltb_lt. rewrite Ed, <- (length_map AggregatedData.period), Hper.
    rewrite length_map, zrange_length. lia. }
  rewrite (calculateAllMetrics_kept sqrtQ _ _ Hnd).
  set (metricsData := kept (keepMetrics sqrtQ period) aggregated).
  rewrite (generateAllProjections_kept sqrtQ _ _ _ _ Hnd).
  assert (Hgm : forall pid aggregation,
             JsMap.get String.eqb pid aggregated = Some aggregation ->
             JsMap.get String.eqb pid metricsData
             = Some (calculateProductMetrics sqrtQ aggregation period)).
  { intros pid a G. unfold metricsData. rewrite (get_kept _ _ _ Hnd), G.
    unfold keepMetrics. rewrite (Hdata pid a (get_In _ _ _ G)). reflexivity. }
  split; [exact Hne | ]. split; [reflexivity | ]. split; [ | split].
  - unfold metricsData. apply kept_all_keys. intros [k a] Hin.
    cbn [fst snd]. unfold keepMetrics. rewrite (Hdata k a Hin). discriminate.
  - apply kept_all_keys. intros [k a] Hin. cbn [fst snd].
    unfold keepProjection.
    rewrite (Hgm k a (In_get _ _ _ Hnd Hin)), (Hdata k a Hin). discriminate.
  - intros pid a G. split; [apply Hgm, G | ].
    rewrite (get_kept _ _ _ Hnd), G. unfold keepProjection.
    rewrite (Hgm pid a G), (Hdata pid a (get_In _ _ _ G)). reflexivity.
Qed.

Lemma recalculation_covers_all_products_witness :
  match recalculateProjections SqrtModel.sqrtQ sampleOrders weekly
          (sampleSettings wma 0.95) with
  | None => False
  | Some (aggregated, metricsData, projectionsData) =>
      JsMap.keys metricsData = ["SKU-1"; "SKU-2"]%string
      /\ JsMap.keys projectionsData = ["SKU-1"; "SKU-2"]%string
  end.
Proof.
  assert (H := recalculation_covers_all_products SqrtModel.sqrtQ sampleOrders
                 weekly (sampleSettings wma 0.95) sampleOrders_inRange).
  destruct (recalculateProjections SqrtModel.sqrtQ sampleOrders weekly
              (sampleSettings wma 0.95)) as [[[aggregated metricsData] projectionsData] | ].
  - destruct H as (_ & Ea & Hm & Hp & _). rewrite Hm, Hp, Ea.
    split; vm_compute; reflexivity.
  - discriminate H.
Defined.

(* ================================================================== *)
(** * Reorder quantities *)
(* ================================================================== *)

Module ReorderFacts.
Import StatsFacts ForecastFacts ProjectionFacts.
Local Open Scope Q_scope.

Lemma Qfloor_half (k : Z) : Qfloor (inject_Z k + (1 # 2)) = k.
Proof.
  assert (H1 := Qfloor_le (inject_Z k + (1 # 2))).
  assert (H2 := Qlt_floor (inject_Z k + (1 # 2))).
  set (f := Qfloor (inject_Z k + (1 # 2))) in *.
  assert (A : inject_Z f < inject_Z (k + 1)).
  { rewrite inject_Z_plus. change (inject_Z 1) with 1. lra. }
  assert (B : inject_Z k < inject_Z (f + 1)) by lra.
  rewrite <- Zlt_Qlt in A, B. lia.
Qed.

(** A number of hundredths is left as it is by [round2]. *)
Lemma round2Q_hundredths (k : Z) (a : Q) :
  a == inject_Z k / 100 -> round2Q a == a.
Proof.
  intros E. unfold round2Q. rewrite Qred_correct.
  assert (E' : Qred (a * 100) + (1 # 2) == inject_Z k + (1 # 2)).
  { rewrite Qred_correct, E. field. }
  rewrite (Qfloor_comp _ _ E'), Qfloor_half, E. reflexivity.
Qed.

Lemma round2Q_is_hundredths (a : Q) :
  exists k, round2Q a == inject_Z k / 100.
Proof.
  exists (Qfloor (Qred (a * 100) + (1 # 2))). unfold round2Q.
  apply Qred_correct.
Qed.

Lemma Qsum_hundredths (l : list Q) :
  (forall d, In d l -> exists k, d == inject_Z k / 100) ->
  exists k, Qsum l == inject_Z k / 100.
Proof.
  induction l as [ | d l IH]; intros H.
  - exists 0%Z. rewrite Qsum_nil. reflexivity.
  - destruct (H d (or_introl eq_refl)) as (k1 & E1).
    destruct IH as (k2 & E2); [intros x Hx; apply H; right; exact Hx | ].
    exists (k1 + k2)%Z. rewrite Qsum_cons, E1, E2, inject_Z_plus. field.
Qed.

Lemma Math_ceil_Fin a : Math_ceil (Fin a) = of_Z (Qceiling a).
Proof. reflexivity. Qed.

Lemma Qceiling_bounds a :
  a <= inject_Z (Qceiling a) /\ inject_Z (Qceiling a) < a + 1.
Proof.
  split; [apply Qle_ceiling | ].
  assert (H := Qceiling_lt a).
  change (Qceiling a - 1)%Z with (Qceiling a + -1)%Z in H.
  rewrite inject_Z_plus in H. change (inject_Z (-1)) with (-1) in H. lra.
Qed.

Lemma Qceiling_nonneg a : 0 <= a -> (0 <= Qceiling a)%Z.
Proof.
  intros H. destruct (Qceiling_bounds a) as [H2 _].
  assert (A : inject_Z (-1) < inject_Z (Qceiling a)).
  { change (inject_Z (-1)) with (-1). lra. }
  rewrite <- Zlt_Qlt in A. lia.
Qed.

Lemma Qceiling_mono a b : a <= b -> (Qceiling a <= Qceiling b)%Z.
Proof.
  intros H. destruct (Qceiling_bounds a) as [_ H2].
  destruct (Qceiling_bounds b) as [H3 _].
  assert (A : inject_Z (Qceiling a) < inject_Z (Qceiling b + 1)).
  { rewrite inject_Z_plus. change (inject_Z 1) with 1. lra. }
  rewrite <- Zlt_Qlt in A. lia.
Qed.

Lemma Qceiling_inject (k : Z) : Qceiling (inject_Z k) = k.
Proof.
  destruct (Qceiling_bounds (inject_Z k)) as [H1 H2].
  assert (A : inject_Z (Qceiling (inject_Z k)) < inject_Z (k + 1)).
  { rewrite inject_Z_plus. change (inject_Z 1) with 1. exact H2. }
  rewrite <- Zle_Qle in H1. rewrite <- Zlt_Qlt in A. lia.
Qed.

End ReorderFacts.

Import ReorderFacts.
Local Open Scope Q_scope.



(* ================================================================== *)
(** * Outliers of a short series *)
(* ================================================================== *)

(** A square root rounded up on the numerator: its square is never below
    its argument. *)
Module SqrtCeil.
Local Open Scope Z_scope.

Definition sqrtUp (x : Q) : Q := Z.sqrt_up (Qnum x * QDen x) # Qden x.

Lemma sqrtUp_nonneg (x : Q) : (0 <= x)%Q -> (0 <= sqrtUp x)%Q.
Proof.
  intros _. unfold sqrtUp, Qle. cbn [Qnum Qden].
  assert (H := Z.sqrt_up_nonneg (Qnum x * QDen x)). lia.
Qed.

Lemma sqrtUp_above (x : Q) : (0 <= x)%Q -> (x <= sqrtUp x * sqrtUp x)%Q.
Proof.
  destruct x as [n d]. unfold sqrtUp, Qle, Qmult. cbn [Qnum Qden].
  intros H. rewrite Z.mul_1_r in H. rewrite Pos2Z.inj_mul.
  set (s := Z.sqrt_up (n * Z.pos d)).
  assert (Hs : n * Z.pos d <= s * s).
  { destruct (Z.eq_dec (n * Z.pos d) 0) as [E | E].
    - unfold s. rewrite E. cbn. lia.
    - assert (P : 0 < n * Z.pos d) by lia.
      destruct (Z.sqrt_up_spec _ P) as [_ H2]. exact H2. }
  nia.
Qed.

Lemma sqrtUp_accurate (x : Q) :
  (0 <= x)%Q -> ((99 # 100) * x <= sqrtUp x * sqrtUp x)%Q.
Proof. intros H. assert (A := sqrtUp_above x H). lra. Qed.

End SqrtCeil.

Module OutlierBound.
Import StatsFacts FitFacts.
Local Open Scope Q_scope.

Lemma Qsum_app (l1 l2 : list Q) : Qsum (l1 ++ l2) == Qsum l1 + Qsum l2.
Proof.
  induction l1 as [ | x l1 IH]; cbn [app].
  - rewrite Qsum_nil. ring.
  - rewrite !Qsum_cons, IH. ring.
Qed.

Lemma Qsum_shift (a : Q) (l : list Q) :
  Qsum (map (fun d => (a - d) * (a - d)) l)
  == inject_Z (Z.of_nat (List.length l)) * (a * a) - 2 * a * Qsum l
     + Qsum (map (fun d => d * d) l).
Proof.
  induction l as [ | x l IH]; cbn [map List.length].
  - rewrite !Qsum_nil. cbn. ring.
  - rewrite !Qsum_cons, IH, inject_Z_succ. ring.
Qed.

(** The square of a sum is at most the count times the sum of squares. *)
Lemma Qsum_square_bound (l : list Q) :
  Qsum l * Qsum l
  <= inject_Z (Z.of_nat (List.length l)) * Qsum (map (fun d => d * d) l).
Proof.
  induction l as [ | a l IH]; cbn [map List.length].
  - rewrite !Qsum_nil. cbn. lra.
  - rewrite !Qsum_cons, inject_Z_succ.
    assert (P := Qsum_squares_nonneg (fun d => a - d) l).
    rewrite (Qsum_shift a l) in P.
    set (c := inject_Z (Z.of_nat (List.length l))) in *.
    set (s := Qsum l) in *.
    set (T := Qsum (map (fun d => d * d) l)) in *.
    assert (E : (c + 1) * (a * a + T) - (a + s) * (a + s)
                == (c * (a * a) - 2 * a * s + T) + (c * T - s * s)) by ring.
    lra.
Qed.

Lemma Qsum_minus_const (m : Q) (l : list Q) :
  Qsum (map (fun q => q - m) l)
  == Qsum l - inject_Z (Z.of_nat (List.length l)) * m.
Proof.
  induction l as [ | x l IH]; cbn [map List.length].
  - rewrite !Qsum_nil. cbn. ring.
  - rewrite !Qsum_cons, IH, inject_Z_succ. ring.
Qed.

(** No item of a series lies further from the mean than allowed by the
    sum of the squared deviations: [n d^2 <= (n - 1) S]. *)
Lemma deviation_of_an_item (qs : list Q) (m x : Q) :
  let count := inject_Z (Z.of_nat (List.length qs)) in
  Qsum qs == count * m -> In x qs ->
  count * ((x - m) * (x - m))
  <= (count - 1) * Qsum (map (fun q => (q - m) * (q - m)) qs).
Proof.
  intros count Hm Hin. apply in_split in Hin.
  destruct Hin as (l1 & l2 & ->).
  set (others := l1 ++ l2).
  set (devs := map (fun q => q - m) others).
  assert (Hc : count == inject_Z (Z.of_nat (List.length others)) + 1).
  { unfold count, others. rewrite !length_app. cbn [List.length].
    rewrite Nat.add_succ_r, inject_Z_succ. reflexivity. }
  assert (Hs : Qsum (l1 ++ x :: l2) == x + Qsum others).
  { unfold others. rewrite !Qsum_app, Qsum_cons. ring. }
  assert (Hd : Qsum devs == m - x).
  { unfold devs. rewrite Qsum_minus_const.
    rewrite Hs in Hm. rewrite Hc in Hm.
    set (k := inject_Z (Z.of_nat (List.length others))) in *.
    assert (E : (k + 1) * m == k * m + m) by ring. lra. }
  assert (Hcs := Qsum_square_bound devs).
  assert (Hl : List.length devs = List.length others)
    by (unfold devs; apply length_map).
  rewrite Hl in Hcs.
  assert (Hsq : Qsum (map (fun q => (q - m) * (q - m)) (l1 ++ x :: l2))
                == (x - m) * (x - m) + Qsum (map (fun d => d * d) devs)).
  { unfold devs, others. rewrite !map_app. cbn [map].
    rewrite !Qsum_app, Qsum_cons, !map_map. ring. }
  rewrite Hsq, Hc.
  set (k := inject_Z (Z.of_nat (List.length others))) in *.
  set (O := Qsum (map (fun d => d * d) devs)) in *.
  assert (E1 : Qsum devs * Qsum devs == (x - m) * (x - m)).
  { rewrite Hd. ring. }
  rewrite E1 in Hcs.
  set (D := (x - m) * (x - m)) in *.
  assert (E2 : (k + 1) * D == k * D + D) by ring.
  assert (E3 : (k + 1 - 1) * (D + O) == k * D + k * O) by ring.
  lra.
Qed.

Lemma few_items (n : nat) (dd v : Q) :
  (2 <= n <= 8)%nat -> 0 <= v ->
  inject_Z (Z.of_nat n) * dd
  <= (inject_Z (Z.of_nat n) - 1) * ((inject_Z (Z.of_nat n) - 1) * v) ->
  8 * dd <= 49 * v.
Proof.
  intros Hn Hv H.
  do 9 (destruct n as [ | n];
        [try lia;
         match type of H with
         | context [inject_Z (Z.of_nat ?k)] =>
             let c := eval vm_compute in (inject_Z (Z.of_nat k)) in
             change (inject_Z (Z.of_nat k)) with c in H
         end; lra | ]).
  lia.
Qed.

(** In a series of at most eight finite quantities, the squared deviation
    of an item from the mean is at most 49/8 of the variance. *)
Lemma deviation_bound (qs : list Q) :
  qs <> [] -> (List.length qs <= 8)%nat ->
  exists m v,
    mean (map Fin qs) = Fin m /\ variance (map Fin qs) = Fin v /\ 0 <= v
    /\ forall q, In q qs -> 8 * ((q - m) * (q - m)) <= 49 * v.
Proof.
  intros Hne Hlen.
  assert (Hne' : map Fin qs <> [])
    by (destruct qs; [congruence | discriminate]).
  assert (Hmean := V_mean (map Fin qs) (allFinite_Fin qs) Hne').
  rewrite map_valQ_Fin, length_map in Hmean.
  destruct Hmean as (m & Em & Hm).
  assert (Hn := inject_Z_length_pos qs Hne).
  assert (Hsum : Qsum qs == inject_Z (Z.of_nat (List.length qs)) * m).
  { rewrite Hm. field. lra. }
  exists m.
  destruct (Nat.lt_ge_cases (List.length qs) 2) as [L | L].
  - exists 0. unfold variance. rewrite length_map.
    assert (L' := L). apply Nat.ltb_lt in L'. rewrite L'.
    split; [exact Em | ]. split; [reflexivity | ]. split; [lra | ].
    intros q Hq.
    destruct qs as [ | x [ | y qs]]; [congruence | | cbn in L; lia].
    destruct Hq as [<- | []].
    assert (Exm : x == m).
    { rewrite Qsum_cons, Qsum_nil in Hsum.
      change (inject_Z (Z.of_nat (List.length [x]))) with 1 in Hsum. lra. }
    assert (E0 : (x - m) * (x - m) == 0) by (rewrite Exm; ring).
    lra.
  - assert (L' : (2 <= List.length (map Fin qs))%nat)
      by (rewrite length_map; exact L).
    assert (Hvar := V_variance (map Fin qs) m (allFinite_Fin qs) L'
                      (ex_intro _ m (conj Em (Qeq_refl m)))).
    rewrite length_map, map_map in Hvar. cbn [valQ] in Hvar.
    destruct Hvar as (v & Ev & Hv).
    assert (Hc := count_gt_1 _ L).
    set (N := inject_Z (Z.of_nat (List.length qs))) in *.
    set (S := Qsum (map (fun q => (q - m) * (q - m)) qs)) in *.
    assert (HS : 0 <= S) by (apply Qsum_squares_nonneg).
    assert (HSv : S == (N - 1) * v).
    { rewrite Hv. field. lra. }
    assert (Hv0 : 0 <= v).
    { rewrite Hv. apply Qle_shift_div_l; lra. }
    exists v. split; [exact Em | ]. split; [exact Ev | ].
    split; [exact Hv0 | ].
    intros q Hq.
    assert (H := deviation_of_an_item qs m q Hsum Hq). cbv zeta in H.
    fold N S in H. rewrite HSv in H.
    apply (few_items (List.length qs)); [lia | exact Hv0 | exact H].
Qed.

Lemma filter_all_false {A} (f : A -> bool) (l : list A) :
  (forall x, In x l -> f x = false) -> filter f l = [].
Proof.
  induction l as [ | x l IH]; intros H; cbn [filter]; [reflexivity | ].
  rewrite (H x (or_introl eq_refl)). apply IH.
  intros y Hy. apply H. right. exact Hy.
Qed.

(** A deviation within 5/2 of the standard deviation gives a z-score that
    does not pass the threshold 2.5. *)
Lemma within_threshold (d s : Q) :
  0 < s -> d * d <= (25 # 4) * (s * s) -> Qabs (d / s) <= 5 # 2.
Proof.
  intros Hs H.
  destruct (Qlt_le_dec (5 # 2) (Qabs (d / s))) as [C | C]; [ | exact C].
  exfalso.
  assert (Hz : d == (d / s) * s) by (field; lra).
  set (z := d / s) in *.
  assert (Ea : Qabs z * Qabs z == z * z).
  { apply Qabs_case; intros _; ring. }
  assert (P1 : (5 # 2) * (5 # 2) < Qabs z * Qabs z).
  { apply Qlt_le_trans with ((5 # 2) * Qabs z).
    - apply Qmult_lt_l; [reflexivity | exact C].
    - apply Qmult_le_compat_r; lra. }
  assert (P2 : 0 < s * s) by (apply Qmult_lt_0_compat; exact Hs).
  assert (P3 : (25 # 4) * (s * s) < (z * z) * (s * s)).
  { apply Qmult_lt_compat_r; [exact P2 | ]. rewrite <- Ea.
    eapply Qle_lt_trans; [ | exact P1]. apply Qle_refl. }
  assert (E : d * d == (z * z) * (s * s)).
  { rewrite Hz at 1 2. ring. }
  lra.
Qed.

End OutlierBound.

Import OutlierBound.
Local Open Scope Q_scope.



(* ================================================================== *)
(** * The median ([median] of [src/lib/metrics.ts]) *)
(* ================================================================== *)

Module Median.
Import JsNumber.

(** [[...values].sort((a, b) => a - b)]: the sort is stable, an element
    goes before the first one that the comparator puts it below, and after
    the ones it compares equal to. *)
Fixpoint insertSorted (x : number) (sorted : list number) : list number :=
  match sorted with
  | [] => [x]
  | y :: rest =>
      if num_ltb (num_sub x y) (Fin 0) then x :: y :: rest
      else y :: insertSorted x rest
  end.

Definition sortAscending (values : list number) : list number :=
  fold_left (fun sorted x => insertSorted x sorted) values [].

(** [sorted[i]]; an index out of range gives [undefined], [NaN] as a
    number. *)
Definition at_index (sorted : list number) (i : nat) : number :=
  nth i sorted NaN.

Definition median (values : list number) : number :=
  if (List.length values =? 0)%nat then Fin 0
  else
    let sorted := sortAscending values in
    let mid := (List.length sorted / 2)%nat in
    if negb (List.length sorted mod 2 =? 0)%nat
    then at_index sorted mid
    else num_div (num_add (at_index sorted (mid - 1)) (at_index sorted mid))
                 (Fin 2).

End Median.

Module MedianFacts.
Import JsNumber Median StatsFacts.
Local Open Scope Q_scope.

(** The sort on finite values, on the rationals. *)
Fixpoint insertQ (x : Q) (sorted : list Q) : list Q :=
  match sorted with
  | [] => [x]
  | y :: rest =>
      if Qltb (Qred (x - y)) 0 then x :: y :: rest
      else y :: insertQ x rest
  end.

Definition sortQ (qs : list Q) : list Q :=
  fold_left (fun sorted x => insertQ x sorted) qs [].

Lemma insertSorted_Fin x qs :
  insertSorted (Fin x) (map Fin qs) = map Fin (insertQ x qs).
Proof.
  induction qs as [ | y qs IH]; cbn [map insertSorted insertQ];
    [reflexivity | ].
  cbn [num_sub]. unfold norm. cbn [num_ltb].
  destruct (Qltb (Qred (x - y)) 0); cbn [map]; [reflexivity | ].
  rewrite IH. reflexivity.
Qed.

Lemma sortAscending_Fin qs :
  sortAscending (map Fin qs) = map Fin (sortQ qs).
Proof.
  unfold sortAscending, sortQ.
  change (@nil number) with (map Fin []).
  generalize (@nil Q) as acc.
  induction qs as [ | x qs IH]; intros acc; cbn [map fold_left];
    [reflexivity | ].
  rewrite insertSorted_Fin. apply IH.
Qed.

Lemma before_iff x y : Qltb (Qred (x - y)) 0 = true <-> x < y.
Proof. rewrite Qltb_lt, Qred_correct. split; intros H; lra. Qed.

Lemma not_before_iff x y : Qltb (Qred (x - y)) 0 = false <-> y <= x.
Proof. rewrite Qltb_ge, Qred_correct. split; intros H; lra. Qed.

Fixpoint ascendingQ (l : list Q) : Prop :=
  match l with
  | [] => True
  | x :: rest => (forall y, In y rest -> x <= y) /\ ascendingQ rest
  end.

Lemma insertQ_In x l q : In q (insertQ x l) <-> q = x \/ In q l.
Proof.
  induction l as [ | y l IH]; cbn [insertQ].
  - cbn. intuition.
  - destruct (Qltb (Qred (x - y)) 0); cbn [In].
    + intuition.
    + rewrite IH. intuition.
Qed.

Lemma insertQ_length x l : List.length (insertQ x l) = S (List.length l).
Proof.
  induction l as [ | y l IH]; cbn [insertQ]; [reflexivity | ].
  destruct (Qltb (Qred (x - y)) 0); cbn [List.length]; [reflexivity | ].
  rewrite IH. reflexivity.
Qed.

Lemma insertQ_ascending x l : ascendingQ l -> ascendingQ (insertQ x l).
Proof.
  induction l as [ | y l IH]; cbn [insertQ ascendingQ].
  - intros _. split; [intros y [] | exact I].
  - intros [Hy Hl]. destruct (Qltb (Qred (x - y)) 0) eqn:E.
    + apply before_iff in E. cbn [ascendingQ]. split; [ | split; assumption].
      intros z [<- | Hz]; [lra | ]. specialize (Hy z Hz). lra.
    + apply not_before_iff in E. cbn [ascendingQ]. split; [ | apply IH, Hl].
      intros z Hz. apply insertQ_In in Hz. destruct Hz as [-> | Hz];
        [exact E | apply Hy, Hz].
Qed.

Definition count (f : Q -> bool) (l : list Q) : nat :=
  List.length (filter f l).

Lemma count_cons f x l :
  count f (x :: l) = ((if f x then 1 else 0) + count f l)%nat.
Proof. unfold count. cbn [filter]. destruct (f x); reflexivity. Qed.

Lemma insertQ_count f x l : count f (insertQ x l) = count f (x :: l).
Proof.
  induction l as [ | y l IH]; cbn [insertQ]; [reflexivity | ].
  destruct (Qltb (Qred (x - y)) 0); [reflexivity | ].
  rewrite (count_cons f y), IH, !count_cons. lia.
Qed.

Section Sorted.
Variable qs : list Q.

Lemma sortQ_acc : forall acc,
  ascendingQ acc ->
  let s := fold_left (fun sorted x => insertQ x sorted) qs acc in
  ascendingQ s
  /\ List.length s = (List.length acc + List.length qs)%nat
  /\ (forall q, In q s <-> In q acc \/ In q qs)
  /\ (forall f, count f s = (count f acc + count f qs)%nat).
Proof.
  induction qs as [ | x l IH]; intros acc Hacc; cbn [fold_left].
  - cbv zeta. split; [exact Hacc | ]. split; [cbn; lia | ].
    split; [intros q; cbn; intuition | ]. intros f. cbn. lia.
  - destruct (IH (insertQ x acc) (insertQ_ascending x acc Hacc))
      as (H1 & H2 & H3 & H4).
    cbv zeta. split; [exact H1 | ]. split.
    { rewrite H2, insertQ_length. cbn [List.length]. lia. }
    split.
    { intros q. rewrite H3, insertQ_In. cbn [In]. intuition. }
    intros f. rewrite H4, insertQ_count, !count_cons. lia.
Qed.

Lemma sortQ_spec :
  ascendingQ (sortQ qs)
  /\ List.length (sortQ qs) = List.length qs
  /\ (forall q, In q (sortQ qs) <-> In q qs)
  /\ (forall f, count f (sortQ qs) = count f qs).
Proof.
  destruct (sortQ_acc [] I) as (H1 & H2 & H3 & H4). fold (sortQ qs) in *.
  split; [exact H1 | ]. split; [exact H2 | ].
  split; [intros q; rewrite H3; cbn; intuition | ].
  intros f. rewrite H4. reflexivity.
Qed.

End Sorted.

(** In an ascending list, the first [k + 1] elements are at most the
    element of index [k], and the elements from index [k] on are at least
    that element. *)
Lemma ascending_split (l : list Q) : forall k,
  ascendingQ l -> (k < List.length l)%nat ->
  (forall q, In q (firstn (S k) l) -> q <= nth k l 0)
  /\ (forall q, In q (skipn k l) -> nth k l 0 <= q).
Proof.
  induction l as [ | x l IH]; intros k Hs Hk; [cbn in Hk; lia | ].
  destruct Hs as [Hx Hl]. destruct k as [ | k].
  - cbn [firstn skipn nth In]. split.
    + intros q [<- | []]. lra.
    + intros q [<- | Hq]; [lra | apply Hx, Hq].
  - cbn [List.length] in Hk.
    destruct (IH k Hl ltac:(lia)) as [H1 H2].
    change (firstn (S (S k)) (x :: l)) with (x :: firstn (S k) l).
    cbn [skipn nth]. split.
    + intros q [<- | Hq]; [ | apply H1, Hq].
      apply Hx, nth_In. lia.
    + exact H2.
Qed.

Lemma count_app f l1 l2 :
  count f (l1 ++ l2) = (count f l1 + count f l2)%nat.
Proof. unfold count. rewrite filter_app, length_app. reflexivity. Qed.

Lemma count_all f l :
  (forall q, In q l -> f q = true) -> count f l = List.length l.
Proof.
  induction l as [ | x l IH]; intros H; [reflexivity | ].
  rewrite count_cons, (H x (or_introl eq_refl)), IH; [reflexivity | ].
  intros q Hq. apply H. right. exact Hq.
Qed.

Lemma count_prefix f l k :
  (k <= List.length l)%nat ->
  (forall q, In q (firstn k l) -> f q = true) -> (k <= count f l)%nat.
Proof.
  intros Hk H. rewrite <- (firstn_skipn k l), count_app, (count_all _ _ H).
  rewrite length_firstn. lia.
Qed.

Lemma count_suffix f l k :
  (k <= List.length l)%nat ->
  (forall q, In q (skipn k l) -> f q = true) ->
  (List.length l - k <= count f l)%nat.
Proof.
  intros Hk H. rewrite <- (firstn_skipn k l) at 2.
  rewrite count_app, (count_all _ _ H), length_skipn. lia.
Qed.

Lemma at_index_Fin (l : list Q) (i : nat) :
  (i < List.length l)%nat -> at_index (map Fin l) i = Fin (nth i l 0).
Proof.
  intros H. unfold at_index.
  rewrite (nth_indep _ NaN (Fin 0)) by (rewrite length_map; exact H).
  apply map_nth.
Qed.

End MedianFacts.

Import Median MedianFacts.
Local Open Scope Q_scope.

(** X27 (median).  The median of a series of finite quantities that is
    not empty is finite, lies between any lower and upper bound of the
    quantities, and splits the series: at least half of the quantities are
    at most the median, and at least half of them are at least the
    median. *)
Theorem median_splits_the_series (qs : list Q) (lo hi : Q) :
  qs <> [] ->
  (forall q, In q qs -> lo <= q <= hi) ->
  exists m,
    median (map Fin qs) = Fin m
    /\ lo <= m <= hi
    /\ (List.length qs
        <= 2 * List.length (filter (fun q => Qle_bool q m) qs))%nat
    /\ (List.length qs
        <= 2 * List.length (filter (fun q => Qle_bool m q) qs))%nat.
Proof.
  intros Hne Hb.
  destruct (sortQ_spec qs) as (Hasc & Hlen & Hin & Hcount).
  assert (Hn : (1 <= List.length qs)%nat).
  { destruct qs; [congruence | cbn; lia]. }
  unfold median. rewrite length_map.
  assert (E0 : (List.length qs =? 0)%nat = false) by (apply Nat.eqb_neq; lia).
  rewrite E0, sortAscending_Fin, length_map, Hlen. cbv zeta.
  set (n := List.length qs) in *.
  set (mid := (n / 2)%nat).
  assert (Hdm := Nat.div_mod_eq n 2). fold mid in Hdm.
  assert (Hmod := Nat.mod_upper_bound n 2 ltac:(lia)).
  assert (Hmid : (mid < List.length (sortQ qs))%nat) by (rewrite Hlen; lia).
  assert (Hbs : forall i, (i < List.length (sortQ qs))%nat ->
                  lo <= nth i (sortQ qs) 0 <= hi).
  { intros i Hi. apply Hb, Hin, nth_In, Hi. }
  destruct (n mod 2 =? 0)%nat eqn:Eodd; cbn [negb].
  - (* an even count: the mean of the two middle elements *)
    apply Nat.eqb_eq in Eodd.
    assert (Hmid1 : (mid - 1 < List.length (sortQ qs))%nat) by lia.
    rewrite (at_index_Fin _ _ Hmid), (at_index_Fin _ _ Hmid1).
    set (a := nth (mid - 1) (sortQ qs) 0).
    set (b := nth mid (sortQ qs) 0).
    destruct (V_div _ _ _ _ (V_add _ _ _ _ (V_Fin a) (V_Fin b)) (V_Fin 2)
                ltac:(discriminate)) as (m & Em & Hm).
    exists m. split; [exact Em | ].
    destruct (ascending_split _ (mid - 1) Hasc Hmid1) as [Ha1 Ha2].
    destruct (ascending_split _ mid Hasc Hmid) as [Hb1 Hb2].
    fold a in Ha1, Ha2. fold b in Hb1, Hb2.
    assert (Hab : a <= b).
    { apply Ha2. unfold b. rewrite <- (firstn_skipn (mid - 1) (sortQ qs)) at 1.
      rewrite app_nth2 by (rewrite length_firstn; lia).
      apply nth_In. rewrite length_firstn, length_skipn. lia. }
    assert (Em' : m == (a + b) / 2) by exact Hm.
    assert (Ham : a <= m) by (rewrite Em'; apply Qle_shift_div_l; lra).
    assert (Hmb : m <= b) by (rewrite Em'; apply Qle_shift_div_r; lra).
    assert (Ba := Hbs _ Hmid1). assert (Bb := Hbs _ Hmid).
    fold a in Ba. fold b in Bb.
    split; [lra | ].
    change (List.length (filter (fun q => Qle_bool q m) qs))
      with (count (fun q => Qle_bool q m) qs).
    change (List.length (filter (fun q => Qle_bool m q) qs))
      with (count (fun q => Qle_bool m q) qs).
    rewrite <- !Hcount. split.
    + assert (H := count_prefix (fun q => Qle_bool q m) (sortQ qs)
                     (S (mid - 1)) ltac:(lia)).
      assert (H' : (S (mid - 1) <= count (fun q => Qle_bool q m) (sortQ qs))%nat).
      { apply H. intros q Hq. apply Qle_bool_iff.
        specialize (Ha1 q Hq). lra. }
      lia.
    + assert (H := count_suffix (fun q => Qle_bool m q) (sortQ qs) mid
                     ltac:(lia)).
      assert (H' : (List.length (sortQ qs) - mid
                    <= count (fun q => Qle_bool m q) (sortQ qs))%nat).
      { apply H. intros q Hq. apply Qle_bool_iff.
        specialize (Hb2 q Hq). lra. }
      lia.
  - (* an odd count: the middle element *)
    apply Nat.eqb_neq in Eodd.
    rewrite (at_index_Fin _ _ Hmid).
    set (m := nth mid (sortQ qs) 0).
    exists m. split; [reflexivity | ].
    destruct (ascending_split _ mid Hasc Hmid) as [H1 H2].
    fold m in H1, H2.
    split; [apply Hbs, Hmid | ].
    change (List.length (filter (fun q => Qle_bool q m) qs))
      with (count (fun q => Qle_bool q m) qs).
    change (List.length (filter (fun q => Qle_bool m q) qs))
      with (count (fun q => Qle_bool m q) qs).
    rewrite <- !Hcount. split.
    + assert (H := count_prefix (fun q => Qle_bool q m) (sortQ qs) (S mid)
                     ltac:(lia)).
      assert (H' : (S mid <= count (fun q => Qle_bool q m) (sortQ qs))%nat).
      { apply H. intros q Hq. apply Qle_bool_iff. apply H1, Hq. }
      lia.
    + assert (H := count_suffix (fun q => Qle_bool m q) (sortQ qs) mid
                     ltac:(lia)).
      assert (H' : (List.length (sortQ qs) - mid
                    <= count (fun q => Qle_bool m q) (sortQ qs))%nat).
      { apply H. intros q Hq. apply Qle_bool_iff. apply H2, Hq. }
      lia.
Qed.

Definition sampleQuantities : list Q := [7; 1; 12; 3].

Lemma median_splits_the_series_witness :
  exists m,
    median (map Fin sampleQuantities) = Fin m /\ 1 <= m <= 12
    /\ (List.length sampleQuantities
        <= 2 * List.length (filter (fun q => Qle_bool q m) sampleQuantities))%nat
    /\ (List.length sampleQuantities
        <= 2 * List.length (filter (fun q => Qle_bool m q) sampleQuantities))%nat.
Proof.
  apply (median_splits_the_series sampleQuantities 1 12).
  - discriminate.
  - intros q [<- | [<- | [<- | [<- | []]]]]; split; discriminate.
Defined.
